(** * Schema inference of [generate_schema.py]

    A shallow embedding of the functions [extract_unique_types],
    [merge_nested_dicts], [infer_dict_schema], [infer_list_schema] and
    [infer_schema] of [src/generate_schema.py], followed by the properties
    proved about them.

    Two models are given.  The first works on Python values as trees and
    is the one most statements are about.  The second keeps lists and
    dictionaries in a store, by reference, as Python does, and is used
    where the identity of an object matters: [list.extend] changes the
    list it is called on.  [store_refines_tree] relates the two: on a
    document that has been loaded into the store, each object once, the
    second model returns the schema that the first returns.

    The fuel of the first model counts the calls that are nested in one
    another; [infer_schema_limited] reads it as the room that the
    recursion limit of the interpreter leaves, and running out of it as
    [RecursionError]. *)

From stdpp Require Import base list strings gmap.
From Stdlib Require Import ZArith Lia Bool List Permutation.
From Stdlib Require Import Floats.SpecFloat.
Import ListNotations.

#[local] Unset Default Proof Using.
#[local] Set Warnings "-register-all".
#[local] Open Scope string_scope.
#[local] Open Scope list_scope.

(** ** Python values *)

(** The values the functions can meet: what [json.load] builds ([None],
    [bool], [int], [float], [str], [list], [dict]) and the instances of
    the class [MixedType] that [merge_nested_dicts] creates.  [json.load]
    never builds a tuple, so the [tuple] half of
    [isinstance(obj, (list, tuple))] has no constructor here.  A [dict]
    keeps its items in insertion order. *)
Inductive pyval : Type :=
| PNone
| PBool (b : bool)
| PInt (z : Z)
| PFloat (f : spec_float)
| PStr (s : string)
| PList (xs : list pyval)
| PDict (items : list (string * pyval))
| PMixedType.

Abbreviation dict V := (list (string * V)).

(** [key in d] and [d[key]]. *)
Fixpoint dict_get {V : Type} (key : string) (d : dict V) : option V :=
  match d with
  | [] => None
  | (k, v) :: d' => if String.eqb key k then Some v else dict_get key d'
  end.

(** [d[key] = value]: an existing key keeps its position, a new key goes
    to the end. *)
Fixpoint dict_set {V : Type} (key : string) (value : V) (d : dict V) : dict V :=
  match d with
  | [] => [(key, value)]
  | (k, v) :: d' =>
      if String.eqb key k then (k, value) :: d'
      else (k, v) :: dict_set key value d'
  end.

Definition dict_keys {V : Type} (d : dict V) : list string := map fst d.

Definition isinstance_dict (x : pyval) : bool :=
  match x with PDict _ => true | _ => false end.

Definition isinstance_list (x : pyval) : bool :=
  match x with PList _ => true | _ => false end.

(** [type(x).__name__] *)
Definition type_name (x : pyval) : string :=
  match x with
  | PNone => "NoneType"
  | PBool _ => "bool"
  | PInt _ => "int"
  | PFloat _ => "float"
  | PStr _ => "str"
  | PList _ => "list"
  | PDict _ => "dict"
  | PMixedType => "MixedType"
  end.

(** ** Results *)

Inductive exn : Type :=
  AttributeError | TypeError | IndexError | RecursionError.

(** What a call does: it returns, it raises, or the model ran out of
    fuel before the call ended. *)
Inductive result (A : Type) : Type :=
| Ok (a : A)
| Raise (e : exn)
| OutOfFuel.
Arguments Ok {A} a.
Arguments Raise {A} e.
Arguments OutOfFuel {A}.

Definition bind {A B : Type} (r : result A) (f : A -> result B) : result B :=
  match r with
  | Ok a => f a
  | Raise e => Raise e
  | OutOfFuel => OutOfFuel
  end.

Notation "x <- r ;; k" := (bind r (fun x => k))
  (at level 100, r at next level, right associativity).

(** A [for] loop over [l] that threads [a]. *)
Fixpoint foldM {A B : Type} (f : A -> B -> result A) (l : list B) (a : A)
  : result A :=
  match l with
  | [] => Ok a
  | b :: l' => a' <- f a b ;; foldM f l' a'
  end.

(** ** [merge_nested_dicts] *)

(** [d.items()] *)
Definition dict_items (d : pyval) : result (dict pyval) :=
  match d with
  | PDict items => Ok items
  | _ => Raise AttributeError
  end.

(** [existing.extend(value)] for two lists. *)
Definition list_extend (existing value : pyval) : pyval :=
  match existing, value with
  | PList xs, PList ys => PList (xs ++ ys)
  | _, _ => existing
  end.

(** The body of the inner loop, lines 37 to 45; [rec] is the recursive
    call. *)
Definition merge_entry (rec : list pyval -> result (dict pyval))
  (merged : dict pyval) (key : string) (value : pyval)
  : result (dict pyval) :=
  match dict_get key merged with
  | Some existing =>
      if isinstance_dict existing && isinstance_dict value then
        m <- rec [existing; value] ;;
        Ok (dict_set key (PDict m) merged)
      else if isinstance_list existing && isinstance_list value then
        Ok (dict_set key (list_extend existing value) merged)
      else if negb (Bool.eqb (isinstance_list existing) (isinstance_list value)) then
        Ok (dict_set key PMixedType merged)
      else
        Ok merged
  | None => Ok (dict_set key value merged)
  end.

Definition merge_dict (rec : list pyval -> result (dict pyval))
  (merged : dict pyval) (d : pyval) : result (dict pyval) :=
  items <- dict_items d ;;
  foldM (fun merged kv => merge_entry rec merged (fst kv) (snd kv)) items merged.

Fixpoint merge_nested_dicts (fuel : nat) (dict_list : list pyval)
  : result (dict pyval) :=
  match fuel with
  | O => OutOfFuel
  | S fuel' => foldM (merge_dict (merge_nested_dicts fuel')) dict_list []
  end.

(** ** Schemas *)

(** What [infer_schema] returns: [None], a type name, a list or a
    dictionary. *)
Inductive schema : Type :=
| SNone
| SKind (label : string)
| SList (l : list schema)
| SDict (fields : list (string * schema)).

(** [chain.from_iterable(lst)]: the elements of the elements.  A string
    yields its characters and a dictionary its keys; the other values
    cannot be iterated.  Line 61 is reached with lists only, so that
    the characters of a string, which are bytes here and code points in
    Python, play no part in what follows. *)
Definition iterate (x : pyval) : result (list pyval) :=
  match x with
  | PList xs => Ok xs
  | PStr s => Ok (map (fun c => PStr (String c EmptyString)) (String.list_ascii_of_string s))
  | PDict items => Ok (map (fun kv => PStr (fst kv)) items)
  | _ => Raise TypeError
  end.

Definition chain_from_iterable (lst : list pyval) : result (list pyval) :=
  foldM (fun acc x => xs <- iterate x ;; Ok (acc ++ xs)) lst [].

Section Inference.

(** [list(set(names))]: the order in which a Python set yields its
    elements is not fixed by the language, so it is a parameter. *)
Variable set_iter : list string -> list string.

Definition extract_unique_types (lst : list pyval) : list string :=
  set_iter (map type_name lst).

Definition index0 (types : list string) : result string :=
  match types with
  | t :: _ => Ok t
  | [] => Raise IndexError
  end.

Fixpoint infer_schema (fuel : nat) (obj : pyval) {struct fuel}
  : result schema :=
  match fuel with
  | O => OutOfFuel
  | S fuel' =>
      match obj with
      | PList lst => infer_list_schema fuel' lst
      | PDict data => infer_dict_schema fuel' data
      | PNone => Ok SNone
      | _ => Ok (SKind (type_name obj))
      end
  end
with infer_dict_schema (fuel : nat) (data : dict pyval) {struct fuel}
  : result schema :=
  match fuel with
  | O => OutOfFuel
  | S fuel' =>
      fields <- foldM (fun acc kv =>
                        s <- infer_schema fuel' (snd kv) ;;
                        Ok (dict_set (fst kv) s acc)) data [] ;;
      Ok (SDict fields)
  end
with infer_list_schema (fuel : nat) (lst : list pyval) {struct fuel}
  : result schema :=
  match fuel with
  | O => OutOfFuel
  | S fuel' =>
      match lst with
      | [] => Ok (SList [])
      | _ :: _ =>
          let types := extract_unique_types lst in
          if (1 <? length types)%nat then Ok (SList (map SKind types))
          else
            t0 <- index0 types ;;
            if String.eqb t0 "dict" then
              merged <- merge_nested_dicts fuel' lst ;;
              s <- infer_dict_schema fuel' merged ;;
              Ok (SList [s])
            else if String.eqb t0 "list" then
              flat <- chain_from_iterable lst ;;
              s <- infer_list_schema fuel' flat ;;
              Ok (SList [s])
            else Ok (SList [SKind t0])
      end
  end.

End Inference.

(** The first-seen order, one of the orders a set can have. *)
Definition first_seen (names : list string) : list string :=
  nodup String.string_dec names.

(** ** Sizes *)

Fixpoint vsize (v : pyval) : nat :=
  match v with
  | PList xs => S (list_sum (map vsize xs))
  | PDict items => S (list_sum (map (fun kv => vsize (snd kv)) items))
  | _ => 1
  end.

Definition lsize (xs : list pyval) : nat := list_sum (map vsize xs).

Definition dsize (items : dict pyval) : nat :=
  list_sum (map (fun kv => vsize (snd kv)) items).

(** ** The same functions over a store

    Lists and dictionaries are objects in a store and values hold
    references to them, so that two places can hold the same list and
    [extend] is seen through both. *)
Module Store.

Abbreviation loc := nat.

Inductive val : Type :=
| VNone
| VBool (b : bool)
| VInt (z : Z)
| VFloat (f : spec_float)
| VStr (s : string)
| VRef (l : loc)
| VMixedType.

Inductive obj : Type :=
| OList (xs : list val)
| ODict (items : dict val).

Abbreviation heap := (list obj).

(** A call returns a value and a store, raises, meets a reference that
    is of the wrong kind or points nowhere (no Python program does), or
    the fuel runs out. *)
Inductive outcome (A : Type) : Type :=
| Done (a : A) (h : heap)
| Raised (e : exn)
| Stuck
| Timeout.
Arguments Done {A} a h.
Arguments Raised {A} e.
Arguments Stuck {A}.
Arguments Timeout {A}.

Definition M (A : Type) : Type := heap -> outcome A.

Definition ret {A : Type} (a : A) : M A := fun h => Done a h.

Definition raise {A : Type} (e : exn) : M A := fun _ => Raised e.

Definition bindS {A B : Type} (c : M A) (k : A -> M B) : M B :=
  fun h =>
    match c h with
    | Done a h' => k a h'
    | Raised e => Raised e
    | Stuck => Stuck
    | Timeout => Timeout
    end.

Notation "x <~ c ;; k" := (bindS c (fun x => k))
  (at level 100, c at next level, right associativity).

Definition alloc (o : obj) : M loc :=
  fun h => Done (length h) (h ++ [o]).

Definition load_list (l : loc) : M (list val) :=
  fun h => match h !! l with
           | Some (OList xs) => Done xs h
           | _ => Stuck
           end.

Definition load_dict (l : loc) : M (dict val) :=
  fun h => match h !! l with
           | Some (ODict items) => Done items h
           | _ => Stuck
           end.

Definition store (l : loc) (o : obj) : M unit :=
  fun h => Done tt (<[l := o]> h).

(** A loop over a snapshot of the elements. *)
Fixpoint foldS {A B : Type} (f : A -> B -> M A) (l : list B) (a : A) : M A :=
  match l with
  | [] => ret a
  | b :: l' => a' <~ f a b ;; foldS f l' a'
  end.

(** [for d in l: body(d)] as the list iterator runs it: the list is
    read again at every step, at the next index. *)
Fixpoint for_each (n : nat) (l : loc) (i : nat) (body : val -> M unit)
  : M unit :=
  match n with
  | O => fun _ => Timeout
  | S n' =>
      xs <~ load_list l ;;
      match xs !! i with
      | None => ret tt
      | Some d => _ <~ body d ;; for_each n' l (S i) body
      end
  end.

Definition isinstance_dict (x : val) : M bool :=
  fun h => match x with
           | VRef l => match h !! l with
                       | Some (ODict _) => Done true h
                       | Some (OList _) => Done false h
                       | None => Stuck
                       end
           | _ => Done false h
           end.

Definition isinstance_list (x : val) : M bool :=
  fun h => match x with
           | VRef l => match h !! l with
                       | Some (OList _) => Done true h
                       | Some (ODict _) => Done false h
                       | None => Stuck
                       end
           | _ => Done false h
           end.

Definition type_name (x : val) : M string :=
  fun h => match x with
           | VNone => Done "NoneType" h
           | VBool _ => Done "bool" h
           | VInt _ => Done "int" h
           | VFloat _ => Done "float" h
           | VStr _ => Done "str" h
           | VRef l => match h !! l with
                       | Some (OList _) => Done "list" h
                       | Some (ODict _) => Done "dict" h
                       | None => Stuck
                       end
           | VMixedType => Done "MixedType" h
           end.

(** [d.items()].  The dictionaries that [merge_nested_dicts] and
    [infer_dict_schema] iterate over are not written to while they are
    iterated (the only dictionary written to is the [merged] of the
    running call), so the items are read once. *)
Definition dict_items (d : val) : M (dict val) :=
  match d with
  | VRef l =>
      fun h => match h !! l with
               | Some (ODict items) => Done items h
               | Some (OList _) => Raised AttributeError
               | None => Stuck
               end
  | _ => raise AttributeError
  end.

(** [merged[key] = value] *)
Definition setitem (merged : loc) (key : string) (value : val) : M unit :=
  m <~ load_dict merged ;;
  store merged (ODict (dict_set key value m)).

(** [existing.extend(value)] for two lists: the object [existing] is
    written to. *)
Definition extend (existing value : val) : M unit :=
  match existing, value with
  | VRef le, VRef lv =>
      ys <~ load_list lv ;;
      xs <~ load_list le ;;
      store le (OList (xs ++ ys))
  | _, _ => fun _ => Stuck
  end.

Definition merge_entry (rec : loc -> M loc) (merged : loc)
  (key : string) (value : val) : M unit :=
  m <~ load_dict merged ;;
  match dict_get key m with
  | Some existing =>
      ed <~ isinstance_dict existing ;;
      vd <~ isinstance_dict value ;;
      if ed && vd then
        pair <~ alloc (OList [existing; value]) ;;
        r <~ rec pair ;;
        setitem merged key (VRef r)
      else
        el <~ isinstance_list existing ;;
        vl <~ isinstance_list value ;;
        if el && vl then extend existing value
        else if negb (Bool.eqb el vl) then setitem merged key VMixedType
        else ret tt
  | None => setitem merged key value
  end.

Definition merge_dict (rec : loc -> M loc) (merged : loc) (d : val)
  : M unit :=
  items <~ dict_items d ;;
  foldS (fun _ kv => merge_entry rec merged (fst kv) (snd kv)) items tt.

(** [dict_list] is a list object: [infer_list_schema] passes the list
    it was given and the recursive call a new two-element list. *)
Fixpoint merge_nested_dicts (fuel : nat) (dict_list : loc) : M loc :=
  match fuel with
  | O => fun _ => Timeout
  | S fuel' =>
      merged <~ alloc (ODict []) ;;
      _ <~ for_each fuel' dict_list 0
             (merge_dict (merge_nested_dicts fuel') merged) ;;
      ret merged
  end.

Definition iterate (x : val) : M (list val) :=
  match x with
  | VRef l =>
      fun h => match h !! l with
               | Some (OList xs) => Done xs h
               | Some (ODict items) => Done (map (fun kv => VStr (fst kv)) items) h
               | None => Stuck
               end
  | VStr s =>
      ret (map (fun c => VStr (String c EmptyString)) (String.list_ascii_of_string s))
  | _ => raise TypeError
  end.

(** [list(chain.from_iterable(lst))]: a new list object. *)
Definition chain_from_iterable (lst : loc) : M loc :=
  xs <~ load_list lst ;;
  flat <~ foldS (fun acc x => ys <~ iterate x ;; ret (acc ++ ys)) xs [] ;;
  alloc (OList flat).

Section Inference.

Variable set_iter : list string -> list string.

Definition extract_unique_types (lst : loc) : M (list string) :=
  xs <~ load_list lst ;;
  names <~ foldS (fun acc x => n <~ type_name x ;; ret (acc ++ [n])) xs [] ;;
  ret (set_iter names).

Definition index0 (types : list string) : M string :=
  match types with
  | t :: _ => ret t
  | [] => raise IndexError
  end.

(** The schema that is returned is made of new objects that nothing
    else refers to, so it is returned as a tree. *)
Fixpoint infer_schema (fuel : nat) (obj : val) {struct fuel} : M schema :=
  match fuel with
  | O => fun _ => Timeout
  | S fuel' =>
      il <~ isinstance_list obj ;;
      if il then
        match obj with
        | VRef l => infer_list_schema fuel' l
        | _ => fun _ => Stuck
        end
      else
        id <~ isinstance_dict obj ;;
        if id then
          match obj with
          | VRef l => infer_dict_schema fuel' l
          | _ => fun _ => Stuck
          end
        else
          match obj with
          | VNone => ret SNone
          | _ => n <~ type_name obj ;; ret (SKind n)
          end
  end
with infer_dict_schema (fuel : nat) (data : loc) {struct fuel} : M schema :=
  match fuel with
  | O => fun _ => Timeout
  | S fuel' =>
      items <~ load_dict data ;;
      fields <~ foldS (fun acc kv =>
                         s <~ infer_schema fuel' (snd kv) ;;
                         ret (dict_set (fst kv) s acc)) items [] ;;
      ret (SDict fields)
  end
with infer_list_schema (fuel : nat) (lst : loc) {struct fuel} : M schema :=
  match fuel with
  | O => fun _ => Timeout
  | S fuel' =>
      xs <~ load_list lst ;;
      match xs with
      | [] => ret (SList [])
      | _ :: _ =>
          types <~ extract_unique_types lst ;;
          if (1 <? length types)%nat then ret (SList (map SKind types))
          else
            t0 <~ index0 types ;;
            if String.eqb t0 "dict" then
              merged <~ merge_nested_dicts fuel' lst ;;
              s <~ infer_dict_schema fuel' merged ;;
              ret (SList [s])
            else if String.eqb t0 "list" then
              flat <~ chain_from_iterable lst ;;
              s <~ infer_list_schema fuel' flat ;;
              ret (SList [s])
            else ret (SList [SKind t0])
      end
  end.

End Inference.

(** What [json.load] does: it builds the objects of a document in the
    store, each of them once. *)
Definition mapS {A B : Type} (f : A -> M B) : list A -> M (list B) :=
  fix go (xs : list A) : M (list B) :=
    match xs with
    | [] => ret []
    | x :: xs' => y <~ f x ;; ys <~ go xs' ;; ret (y :: ys)
    end.

Fixpoint alloc_tree (t : pyval) : M val :=
  match t with
  | PNone => ret VNone
  | PBool b => ret (VBool b)
  | PInt z => ret (VInt z)
  | PFloat f => ret (VFloat f)
  | PStr s => ret (VStr s)
  | PList xs =>
      vs <~ mapS alloc_tree xs ;;
      l <~ alloc (OList vs) ;;
      ret (VRef l)
  | PDict items =>
      vs <~ mapS (fun kv => v <~ alloc_tree (snd kv) ;; ret (fst kv, v)) items ;;
      l <~ alloc (ODict vs) ;;
      ret (VRef l)
  | PMixedType => ret VMixedType
  end.

(** The tree that a value stands for in a store, read to depth [n]. *)
Fixpoint read (n : nat) (h : heap) (v : val) : option pyval :=
  match n with
  | O => None
  | S n' =>
      match v with
      | VNone => Some PNone
      | VBool b => Some (PBool b)
      | VInt z => Some (PInt z)
      | VFloat f => Some (PFloat f)
      | VStr s => Some (PStr s)
      | VMixedType => Some PMixedType
      | VRef l =>
          match h !! l with
          | Some (OList xs) =>
              option_map PList (mapM (read n' h) xs)
          | Some (ODict items) =>
              option_map PDict
                (mapM (fun kv => option_map (pair (fst kv)) (read n' h (snd kv))) items)
          | None => None
          end
      end
  end.

Definition snapshot (n : nat) (v : val) : M (option pyval) :=
  fun h => Done (read n h v) h.

(** A whole run: load the document into an empty store, read it back,
    infer, and read it back again from the store that is left. *)
Definition run (set_iter : list string -> list string) (fuel : nat)
  (document : pyval) : outcome (schema * option pyval * option pyval) :=
  (v <~ alloc_tree document ;;
   before <~ snapshot fuel v ;;
   s <~ infer_schema set_iter fuel v ;;
   after <~ snapshot fuel v ;;
   ret (s, before, after)) [].

(** What the program does with a document: load it, infer. *)
Definition infer_document (set_iter : list string -> list string)
  (fuel : nat) (document : pyval) : outcome schema :=
  (v <~ alloc_tree document ;; infer_schema set_iter fuel v) [].

End Store.

(** The values that the dictionaries of [dict_list] hold under [key], in
    the order in which [merge_nested_dicts] meets them. *)
Definition values_at (key : string) (d : pyval) : list pyval :=
  match d with
  | PDict items => map snd (filter (fun kv => String.eqb key (fst kv)) items)
  | _ => []
  end.

Definition observed (key : string) (dict_list : list pyval) : list pyval :=
  flat_map (values_at key) dict_list.

(** ** Shapes of values and of lists of values *)

Definition all_dicts (lst : list pyval) : Prop :=
  Forall (fun d => isinstance_dict d = true) lst.

(** Neither a dictionary nor a list. *)
Definition scalar_like (v : pyval) : Prop :=
  isinstance_dict v = false /\ isinstance_list v = false.

Definition no_list (v : pyval) : Prop := isinstance_list v = false.

(** ** Returning, by size *)

(** The three functions return on everything below a size [n], with
    twice that much fuel. *)
Definition dict_returns (set_iter : list string -> list string) (n : nat)
  : Prop :=
  forall data, dsize data < n ->
    exists s, forall fuel, 2 * n <= S fuel ->
                           infer_dict_schema set_iter fuel data = Ok s.

Definition list_returns (set_iter : list string -> list string) (n : nat)
  : Prop :=
  forall lst, lsize lst < n ->
    exists s, forall fuel, 2 * n <= S fuel ->
                           infer_list_schema set_iter fuel lst = Ok s.

Definition value_returns (set_iter : list string -> list string) (n : nat)
  : Prop :=
  forall v, vsize v <= n ->
    exists s, forall fuel, 2 * n <= fuel ->
                           infer_schema set_iter fuel v = Ok s.

(** ** Documents in a store *)

(** [repr h v t F]: in the store [h] the value [v] stands for the tree
    [t], and the objects it is made of are those at the locations [F],
    each of them used once. *)
Inductive repr (h : Store.heap) : Store.val -> pyval -> gset nat -> Prop :=
| repr_none : repr h Store.VNone PNone ∅
| repr_bool b : repr h (Store.VBool b) (PBool b) ∅
| repr_int z : repr h (Store.VInt z) (PInt z) ∅
| repr_float f : repr h (Store.VFloat f) (PFloat f) ∅
| repr_str s : repr h (Store.VStr s) (PStr s) ∅
| repr_mixed : repr h Store.VMixedType PMixedType ∅
| repr_list l vs ts F :
    h !! l = Some (Store.OList vs) -> reprs h vs ts F -> l ∉ F ->
    repr h (Store.VRef l) (PList ts) ({[l]} ∪ F)
| repr_dict l items titems F :
    h !! l = Some (Store.ODict items) -> reprd h items titems F -> l ∉ F ->
    repr h (Store.VRef l) (PDict titems) ({[l]} ∪ F)
with reprs (h : Store.heap) : list Store.val -> list pyval -> gset nat -> Prop :=
| reprs_nil : reprs h [] [] ∅
| reprs_cons v t F vs ts G :
    repr h v t F -> reprs h vs ts G -> F ## G ->
    reprs h (v :: vs) (t :: ts) (F ∪ G)
with reprd (h : Store.heap)
  : dict Store.val -> dict pyval -> gset nat -> Prop :=
| reprd_nil : reprd h [] [] ∅
| reprd_cons k v t F items titems G :
    repr h v t F -> reprd h items titems G -> F ## G ->
    reprd h ((k, v) :: items) ((k, t) :: titems) (F ∪ G).

Scheme repr_mut := Minimality for repr Sort Prop
  with reprs_mut := Minimality for reprs Sort Prop
  with reprd_mut := Minimality for reprd Sort Prop.
Combined Scheme repr_mutind from repr_mut, reprs_mut, reprd_mut.

(** [frame F h h']: from [h] to [h'] the store grew, and of the objects
    of [h] only those at [F] may have changed. *)
Definition frame (F : gset nat) (h h' : Store.heap) : Prop :=
  length h <= length h'
  /\ forall l, l < length h -> l ∉ F -> h' !! l = h !! l.

(** [within F h F']: the locations of [F'] are locations of [F] or are
    new since [h]. *)
Definition within (F : gset nat) (h : Store.heap) (F' : gset nat) : Prop :=
  forall l, l ∈ F' -> l ∈ F \/ length h <= l.

(** [eventually c a h]: with enough fuel the computation [c] returns [a]
    and leaves the store [h]. *)
Definition eventually {A : Type} (c : nat -> Store.outcome A) (a : A)
  (h : Store.heap) : Prop :=
  exists n0, forall n, n0 <= n -> c n = Store.Done a h.

(** [holds_dict h l tm F]: at [l] the store has a dictionary that stands
    for [tm], made of the objects at [F]. *)
Definition holds_dict (h : Store.heap) (l : Store.loc) (tm : dict pyval)
  (F : gset nat) : Prop :=
  exists items,
    h !! l = Some (Store.ODict items) /\ reprd h items tm F /\ l ∉ F.

Definition holds_list (h : Store.heap) (l : Store.loc) (ts : list pyval)
  (F : gset nat) : Prop :=
  exists vs,
    h !! l = Some (Store.OList vs) /\ reprs h vs ts F /\ l ∉ F.

(** The three functions over the store return what the functions over
    trees return with fuel [f], and write only to the objects of their
    argument. *)
Definition value_refines (set_iter : list string -> list string) (f : nat)
  : Prop :=
  forall h v t F s,
    repr h v t F -> infer_schema set_iter f t = Ok s ->
    exists h',
      eventually (fun n => Store.infer_schema set_iter n v h) s h'
      /\ frame F h h'.

Definition dict_refines (set_iter : list string -> list string) (f : nat)
  : Prop :=
  forall h l data F s,
    holds_dict h l data F -> infer_dict_schema set_iter f data = Ok s ->
    exists h',
      eventually (fun n => Store.infer_dict_schema set_iter n l h) s h'
      /\ frame F h h'.

Definition list_refines (set_iter : list string -> list string) (f : nat)
  : Prop :=
  forall h l ts F s,
    holds_list h l ts F -> infer_list_schema set_iter f ts = Ok s ->
    exists h',
      eventually (fun n => Store.infer_list_schema set_iter n l h) s h'
      /\ frame F h h'.

(** [loads t]: [alloc_tree] builds [t] out of new objects and leaves the
    objects of the store alone. *)
Definition loads (t : pyval) : Prop :=
  forall h, exists v h' F,
    Store.alloc_tree t h = Store.Done v h'
    /\ repr h' v t F
    /\ frame ∅ h h'
    /\ forall l, l ∈ F -> length h <= l.

(** ** The documents of the examples *)

(** [[{"a": 1}, {"a": "x"}]] *)
Definition doc_scalar_conflict : list pyval :=
  [PDict [("a", PInt 1)]; PDict [("a", PStr "x")]].

(** [[{"a": [1]}, {"a": 2}]] *)
Definition doc_mixed : list pyval :=
  [PDict [("a", PList [PInt 1])]; PDict [("a", PInt 2)]].

(** [[{"a": 1}, {"b": "x"}]] *)
Definition doc_siblings : list pyval :=
  [PDict [("a", PInt 1)]; PDict [("b", PStr "x")]].

(** [[1, "a"]] *)
Definition doc_heterogeneous : list pyval := [PInt 1; PStr "a"].

(** [[[1, 2], [3]]] *)
Definition doc_nested : list pyval :=
  [PList [PInt 1; PInt 2]; PList [PInt 3]].

(** [[{"a": [1]}, {"a": [2, 3]}]] *)
Definition doc_list_fields : list pyval :=
  [PDict [("a", PList [PInt 1])]; PDict [("a", PList [PInt 2; PInt 3])]].

(** [[1, null]] *)
Definition doc_with_null : list pyval := [PInt 1; PNone].

(** [[{"a": {"x": 1}}, {"a": {"y": 2}}]] *)
Definition doc_dict_fields : list pyval :=
  [PDict [("a", PDict [("x", PInt 1)])]; PDict [("a", PDict [("y", PInt 2)])]].

(** [doc_list_fields] after [infer_schema] has run on it. *)
Definition doc_list_fields_after : list pyval :=
  [PDict [("a", PList [PInt 1; PInt 2; PInt 3])];
   PDict [("a", PList [PInt 2; PInt 3])]].

(** A set with one element has one order: [set_iter] with that case
    written out. *)
Definition one_name_first (set_iter : list string -> list string)
  (names : list string) : list string :=
  match names with
  | t :: rest => if forallb (String.eqb t) rest then [t] else set_iter names
  | [] => set_iter names
  end.

(** ** One key at a time *)

(** What lines 38 to 43 leave under a key that holds [existing] when the
    next dictionary holds [value] under it. *)
Definition merge_value (rec : list pyval -> result (dict pyval))
  (existing value : pyval) : result pyval :=
  if isinstance_dict existing && isinstance_dict value then
    m <- rec [existing; value] ;;
    Ok (PDict m)
  else if isinstance_list existing && isinstance_list value then
    Ok (list_extend existing value)
  else if negb (Bool.eqb (isinstance_list existing) (isinstance_list value)) then
    Ok PMixedType
  else
    Ok existing.

(** Lines 37 to 45 as seen from one key: [st] is what [merged] holds
    under the key, if anything. *)
Definition merge_step (rec : list pyval -> result (dict pyval))
  (st : option pyval) (value : pyval) : result (option pyval) :=
  match st with
  | None => Ok (Some value)
  | Some existing => v <- merge_value rec existing value ;; Ok (Some v)
  end.

(** The values met under one key, merged in the order in which they are
    met. *)
Definition merge_values (rec : list pyval -> result (dict pyval))
  (values : list pyval) : result (option pyval) :=
  foldM (merge_step rec) values None.

Definition is_mixed (v : pyval) : bool :=
  match v with PMixedType => true | _ => false end.

(** ** The order of keys *)

(** [keys] with [key] at the end, unless it is there already. *)
Definition add_key (keys : list string) (key : string) : list string :=
  if existsb (String.eqb key) keys then keys else keys ++ [key].

(** The keys of [keys], each once, in the order in which they first
    appear. *)
Definition first_appearance (keys : list string) : list string :=
  fold_left add_key keys [].

Definition keys_of (d : pyval) : list string :=
  match d with
  | PDict items => dict_keys items
  | _ => []
  end.

(** ** Schemas of scalars, and the shape of schemas *)

(** What [infer_schema] returns for a value that is neither a list nor a
    dictionary. *)
Definition scalar_schema (v : pyval) : schema :=
  match v with
  | PNone => SNone
  | _ => SKind (type_name v)
  end.

(** The schemas in which every list is empty, has one schema in it, or
    has two different type names or more, and in which no dictionary has
    a key twice. *)
Inductive shaped : schema -> Prop :=
| shaped_none : shaped SNone
| shaped_kind t : shaped (SKind t)
| shaped_dict fields :
    NoDup (dict_keys fields) ->
    Forall (fun ks => shaped (snd ks)) fields ->
    shaped (SDict fields)
| shaped_empty : shaped (SList [])
| shaped_one s : shaped s -> shaped (SList [s])
| shaped_kinds types :
    2 <= length types -> NoDup types -> shaped (SList (map SKind types)).

(** The size of a schema: the number of its nodes. *)
Fixpoint ssize (s : schema) : nat :=
  match s with
  | SList xs => S (list_sum (map ssize xs))
  | SDict fields => S (list_sum (map (fun ks => ssize (snd ks)) fields))
  | _ => 1
  end.

Definition fsize (fields : dict schema) : nat :=
  list_sum (map (fun ks => ssize (snd ks)) fields).

(** ** What a call leaves of a store *)

(** The object at [l] is kept from [h] to [h']: a dictionary is as it
    was, and a list has what it had, in the same order, and after it
    what was appended. *)
Definition kept (h h' : Store.heap) (l : Store.loc) : Prop :=
  match h !! l with
  | Some (Store.ODict items) => h' !! l = Some (Store.ODict items)
  | Some (Store.OList xs) => exists ys, h' !! l = Some (Store.OList (xs ++ ys))
  | None => True
  end.

Definition appends_below (n : nat) (h h' : Store.heap) : Prop :=
  length h <= length h' /\ forall l, l < n -> kept h h' l.

(** Every object of [h] is kept. *)
Definition only_appends (h h' : Store.heap) : Prop :=
  appends_below (length h) h h'.

(** A computation that, started on a store of [n] objects or more,
    keeps the objects below [n]. *)
Definition appends_above {A : Type} (n : nat) (c : Store.M A) : Prop :=
  forall h a h', n <= length h -> c h = Store.Done a h' -> appends_below n h h'.

(** A computation that does not write. *)
Definition reads {A : Type} (c : Store.M A) : Prop :=
  forall h a h', c h = Store.Done a h' -> h' = h.

(** ** The name of the output file, line 88 *)

Fixpoint startswith (old s : string) : bool :=
  match old, s with
  | EmptyString, _ => true
  | String a old', String b s' => Ascii.eqb a b && startswith old' s'
  | String _ _, EmptyString => false
  end.

(** [old] is somewhere in [s]. *)
Fixpoint occurs (old s : string) : bool :=
  match s with
  | EmptyString => startswith old s
  | String _ s' => startswith old s || occurs old s'
  end.

(** [s.replace(old, new)] for an [old] that is not empty: the
    occurrences of [old] are replaced from left to right, and the search
    goes on after each one; [skip] counts the characters of an occurrence
    that are still to be passed over. *)
Fixpoint replace_from (old new : string) (skip : nat) (s : string) : string :=
  match s with
  | EmptyString => EmptyString
  | String c s' =>
      match skip with
      | S k => replace_from old new k s'
      | O =>
          if startswith old s
          then (new ++ replace_from old new (String.length old - 1) s')%string
          else String c (replace_from old new O s')
      end
  end.

Definition str_replace (s old new : string) : string :=
  replace_from old new 0 s.

(** [input_file.replace(".json", ".schema.json")] *)
Definition output_file_name (input_file : string) : string :=
  str_replace input_file ".json" ".schema.json".

(** ** Example stores *)

(** The store that loading [doc_list_fields] gives; the document is the
    list at 4. *)
Definition heap_list_fields : Store.heap :=
  [Store.OList [Store.VInt 1];
   Store.ODict [("a", Store.VRef 0)];
   Store.OList [Store.VInt 2; Store.VInt 3];
   Store.ODict [("a", Store.VRef 2)];
   Store.OList [Store.VRef 1; Store.VRef 3]].

(** The same store after [merge_nested_dicts] has run on the list at 4:
    the list at 0 is longer and the merged dictionary is at 5. *)
Definition heap_list_fields_merged : Store.heap :=
  [Store.OList [Store.VInt 1; Store.VInt 2; Store.VInt 3];
   Store.ODict [("a", Store.VRef 0)];
   Store.OList [Store.VInt 2; Store.VInt 3];
   Store.ODict [("a", Store.VRef 2)];
   Store.OList [Store.VRef 1; Store.VRef 3];
   Store.ODict [("a", Store.VRef 0)]].

(** ** The recursion limit

    Python has no fuel: a call that would be nested more deeply than
    the recursion limit of the interpreter allows raises
    [RecursionError], and nothing in the program catches it (line 87 is
    outside the two [try] blocks).  In [merge_nested_dicts],
    [infer_schema], [infer_dict_schema] and [infer_list_schema] the fuel
    goes down by one at each call of one of these four functions and
    nowhere else, so a call with fuel [limit] is a call with room for
    [limit] nested calls of them, the first included.

    The limit of the interpreter (1000 by default) counts every frame:
    those of the callers of [infer_schema], of the comprehension of
    [infer_dict_schema] and of [extract_unique_types] and its generator
    as well.  It leaves room for no more nested calls than its value,
    and for fewer by these frames. *)
Definition under_limit {A : Type} (r : result A) : result A :=
  match r with
  | OutOfFuel => Raise RecursionError
  | _ => r
  end.

Definition infer_schema_limited (set_iter : list string -> list string)
  (limit : nat) (obj : pyval) : result schema :=
  under_limit (infer_schema set_iter limit obj).

(** [r'] is what [r] is, when [r] has not run out of fuel. *)
Definition settles {A : Type} (r r' : result A) : Prop :=
  r <> OutOfFuel -> r' = r.

(** How deeply lists and dictionaries are nested in a value. *)
Fixpoint vdepth (v : pyval) : nat :=
  match v with
  | PList xs => S (list_max (map vdepth xs))
  | PDict items => S (list_max (map (fun kv => vdepth (snd kv)) items))
  | _ => 0
  end.

Definition ldepth (xs : list pyval) : nat := list_max (map vdepth xs).

Definition ddepth (items : dict pyval) : nat :=
  list_max (map (fun kv => vdepth (snd kv)) items).

(** [infer_schema] returns on every value nested to the depth [D] at
    most, with room for [2 * D + 1] calls; [infer_dict_schema] and
    [infer_list_schema] return on items and elements nested to the
    depth [D] at most, which make a value one deeper, with room for one
    call more. *)
Definition returns_to_depth (set_iter : list string -> list string)
  (D : nat) : Prop :=
  (forall v, vdepth v <= D ->
     exists s, forall fuel, 2 * D + 1 <= fuel ->
                            infer_schema set_iter fuel v = Ok s)
  /\ (forall data, ddepth data <= D ->
        exists s, forall fuel, 2 * D + 2 <= fuel ->
                               infer_dict_schema set_iter fuel data = Ok s)
  /\ (forall lst, ldepth lst <= D ->
        exists s, forall fuel, 2 * D + 2 <= fuel ->
                               infer_list_schema set_iter fuel lst = Ok s).

(** [n] objects, each the only value of the one before:
    [{"a": {"a": ... {"a": 1}}}]. *)
Fixpoint nested_objects (n : nat) : pyval :=
  match n with
  | O => PInt 1
  | S n' => PDict [("a", nested_objects n')]
  end.

(** * Properties *)

(** ** Dictionaries *)

Lemma dict_get_set_eq {V : Type} (key : string) (value : V) (d : dict V) :
  dict_get key (dict_set key value d) = Some value.
Proof.
  induction d as [|[k v] d IH]; simpl.
  - now rewrite String.eqb_refl.
  - destruct (String.eqb key k) eqn:E; simpl; rewrite E; auto.
Qed.

Lemma dict_get_set_ne {V : Type} (key key' : string) (value : V) (d : dict V) :
  key <> key' -> dict_get key (dict_set key' value d) = dict_get key d.
Proof.
  intros Hne. induction d as [|[k v] d IH]; simpl.
  - apply String.eqb_neq in Hne. now rewrite Hne.
  - destruct (String.eqb key' k) eqn:E; simpl.
    + apply String.eqb_eq in E. subst k.
      apply String.eqb_neq in Hne. now rewrite Hne.
    + now rewrite IH.
Qed.

Lemma dict_keys_set {V : Type} (key key' : string) (value : V) (d : dict V) :
  In key (dict_keys (dict_set key' value d)) <-> key = key' \/ In key (dict_keys d).
Proof.
  unfold dict_keys. induction d as [|[k v] d IH]; simpl.
  - intuition.
  - destruct (String.eqb key' k) eqn:E; simpl.
    + apply String.eqb_eq in E. subst k. intuition.
    + rewrite IH. intuition.
Qed.

Lemma dict_get_keys {V : Type} (key : string) (d : dict V) :
  In key (dict_keys d) <-> exists v, dict_get key d = Some v.
Proof.
  unfold dict_keys. induction d as [|[k v] d IH]; simpl.
  - split; [tauto | intros [v H]; discriminate].
  - destruct (String.eqb_spec key k) as [->|Hne].
    + split; eauto.
    + rewrite <- IH. split; [intros [H|H]; congruence || auto | auto].
Qed.

Lemma dict_set_NoDup {V : Type} (key : string) (value : V) (d : dict V) :
  NoDup (dict_keys d) -> NoDup (dict_keys (dict_set key value d)).
Proof.
  unfold dict_keys. induction d as [|[k v] d IH]; simpl; intros Hnd.
  - constructor; [simpl; tauto | constructor].
  - inversion Hnd as [|? ? Hnotin Hnd']; subst.
    destruct (String.eqb_spec key k) as [->|Hne]; simpl.
    + now constructor.
    + constructor; [|auto].
      intros Hin. apply (dict_keys_set k key value d) in Hin.
      destruct Hin as [->|Hin]; [congruence | auto].
Qed.

(** ** The result monad and loops *)

Lemma bind_Ok {A B : Type} (r : result A) (f : A -> result B) (b : B) :
  bind r f = Ok b -> exists a, r = Ok a /\ f a = Ok b.
Proof. destruct r; simpl; intros H; try discriminate. eauto. Qed.

Lemma foldM_app {A B : Type} (f : A -> B -> result A) (l1 l2 : list B) (a : A) :
  foldM f (l1 ++ l2) a = (a' <- foldM f l1 a ;; foldM f l2 a').
Proof.
  revert a. induction l1 as [|b l1 IH]; intros a; simpl; [reflexivity|].
  destruct (f a b); simpl; auto.
Qed.

(** An invariant of a loop holds when the loop ends. *)
Lemma foldM_invariant {A B : Type} (P : A -> Prop) (f : A -> B -> result A)
  (l : list B) (a r : A) :
  P a ->
  (forall a b a', In b l -> P a -> f a b = Ok a' -> P a') ->
  foldM f l a = Ok r -> P r.
Proof.
  revert a. induction l as [|b l IH]; intros a Ha Hstep Hr; simpl in Hr.
  - now inversion Hr; subst.
  - apply bind_Ok in Hr. destruct Hr as (a' & Hf & Hr).
    apply (IH a'); auto.
    + apply (Hstep a b); simpl; auto.
    + intros; eapply Hstep; eauto. simpl; auto.
Qed.

(** ** One step of [merge_nested_dicts] *)

Lemma merge_entry_absent rec merged key value :
  dict_get key merged = None ->
  merge_entry rec merged key value = Ok (dict_set key value merged).
Proof. unfold merge_entry. now intros ->. Qed.

(** Both lists: the new elements go after the existing ones. *)
Lemma merge_entry_lists rec merged key xs ys :
  dict_get key merged = Some (PList xs) ->
  merge_entry rec merged key (PList ys)
  = Ok (dict_set key (PList (xs ++ ys)) merged).
Proof. unfold merge_entry. now intros ->. Qed.

(** One list and one value that is not a list: an instance of
    [MixedType]. *)
Lemma merge_entry_mismatch rec merged key existing value :
  dict_get key merged = Some existing ->
  isinstance_list existing <> isinstance_list value ->
  merge_entry rec merged key value = Ok (dict_set key PMixedType merged).
Proof.
  unfold merge_entry. intros -> Hne.
  destruct existing, value; simpl in *; congruence.
Qed.

(** No branch of lines 38 to 43 applies: nothing is stored. *)
Lemma merge_entry_keeps rec merged key existing value :
  dict_get key merged = Some existing ->
  isinstance_dict existing && isinstance_dict value = false ->
  isinstance_list existing = false ->
  isinstance_list value = false ->
  merge_entry rec merged key value = Ok merged.
Proof.
  unfold merge_entry. intros -> Hd Hl1 Hl2.
  now rewrite Hd, Hl1, Hl2.
Qed.

(** A step on [key] leaves the other keys alone. *)
Lemma merge_entry_other rec merged key value merged' k :
  merge_entry rec merged key value = Ok merged' ->
  k <> key -> dict_get k merged' = dict_get k merged.
Proof.
  unfold merge_entry. intros H Hne.
  destruct (dict_get key merged) as [existing|].
  - destruct (isinstance_dict existing && isinstance_dict value).
    { apply bind_Ok in H. destruct H as (m & _ & H).
      inversion H; subst. now apply dict_get_set_ne. }
    destruct (isinstance_list existing && isinstance_list value).
    { inversion H; subst. now apply dict_get_set_ne. }
    destruct (negb _); inversion H; subst; auto using dict_get_set_ne.
  - inversion H; subst. now apply dict_get_set_ne.
Qed.

(** A step adds its key and no other. *)
Lemma merge_entry_keys rec merged key value merged' k :
  merge_entry rec merged key value = Ok merged' ->
  In k (dict_keys merged') <-> k = key \/ In k (dict_keys merged).
Proof.
  unfold merge_entry. intros H.
  destruct (dict_get key merged) as [existing|] eqn:Hget.
  - assert (Hin : In key (dict_keys merged)) by (apply dict_get_keys; eauto).
    assert (Hset : forall v, In k (dict_keys (dict_set key v merged))
                             <-> k = key \/ In k (dict_keys merged))
      by (intros; apply dict_keys_set).
    destruct (isinstance_dict existing && isinstance_dict value).
    { apply bind_Ok in H. destruct H as (m & _ & H).
      inversion H; subst. apply Hset. }
    destruct (isinstance_list existing && isinstance_list value).
    { inversion H; subst. apply Hset. }
    destruct (negb _); inversion H; subst; [apply Hset|].
    split; [auto | intros [->|]; auto].
  - inversion H; subst. apply dict_keys_set.
Qed.

Lemma merge_entry_NoDup rec merged key value merged' :
  merge_entry rec merged key value = Ok merged' ->
  NoDup (dict_keys merged) -> NoDup (dict_keys merged').
Proof.
  unfold merge_entry. intros H Hnd.
  destruct (dict_get key merged) as [existing|].
  - destruct (isinstance_dict existing && isinstance_dict value).
    { apply bind_Ok in H. destruct H as (m & _ & H).
      inversion H; subst. now apply dict_set_NoDup. }
    destruct (isinstance_list existing && isinstance_list value).
    { inversion H; subst. now apply dict_set_NoDup. }
    destruct (negb _); inversion H; subst; auto using dict_set_NoDup.
  - inversion H; subst. now apply dict_set_NoDup.
Qed.

(** Once [MixedType], always [MixedType]. *)
Lemma merge_entry_mixed_stays rec merged key value merged' k :
  dict_get k merged = Some PMixedType ->
  merge_entry rec merged key value = Ok merged' ->
  dict_get k merged' = Some PMixedType.
Proof.
  intros Hk H. destruct (String.eqb_spec k key) as [->|Hne].
  - unfold merge_entry in H. rewrite Hk in H. simpl in H.
    destruct (isinstance_list value); simpl in H; inversion H; subst; auto.
    apply dict_get_set_eq.
  - erewrite merge_entry_other; eauto.
Qed.

(** ** Fuel *)

(** More fuel does not change a result. *)
Lemma foldM_mono {A B : Type} (f g : A -> B -> result A) (l : list B) :
  (forall a b a', In b l -> f a b = Ok a' -> g a b = Ok a') ->
  forall a r, foldM f l a = Ok r -> foldM g l a = Ok r.
Proof.
  induction l as [|b l IH]; intros Hfg a r H; simpl in *; auto.
  apply bind_Ok in H. destruct H as (a' & Hf & H).
  rewrite (Hfg a b a'); simpl; auto.
Qed.

Lemma merge_entry_mono (rec rec' : list pyval -> result (dict pyval)) :
  (forall l m, rec l = Ok m -> rec' l = Ok m) ->
  forall merged key value m,
    merge_entry rec merged key value = Ok m ->
    merge_entry rec' merged key value = Ok m.
Proof.
  intros Hrec merged key value m. unfold merge_entry.
  destruct (dict_get key merged) as [existing|]; auto.
  destruct (isinstance_dict existing && isinstance_dict value); auto.
  intros H. apply bind_Ok in H. destruct H as (m' & Hr & H).
  now rewrite (Hrec _ _ Hr).
Qed.

Lemma merge_dict_mono (rec rec' : list pyval -> result (dict pyval)) :
  (forall l m, rec l = Ok m -> rec' l = Ok m) ->
  forall merged d m,
    merge_dict rec merged d = Ok m -> merge_dict rec' merged d = Ok m.
Proof.
  intros Hrec merged d m. unfold merge_dict.
  destruct (dict_items d) as [items| |]; simpl; try discriminate.
  apply foldM_mono. intros a b a' _. now apply merge_entry_mono.
Qed.

Lemma merge_nested_dicts_mono (fuel fuel' : nat) (dict_list : list pyval) m :
  fuel <= fuel' ->
  merge_nested_dicts fuel dict_list = Ok m ->
  merge_nested_dicts fuel' dict_list = Ok m.
Proof.
  revert fuel' dict_list m.
  induction fuel as [|fuel IH]; intros fuel' dict_list m Hle H;
    [discriminate|].
  destruct fuel' as [|fuel']; [lia|]. simpl in *.
  revert H. apply foldM_mono. intros a b a' _.
  apply merge_dict_mono. intros l m'. apply IH. lia.
Qed.

(** ** Sizes, and the end of [merge_nested_dicts] *)

Lemma vsize_pos (v : pyval) : 1 <= vsize v.
Proof. destruct v; simpl; lia. Qed.

Lemma lsize_app (xs ys : list pyval) : lsize (xs ++ ys) = lsize xs + lsize ys.
Proof. unfold lsize. now rewrite map_app, list_sum_app. Qed.

Lemma vsize_PDict (items : dict pyval) : vsize (PDict items) = S (dsize items).
Proof. reflexivity. Qed.

Lemma vsize_PList (xs : list pyval) : vsize (PList xs) = S (lsize xs).
Proof. reflexivity. Qed.

Lemma dsize_set_absent key value (d : dict pyval) :
  dict_get key d = None -> dsize (dict_set key value d) = dsize d + vsize value.
Proof.
  unfold dsize. induction d as [|[k v] d IH]; simpl; intros H; [lia|].
  destruct (String.eqb key k); [discriminate|]. simpl. rewrite IH; auto. lia.
Qed.

Lemma dsize_set_present key value existing (d : dict pyval) :
  dict_get key d = Some existing ->
  dsize (dict_set key value d) + vsize existing = dsize d + vsize value.
Proof.
  unfold dsize. induction d as [|[k v] d IH]; simpl; intros H; [discriminate|].
  destruct (String.eqb key k); simpl.
  - inversion H; subst. lia.
  - specialize (IH H). lia.
Qed.

Lemma dict_get_dsize key existing (d : dict pyval) :
  dict_get key d = Some existing -> vsize existing <= dsize d.
Proof.
  unfold dsize. induction d as [|[k v] d IH]; simpl; intros H; [discriminate|].
  destruct (String.eqb key k).
  - inversion H; subst. lia.
  - specialize (IH H). lia.
Qed.

Section MergeTotal.

Variable rec : list pyval -> result (dict pyval).
Variable n : nat.
Hypothesis rec_total :
  forall l, all_dicts l -> lsize l < n ->
            exists m, rec l = Ok m /\ dsize m + length l <= lsize l.

Lemma merge_entry_total merged key value :
  dsize merged + vsize value < n ->
  exists merged',
    merge_entry rec merged key value = Ok merged'
    /\ dsize merged' <= dsize merged + vsize value.
Proof.
  intros Hn. unfold merge_entry.
  destruct (dict_get key merged) as [existing|] eqn:Hget.
  - pose proof (dsize_set_present key) as Hset.
    pose proof (vsize_pos existing) as Hpos.
    pose proof (dict_get_dsize _ _ _ Hget) as Hex.
    destruct (isinstance_dict existing && isinstance_dict value) eqn:Hdd.
    { apply andb_prop in Hdd. destruct Hdd as [Hd1 Hd2].
      destruct (rec_total [existing; value]) as (m & Hm & Hsize).
      - repeat constructor; auto.
      - unfold lsize; simpl. lia.
      - rewrite Hm. simpl. eexists; split; [reflexivity|].
        specialize (Hset (PDict m) _ _ Hget).
        unfold lsize in Hsize; simpl in Hsize. rewrite vsize_PDict in Hset. lia. }
    destruct (isinstance_list existing && isinstance_list value) eqn:Hll.
    { eexists; split; [reflexivity|].
      destruct existing; try discriminate. destruct value; try discriminate.
      simpl list_extend.
      specialize (Hset (PList (xs ++ xs0)) _ _ Hget).
      rewrite !vsize_PList in *. rewrite lsize_app in Hset. lia. }
    destruct (negb _).
    + eexists; split; [reflexivity|].
      specialize (Hset PMixedType _ _ Hget). simpl in Hset. lia.
    + eexists; split; [reflexivity|]. lia.
  - eexists; split; [reflexivity|]. rewrite dsize_set_absent; auto.
Qed.

Lemma merge_items_total items : forall merged,
  dsize merged + dsize items < n ->
  exists merged',
    foldM (fun merged kv => merge_entry rec merged (fst kv) (snd kv))
      items merged = Ok merged'
    /\ dsize merged' <= dsize merged + dsize items.
Proof.
  induction items as [|[k v] items IH]; intros merged Hn; simpl.
  - eexists; split; [reflexivity|]. unfold dsize; simpl; lia.
  - assert (Hd : dsize ((k, v) :: items) = vsize v + dsize items)
      by reflexivity.
    pose proof (vsize_pos v).
    destruct (merge_entry_total merged k v) as (m1 & Hm1 & Hs1); [lia|].
    rewrite Hm1. simpl.
    destruct (IH m1) as (m2 & Hm2 & Hs2); [lia|].
    exists m2. split; [assumption | lia].
Qed.

Lemma merge_dicts_total lst : forall merged,
  all_dicts lst ->
  dsize merged + lsize lst <= n ->
  exists merged',
    foldM (merge_dict rec) lst merged = Ok merged'
    /\ dsize merged' + length lst <= dsize merged + lsize lst.
Proof.
  induction lst as [|d lst IH]; intros merged Hall Hn; simpl.
  - eexists; split; [reflexivity | lia].
  - inversion Hall as [|? ? Hd Hall']; subst.
    destruct d; try discriminate.
    assert (Hl : lsize (PDict items :: lst) = S (dsize items) + lsize lst)
      by reflexivity.
    unfold merge_dict at 1. simpl dict_items. simpl bind at 2.
    destruct (merge_items_total items merged) as (m1 & Hm1 & Hs1); [lia|].
    rewrite Hm1. simpl.
    destruct (IH m1 Hall') as (m2 & Hm2 & Hs2); [lia|].
    exists m2. split; [assumption | lia].
Qed.

End MergeTotal.

(** [merge_nested_dicts] returns on every list of dictionaries, and what
    it returns is no larger than what it was given. *)
Lemma merge_nested_dicts_total (fuel : nat) : forall lst,
  all_dicts lst -> lsize lst < fuel ->
  exists m, merge_nested_dicts fuel lst = Ok m
            /\ dsize m + length lst <= lsize lst.
Proof.
  induction fuel as [|fuel IH]; intros lst Hall Hn; [lia|].
  assert (H0 : dsize [] + lsize lst <= fuel) by (unfold dsize; simpl; lia).
  simpl.
  destruct (merge_dicts_total (merge_nested_dicts fuel) fuel IH lst [] Hall H0)
    as (m & Hm & Hs).
  exists m. split; [assumption | exact Hs].
Qed.

(** ** The keys of a merge *)

Lemma merge_items_keys rec items : forall merged m,
  foldM (fun merged kv => merge_entry rec merged (fst kv) (snd kv))
    items merged = Ok m ->
  forall k, In k (dict_keys m) <-> In k (dict_keys merged) \/ In k (dict_keys items).
Proof.
  induction items as [|[key v] items IH]; intros merged m H k; simpl in H.
  - inversion H; subst. simpl. tauto.
  - apply bind_Ok in H. destruct H as (m1 & H1 & H). simpl in H1.
    rewrite (IH _ _ H k), (merge_entry_keys _ _ _ _ _ k H1).
    unfold dict_keys. simpl. intuition (subst; auto).
Qed.

Lemma merge_dicts_keys rec lst : forall merged m,
  foldM (merge_dict rec) lst merged = Ok m ->
  forall k, In k (dict_keys m)
            <-> In k (dict_keys merged)
                \/ exists items, In (PDict items) lst /\ In k (dict_keys items).
Proof.
  induction lst as [|d lst IH]; intros merged m H k; simpl in H.
  - inversion H; subst. split; [auto | intros [?|(? & [] & _)]; auto].
  - apply bind_Ok in H. destruct H as (m1 & H1 & H).
    unfold merge_dict in H1. destruct d; try discriminate. simpl in H1.
    rewrite (IH _ _ H k), (merge_items_keys _ _ _ _ H1 k). split.
    + intros [[Hk|Hk]|(it & Hin & Hk)]; auto.
      * right. exists items. simpl; auto.
      * right. exists it. simpl; auto.
    + intros [Hk|(it & [Heq|Hin] & Hk)]; auto.
      * inversion Heq; subst. auto.
      * right. eauto.
Qed.

Lemma merge_nested_dicts_keys fuel lst m :
  merge_nested_dicts fuel lst = Ok m ->
  forall k, In k (dict_keys m)
            <-> exists items, In (PDict items) lst /\ In k (dict_keys items).
Proof.
  destruct fuel as [|fuel]; [discriminate|]. simpl. intros H k.
  rewrite (merge_dicts_keys _ _ _ _ H k). simpl. tauto.
Qed.

Lemma merge_nested_dicts_NoDup fuel lst m :
  merge_nested_dicts fuel lst = Ok m -> NoDup (dict_keys m).
Proof.
  destruct fuel as [|fuel]; [discriminate|]. simpl.
  apply (foldM_invariant (fun m => NoDup (dict_keys m))); [constructor|].
  intros a d a' _ Ha. unfold merge_dict.
  destruct (dict_items d) as [items| |]; simpl; try discriminate.
  apply (foldM_invariant (fun m => NoDup (dict_keys m))); auto.
  intros b kv b' _ Hb Hstep. eapply merge_entry_NoDup; eauto.
Qed.

(** ** [MixedType] stays, the first scalar stays *)

Lemma merge_dicts_mixed_stays rec lst merged m k :
  dict_get k merged = Some PMixedType ->
  foldM (merge_dict rec) lst merged = Ok m ->
  dict_get k m = Some PMixedType.
Proof.
  intros Hk.
  apply (foldM_invariant (fun m => dict_get k m = Some PMixedType)); auto.
  intros a d a' _ Ha. unfold merge_dict.
  destruct (dict_items d) as [items| |]; simpl; try discriminate.
  apply (foldM_invariant (fun m => dict_get k m = Some PMixedType)); auto.
  intros b kv b' _ Hb Hstep. eapply merge_entry_mixed_stays; eauto.
Qed.

Lemma merge_entry_first_stays rec merged key value merged' k v0 :
  dict_get k merged = Some v0 -> scalar_like v0 ->
  (key = k -> no_list value) ->
  merge_entry rec merged key value = Ok merged' ->
  dict_get k merged' = Some v0.
Proof.
  intros Hk [Hd Hl] Hv H. destruct (String.eqb_spec key k) as [->|Hne].
  - assert (Hkeep : merge_entry rec merged k value = Ok merged).
    { apply (merge_entry_keeps rec merged k v0 value); auto.
      - now rewrite Hd.
      - now apply Hv. }
    rewrite Hkeep in H. now inversion H; subst.
  - erewrite merge_entry_other; eauto.
Qed.

Lemma merge_items_first_stays rec k v0 items : forall merged m,
  dict_get k merged = Some v0 -> scalar_like v0 ->
  Forall no_list (values_at k (PDict items)) ->
  foldM (fun merged kv => merge_entry rec merged (fst kv) (snd kv))
    items merged = Ok m ->
  dict_get k m = Some v0.
Proof.
  induction items as [|[key v] items IH]; intros merged m Hk Hs Hall H;
    simpl in H.
  - now inversion H; subst.
  - apply bind_Ok in H. destruct H as (m1 & H1 & H). simpl in H1, Hall.
    destruct (String.eqb_spec k key) as [->|Hne].
    + simpl in Hall. inversion Hall; subst.
      apply (IH m1 m); auto.
      eapply merge_entry_first_stays; eauto.
    + apply (IH m1 m); auto.
      eapply merge_entry_first_stays; eauto. congruence.
Qed.

Lemma merge_dicts_first_stays rec k v0 lst : forall merged m,
  dict_get k merged = Some v0 -> scalar_like v0 ->
  Forall no_list (observed k lst) ->
  foldM (merge_dict rec) lst merged = Ok m ->
  dict_get k m = Some v0.
Proof.
  induction lst as [|d lst IH]; intros merged m Hk Hs Hall H; simpl in H.
  - now inversion H; subst.
  - apply bind_Ok in H. destruct H as (m1 & H1 & H).
    unfold observed in Hall. simpl in Hall. apply Forall_app in Hall.
    destruct Hall as [Hd Hall].
    unfold merge_dict in H1. destruct d; try discriminate. simpl in H1.
    apply (IH m1 m); auto.
    eapply merge_items_first_stays; eauto.
Qed.

Lemma merge_items_first rec k v0 rest items : forall merged m,
  dict_get k merged = None ->
  values_at k (PDict items) = v0 :: rest ->
  scalar_like v0 -> Forall no_list rest ->
  foldM (fun merged kv => merge_entry rec merged (fst kv) (snd kv))
    items merged = Ok m ->
  dict_get k m = Some v0.
Proof.
  induction items as [|[key v] items IH]; intros merged m Hk Hobs Hs Hall H;
    simpl in H, Hobs; [discriminate|].
  apply bind_Ok in H. destruct H as (m1 & H1 & H). simpl in H1.
  destruct (String.eqb_spec k key) as [->|Hne].
  - simpl in Hobs. inversion Hobs; subst.
    rewrite merge_entry_absent in H1; auto. inversion H1; subst.
    eapply merge_items_first_stays; eauto using dict_get_set_eq.
  - apply (IH m1 m); auto.
    erewrite merge_entry_other; eauto.
Qed.

Lemma merge_items_none rec k items : forall merged m,
  dict_get k merged = None ->
  values_at k (PDict items) = [] ->
  foldM (fun merged kv => merge_entry rec merged (fst kv) (snd kv))
    items merged = Ok m ->
  dict_get k m = None.
Proof.
  induction items as [|[key v] items IH]; intros merged m Hk Hobs H;
    simpl in H, Hobs.
  - now inversion H; subst.
  - apply bind_Ok in H. destruct H as (m1 & H1 & H). simpl in H1.
    destruct (String.eqb_spec k key) as [->|Hne]; [discriminate|].
    apply (IH m1 m); auto.
    erewrite merge_entry_other; eauto.
Qed.

Lemma merge_dicts_first rec k v0 rest lst : forall merged m,
  dict_get k merged = None ->
  observed k lst = v0 :: rest ->
  scalar_like v0 -> Forall no_list rest ->
  foldM (merge_dict rec) lst merged = Ok m ->
  dict_get k m = Some v0.
Proof.
  induction lst as [|d lst IH]; intros merged m Hk Hobs Hs Hall H;
    simpl in H; [discriminate|].
  apply bind_Ok in H. destruct H as (m1 & H1 & H).
  unfold observed in Hobs. simpl in Hobs.
  unfold merge_dict in H1. destruct d; try discriminate. simpl dict_items in H1.
  simpl bind in H1.
  destruct (values_at k (PDict items)) as [|w ws] eqn:Hv.
  - simpl in Hobs. apply (IH m1 m); auto.
    eapply merge_items_none; eauto.
  - simpl in Hobs. inversion Hobs; subst.
    apply Forall_app in Hall. destruct Hall as [Hws Hall].
    eapply merge_dicts_first_stays; eauto.
    eapply merge_items_first; eauto.
Qed.

(** ** The type names of a list *)

Lemma nodup_constant (t : string) (l : list string) :
  l <> [] -> Forall (eq t) l -> nodup String.string_dec l = [t].
Proof.
  induction l as [|a l IH]; intros Hne Hall; [congruence|].
  inversion Hall as [|? ? Ha Hall']; subst a. simpl.
  destruct l as [|b l].
  - simpl. reflexivity.
  - destruct (in_dec String.string_dec t (b :: l)) as [_|Hnotin].
    + apply IH; [discriminate | assumption].
    + inversion Hall'; subst. exfalso. apply Hnotin. simpl; auto.
Qed.

Lemma two_members_length {A : Type} (a b : A) (l : list A) :
  In a l -> In b l -> a <> b -> 1 < length l.
Proof.
  destruct l as [|x [|y l]]; simpl; try tauto; try lia.
  intros [->|[]] [->|[]]. congruence.
Qed.

Lemma chain_from_iterable_lists (inner : list (list pyval)) : forall acc,
  foldM (fun acc x => xs <- iterate x ;; Ok (acc ++ xs)) (map PList inner) acc
  = Ok (acc ++ concat inner).
Proof.
  induction inner as [|xs inner IH]; intros acc; simpl.
  - now rewrite app_nil_r.
  - rewrite IH. now rewrite app_assoc.
Qed.

Lemma chain_from_iterable_concat (inner : list (list pyval)) :
  chain_from_iterable (map PList inner) = Ok (concat inner).
Proof. unfold chain_from_iterable. now rewrite chain_from_iterable_lists. Qed.

(** A list all of whose elements have the type name ["list"] is a list
    of lists. *)
Lemma all_lists_inner (lst : list pyval) :
  Forall (fun x => type_name x = "list") lst ->
  exists inner, lst = map PList inner.
Proof.
  induction lst as [|x lst IH]; intros Hall.
  - now exists [].
  - inversion Hall as [|? ? Hx Hall']; subst.
    destruct (IH Hall') as (inner & ->).
    destruct x; try discriminate. now exists (xs :: inner).
Qed.

Lemma all_dicts_type_name (lst : list pyval) :
  Forall (fun x => type_name x = "dict") lst -> all_dicts lst.
Proof.
  apply Forall_impl. intros x H. destruct x; try discriminate; reflexivity.
Qed.

Lemma lsize_concat (inner : list (list pyval)) :
  lsize (concat inner) + length inner = lsize (map PList inner).
Proof.
  induction inner as [|xs inner IH]; simpl; [reflexivity|].
  rewrite lsize_app. unfold lsize in *. simpl. lia.
Qed.

Lemma type_names_dec (t : string) (lst : list pyval) :
  Forall (fun x => type_name x = t) lst
  \/ exists x, In x lst /\ type_name x <> t.
Proof.
  induction lst as [|y lst [IH|(x & Hin & Hne)]].
  - left. constructor.
  - destruct (String.string_dec (type_name y) t) as [Heq|Hne].
    + left. now constructor.
    + right. exists y. simpl; auto.
  - right. exists x. simpl; auto.
Qed.

Section InferenceFacts.

Variable set_iter : list string -> list string.

(** Whatever the order, a set yields each of its elements once. *)
Hypothesis set_iter_perm :
  forall names, Permutation (set_iter names) (nodup String.string_dec names).

Lemma set_iter_In (names : list string) (t : string) :
  In t (set_iter names) <-> In t names.
Proof.
  split; intros H.
  - apply (nodup_In String.string_dec).
    eapply Permutation_in; [apply set_iter_perm | exact H].
  - eapply Permutation_in; [symmetry; apply set_iter_perm|].
    now apply (nodup_In String.string_dec).
Qed.

Lemma set_iter_constant (t : string) (names : list string) :
  names <> [] -> Forall (eq t) names -> set_iter names = [t].
Proof.
  intros Hne Hall. apply Permutation_length_1_inv.
  rewrite <- (nodup_constant t names Hne Hall). symmetry. apply set_iter_perm.
Qed.

Lemma set_iter_several (a b : string) (names : list string) :
  In a names -> In b names -> a <> b -> 1 < length (set_iter names).
Proof.
  intros Ha Hb Hne. apply (two_members_length a b); auto;
    now apply set_iter_In.
Qed.

Lemma extract_unique_types_constant (t : string) (lst : list pyval) :
  lst <> [] -> Forall (fun x => type_name x = t) lst ->
  extract_unique_types set_iter lst = [t].
Proof.
  intros Hne Hall. unfold extract_unique_types. apply set_iter_constant.
  - destruct lst; [congruence | discriminate].
  - apply Forall_map. revert Hall. apply Forall_impl. auto.
Qed.

(** Lines 56 and 57: two type names or more, and they are returned. *)
Lemma infer_list_schema_several (fuel : nat) (lst : list pyval) (x y : pyval) :
  In x lst -> In y lst -> type_name x <> type_name y ->
  infer_list_schema set_iter (S fuel) lst
  = Ok (SList (map SKind (extract_unique_types set_iter lst))).
Proof.
  intros Hx Hy Hne.
  assert (Hlen : 1 < length (extract_unique_types set_iter lst)).
  { apply (set_iter_several (type_name x) (type_name y)); auto;
      now apply in_map. }
  simpl. destruct lst as [|z lst]; [contradiction|].
  apply Nat.ltb_lt in Hlen. now rewrite Hlen.
Qed.

(** Lines 58 to 62: one type name. *)
Lemma infer_list_schema_one (fuel : nat) (lst : list pyval) (t : string) :
  lst <> [] -> Forall (fun x => type_name x = t) lst ->
  infer_list_schema set_iter (S fuel) lst
  = if String.eqb t "dict" then
      merged <- merge_nested_dicts fuel lst ;;
      s <- infer_dict_schema set_iter fuel merged ;;
      Ok (SList [s])
    else if String.eqb t "list" then
      flat <- chain_from_iterable lst ;;
      s <- infer_list_schema set_iter fuel flat ;;
      Ok (SList [s])
    else Ok (SList [SKind t]).
Proof.
  intros Hne Hall. simpl. destruct lst as [|z lst]; [congruence|].
  rewrite (extract_unique_types_constant t); auto.
Qed.

(** *** [infer_schema] returns *)

Lemma infer_fields_total (n : nat) :
  (forall v, vsize v <= n ->
             exists s, forall fuel, 2 * n <= fuel ->
                                    infer_schema set_iter fuel v = Ok s) ->
  forall data acc, dsize data <= n ->
    exists fields, forall fuel, 2 * n <= fuel ->
      foldM (fun acc kv =>
               s <- infer_schema set_iter fuel (snd kv) ;;
               Ok (dict_set (fst kv) s acc)) data acc = Ok fields.
Proof.
  intros HV. induction data as [|[k v] data IH]; intros acc Hn.
  - exists acc. reflexivity.
  - assert (Hd : dsize ((k, v) :: data) = vsize v + dsize data)
      by reflexivity.
    destruct (HV v) as (s & Hs); [lia|].
    destruct (IH (dict_set k s acc)) as (fields & Hf); [lia|].
    exists fields. intros fuel Hfuel. simpl.
    rewrite (Hs fuel Hfuel). simpl. now apply Hf.
Qed.

Lemma dict_returns_step (n : nat) : value_returns set_iter n -> dict_returns set_iter (S n).
Proof.
  intros HV data Hn.
  destruct (infer_fields_total n HV data []) as (fields & Hf); [lia|].
  exists (SDict fields). intros fuel Hfuel.
  destruct fuel as [|fuel]; [lia|]. simpl.
  rewrite Hf; [reflexivity | lia].
Qed.

Lemma list_returns_step (n : nat) :
  dict_returns set_iter n -> list_returns set_iter n -> list_returns set_iter (S n).
Proof.
  intros HD HL lst Hn.
  destruct lst as [|z lst'] eqn:Hlst.
  { exists (SList []). intros fuel Hfuel.
    destruct fuel as [|fuel]; [lia | reflexivity]. }
  rewrite <- Hlst in *.
  assert (Hne : lst <> []) by (subst; discriminate).
  assert (Hlen : 1 <= length lst) by (subst; simpl; lia).
  destruct (type_names_dec (type_name z) lst) as [Hall|(x & Hx & Hxz)].
  - (* one type name *)
    destruct (String.eqb (type_name z) "dict") eqn:Edict.
    { apply String.eqb_eq in Edict. rewrite Edict in Hall.
      pose proof (all_dicts_type_name lst Hall) as Hdicts.
      destruct (merge_nested_dicts_total (S (lsize lst)) lst Hdicts)
        as (m & Hm & Hsize); [lia|].
      destruct (HD m) as (s & Hs); [lia|].
      exists (SList [s]). intros fuel Hfuel.
      destruct fuel as [|fuel]; [lia|].
      assert (Hm' : merge_nested_dicts fuel lst = Ok m)
        by (apply (merge_nested_dicts_mono (S (lsize lst))); [lia | exact Hm]).
      rewrite (infer_list_schema_one fuel lst "dict"); auto.
      rewrite String.eqb_refl, Hm'. simpl bind.
      rewrite Hs; [reflexivity | lia]. }
    destruct (String.eqb (type_name z) "list") eqn:Elist.
    { apply String.eqb_eq in Elist. rewrite Elist in Hall.
      destruct (all_lists_inner lst Hall) as (inner & Hinner).
      pose proof (lsize_concat inner) as Hsize.
      rewrite <- Hinner in Hsize.
      assert (Hleni : length inner = length lst)
        by (rewrite Hinner; now rewrite length_map).
      destruct (HL (concat inner)) as (s & Hs); [lia|].
      exists (SList [s]). intros fuel Hfuel.
      destruct fuel as [|fuel]; [lia|].
      rewrite (infer_list_schema_one fuel lst "list"); auto.
      change (String.eqb "list" "dict") with false.
      rewrite String.eqb_refl, Hinner, chain_from_iterable_concat.
      simpl bind. rewrite Hs; [reflexivity | lia]. }
    exists (SList [SKind (type_name z)]). intros fuel Hfuel.
    destruct fuel as [|fuel]; [lia|].
    rewrite (infer_list_schema_one fuel lst (type_name z)); auto.
    now rewrite Edict, Elist.
  - (* several type names *)
    exists (SList (map SKind (extract_unique_types set_iter lst))).
    intros fuel Hfuel. destruct fuel as [|fuel]; [lia|].
    apply (infer_list_schema_several fuel lst x z); auto.
    subst lst. simpl; auto.
Qed.

Lemma value_returns_step (n : nat) :
  dict_returns set_iter n -> list_returns set_iter n -> value_returns set_iter n.
Proof.
  intros HD HL v Hn. destruct v.
  1-5, 8: (eexists; intros fuel Hfuel; pose proof (vsize_pos PNone);
           destruct fuel as [|fuel]; [simpl in *; lia | reflexivity]).
  - rewrite vsize_PList in Hn. destruct (HL xs) as (s & Hs); [lia|].
    exists s. intros fuel Hfuel. destruct fuel as [|fuel]; [lia|].
    simpl. apply Hs. lia.
  - rewrite vsize_PDict in Hn. destruct (HD items) as (s & Hs); [lia|].
    exists s. intros fuel Hfuel. destruct fuel as [|fuel]; [lia|].
    simpl. apply Hs. lia.
Qed.

Lemma all_return (n : nat) :
  dict_returns set_iter n /\ list_returns set_iter n /\ value_returns set_iter n.
Proof.
  induction n as [|n (HD & HL & HV)].
  - assert (HD : dict_returns set_iter 0) by (intros data H; lia).
    assert (HL : list_returns set_iter 0) by (intros lst H; lia).
    auto using value_returns_step.
  - pose proof (dict_returns_step n HV) as HD'.
    pose proof (list_returns_step n HD HL) as HL'.
    auto using value_returns_step.
Qed.

End InferenceFacts.

(** ** [merge_nested_dicts]: what it returns *)

Lemma merge_nested_dicts_returns (lst : list pyval) :
  all_dicts lst ->
  exists m, (forall fuel, lsize lst < fuel -> merge_nested_dicts fuel lst = Ok m)
            /\ dsize m + length lst <= lsize lst.
Proof.
  intros Hall.
  destruct (merge_nested_dicts_total (S (lsize lst)) lst Hall)
    as (m & Hm & Hsize); [lia|].
  exists m. split; [|assumption].
  intros fuel Hfuel.
  apply (merge_nested_dicts_mono (S (lsize lst))); [lia | assumption].
Qed.

(** C1, as the specification has it, fails: merging [{"a": 1}, {"a": "x"}]
    leaves [1] under ["a"], and with no amount of fuel does it leave
    ["x"] there. *)
Lemma merge_overwrite_counterexample :
  merge_nested_dicts 1 doc_scalar_conflict = Ok [("a", PInt 1)]
  /\ ~ (exists fuel m,
          merge_nested_dicts fuel doc_scalar_conflict = Ok m
          /\ dict_get "a" m = Some (PStr "x")).
Proof.
  split; [reflexivity|].
  intros (fuel & m & H & Hget).
  destruct fuel as [|fuel]; [discriminate|].
  cbn in H. inversion H; subst. discriminate.
Qed.

(** C1, amended: when a key is already in [merged] and the existing and
    the new value are neither two dictionaries, nor two lists, nor a list
    and a value that is not a list, the step stores nothing and the
    existing value stays.  So when the first value met under a key is
    neither a list nor a dictionary and no later one is a list,
    [merge_nested_dicts] returns, with the first value under that key. *)
Theorem merge_keeps_existing_value :
  (forall rec merged key existing value,
     dict_get key merged = Some existing ->
     isinstance_dict existing && isinstance_dict value = false ->
     isinstance_list existing = false ->
     isinstance_list value = false ->
     merge_entry rec merged key value = Ok merged)
  /\ (forall dict_list key v0 rest,
        all_dicts dict_list ->
        observed key dict_list = v0 :: rest ->
        scalar_like v0 ->
        Forall no_list rest ->
        exists m,
          (forall fuel, lsize dict_list < fuel ->
                        merge_nested_dicts fuel dict_list = Ok m)
          /\ dict_get key m = Some v0).
Proof.
  split; [exact merge_entry_keeps|].
  intros dict_list key v0 rest Hall Hobs Hs Hrest.
  destruct (merge_nested_dicts_returns dict_list Hall) as (m & Hm & _).
  exists m. split; [assumption|].
  specialize (Hm (S (lsize dict_list)) ltac:(lia)). simpl in Hm.
  apply (merge_dicts_first (merge_nested_dicts (lsize dict_list))
           key v0 rest dict_list [] m); auto.
Qed.

Lemma merge_keeps_existing_value_witness :
  exists m,
    merge_nested_dicts 5 doc_scalar_conflict = Ok m
    /\ dict_get "a" m = Some (PInt 1).
Proof.
  destruct (proj2 merge_keeps_existing_value
              doc_scalar_conflict "a" (PInt 1) [PStr "x"])
    as (m & Hm & Hget).
  - repeat constructor.
  - reflexivity.
  - split; reflexivity.
  - repeat constructor.
  - exists m. split; [apply Hm; vm_compute; lia | exact Hget].
Defined.

(** C8: a scalar gets the name of its Python type, [int] and [float]
    apart, and [None] gets [None]. *)
Theorem infer_schema_scalars :
  forall set_iter fuel,
    (forall b, infer_schema set_iter (S fuel) (PBool b) = Ok (SKind "bool"))
    /\ (forall z, infer_schema set_iter (S fuel) (PInt z) = Ok (SKind "int"))
    /\ (forall f, infer_schema set_iter (S fuel) (PFloat f) = Ok (SKind "float"))
    /\ (forall s, infer_schema set_iter (S fuel) (PStr s) = Ok (SKind "str"))
    /\ infer_schema set_iter (S fuel) PNone = Ok SNone
    /\ SKind "int" <> SKind "float".
Proof.
  intros set_iter fuel. repeat split; try reflexivity. discriminate.
Qed.

(** ** The keys of an inferred dictionary *)

Lemma infer_fields_keys set_iter fuel data : forall acc fields,
  foldM (fun acc kv =>
           s <- infer_schema set_iter fuel (snd kv) ;;
           Ok (dict_set (fst kv) s acc)) data acc = Ok fields ->
  (forall k, In k (dict_keys fields)
             <-> In k (dict_keys acc) \/ In k (dict_keys data))
  /\ (NoDup (dict_keys acc) -> NoDup (dict_keys fields)).
Proof.
  induction data as [|[key v] data IH]; intros acc fields H; simpl in H.
  - inversion H; subst. split; [|auto]. intros k. simpl. tauto.
  - apply bind_Ok in H. destruct H as (acc' & H1 & H).
    apply bind_Ok in H1. destruct H1 as (s & _ & H1). simpl in H1.
    inversion H1; subst acc'.
    destruct (IH _ _ H) as [Hkeys Hnd]. split.
    + intros k. rewrite Hkeys, dict_keys_set. unfold dict_keys. simpl.
      intuition (subst; auto).
    + intros Hacc. apply Hnd. now apply dict_set_NoDup.
Qed.

Lemma infer_dict_schema_keys set_iter fuel data s :
  infer_dict_schema set_iter fuel data = Ok s ->
  exists fields,
    s = SDict fields
    /\ NoDup (dict_keys fields)
    /\ forall k, In k (dict_keys fields) <-> In k (dict_keys data).
Proof.
  destruct fuel as [|fuel]; [discriminate|]. simpl. intros H.
  apply bind_Ok in H. destruct H as (fields & Hf & H).
  inversion H; subst. exists fields.
  destruct (infer_fields_keys _ _ _ _ _ Hf) as [Hkeys Hnd].
  split; [reflexivity|]. split.
  - apply Hnd. constructor.
  - intros k. rewrite Hkeys. simpl. tauto.
Qed.

Lemma all_dicts_names (lst : list pyval) :
  all_dicts lst -> Forall (fun x => type_name x = "dict") lst.
Proof.
  apply Forall_impl. intros x H. destruct x; try discriminate; reflexivity.
Qed.

(** A key that holds [MixedType] after a first part of the list holds it
    after the whole list. *)
Lemma merge_nested_dicts_mixed_persists (first rest : list pyval) fuel0 m1 key :
  all_dicts (first ++ rest) ->
  merge_nested_dicts fuel0 first = Ok m1 ->
  dict_get key m1 = Some PMixedType ->
  exists m,
    (forall fuel, lsize (first ++ rest) < fuel ->
                  merge_nested_dicts fuel (first ++ rest) = Ok m)
    /\ dict_get key m = Some PMixedType.
Proof.
  intros Hall H1 Hkey.
  destruct (merge_nested_dicts_returns _ Hall) as (m & Hm & _).
  exists m. split; [assumption|].
  pose (n := fuel0 + lsize (first ++ rest)).
  specialize (Hm (S n) ltac:(lia)).
  apply (merge_nested_dicts_mono _ (S n)) in H1; [|lia].
  simpl in Hm, H1. rewrite foldM_app, H1 in Hm. simpl in Hm.
  eapply merge_dicts_mixed_stays; eauto.
Qed.

(** ** The store and the trees *)

(** The objects of a value are objects of the store. *)
Lemma repr_bounds h :
  (forall v t F, repr h v t F -> forall l, l ∈ F -> l < length h)
  /\ (forall vs ts F, reprs h vs ts F -> forall l, l ∈ F -> l < length h)
  /\ (forall items titems F, reprd h items titems F ->
                             forall l, l ∈ F -> l < length h).
Proof.
  apply repr_mutind.
  1-6: intros; set_solver.
  - intros l vs ts F Hl _ IH _ l' Hin.
    apply elem_of_union in Hin. destruct Hin as [Hin|Hin]; auto.
    apply elem_of_singleton in Hin. subst. eapply lookup_lt_Some; eauto.
  - intros l items titems F Hl _ IH _ l' Hin.
    apply elem_of_union in Hin. destruct Hin as [Hin|Hin]; auto.
    apply elem_of_singleton in Hin. subst. eapply lookup_lt_Some; eauto.
  - intros; set_solver.
  - intros v t F vs ts G _ IH1 _ IH2 _ l Hin.
    apply elem_of_union in Hin. destruct Hin; auto.
  - intros; set_solver.
  - intros k v t F items titems G _ IH1 _ IH2 _ l Hin.
    apply elem_of_union in Hin. destruct Hin; auto.
Qed.

(** A value stands for the same tree in any store that has the same
    objects at its locations. *)
Lemma repr_frame h :
  (forall v t F, repr h v t F ->
     forall h', (forall l, l ∈ F -> h' !! l = h !! l) -> repr h' v t F)
  /\ (forall vs ts F, reprs h vs ts F ->
        forall h', (forall l, l ∈ F -> h' !! l = h !! l) -> reprs h' vs ts F)
  /\ (forall items titems F, reprd h items titems F ->
        forall h', (forall l, l ∈ F -> h' !! l = h !! l) ->
                   reprd h' items titems F).
Proof.
  apply repr_mutind.
  1-6: intros; constructor.
  - intros l vs ts F Hl _ IH Hnotin h' Hagree. apply (repr_list _ _ vs); auto.
    + rewrite Hagree; [assumption | set_solver].
    + apply IH. intros; apply Hagree; set_solver.
  - intros l items titems F Hl _ IH Hnotin h' Hagree. apply (repr_dict _ _ items); auto.
    + rewrite Hagree; [assumption | set_solver].
    + apply IH. intros; apply Hagree; set_solver.
  - intros; constructor.
  - intros v t F vs ts G _ IH1 _ IH2 Hdisj h' Hagree. constructor; auto.
    + apply IH1. intros; apply Hagree; set_solver.
    + apply IH2. intros; apply Hagree; set_solver.
  - intros; constructor.
  - intros k v t F items titems G _ IH1 _ IH2 Hdisj h' Hagree.
    constructor; auto.
    + apply IH1. intros; apply Hagree; set_solver.
    + apply IH2. intros; apply Hagree; set_solver.
Qed.

(** What is outside the part of the store that changed is still
    there. *)
Lemma repr_framed h h' C v t F :
  repr h v t F -> frame C h h' -> F ## C -> repr h' v t F.
Proof.
  intros Hr [_ Hfr] Hdisj. apply (proj1 (repr_frame h) v t F Hr).
  intros l Hl. apply Hfr; [|set_solver].
  eapply (proj1 (repr_bounds h)); eauto.
Qed.

Lemma reprs_framed h h' C vs ts F :
  reprs h vs ts F -> frame C h h' -> F ## C -> reprs h' vs ts F.
Proof.
  intros Hr [_ Hfr] Hdisj. apply (proj1 (proj2 (repr_frame h)) vs ts F Hr).
  intros l Hl. apply Hfr; [|set_solver].
  eapply (proj1 (proj2 (repr_bounds h))); eauto.
Qed.

Lemma reprd_framed h h' C items titems F :
  reprd h items titems F -> frame C h h' -> F ## C -> reprd h' items titems F.
Proof.
  intros Hr [_ Hfr] Hdisj.
  apply (proj2 (proj2 (repr_frame h)) items titems F Hr).
  intros l Hl. apply Hfr; [|set_solver].
  eapply (proj2 (proj2 (repr_bounds h))); eauto.
Qed.

Lemma frame_refl F h : frame F h h.
Proof. split; auto. Qed.

Lemma frame_trans F h1 h2 h3 F' :
  frame F h1 h2 -> frame F' h2 h3 -> within F h1 F' -> frame F h1 h3.
Proof.
  intros [Hl1 H1] [Hl2 H2] Hw. split; [lia|].
  intros l Hl Hnot. rewrite H2, H1; auto; [lia|].
  intros Hin. destruct (Hw l Hin); [auto | lia].
Qed.

Lemma frame_weaken F F' h h' : frame F h h' -> F ⊆ F' -> frame F' h h'.
Proof.
  intros [Hl H] Hsub. split; [assumption|].
  intros l Hlt Hnot. apply H; [assumption | set_solver].
Qed.

(** The type of a value is the type of the tree it stands for. *)
Lemma repr_type_name h v t F :
  repr h v t F -> Store.type_name v h = Store.Done (type_name t) h.
Proof. intros Hr. inversion Hr; subst; simpl; try reflexivity; now rewrite H. Qed.

Lemma repr_isinstance_list h v t F :
  repr h v t F ->
  Store.isinstance_list v h = Store.Done (isinstance_list t) h.
Proof. intros Hr. inversion Hr; subst; simpl; try reflexivity; now rewrite H. Qed.

Lemma repr_isinstance_dict h v t F :
  repr h v t F ->
  Store.isinstance_dict v h = Store.Done (isinstance_dict t) h.
Proof. intros Hr. inversion Hr; subst; simpl; try reflexivity; now rewrite H. Qed.

Lemma reprs_app h vs ts F ws us G :
  reprs h vs ts F -> reprs h ws us G -> F ## G ->
  reprs h (vs ++ ws) (ts ++ us) (F ∪ G).
Proof.
  intros Hvs. revert ws us G. induction Hvs as [|v t Fv vs ts Fr Hv Hvs IH Hd];
    intros ws us G Hws Hdisj; simpl.
  - now rewrite union_empty_l_L.
  - rewrite <- union_assoc_L. constructor; auto.
    + apply IH; auto. set_solver.
    + set_solver.
Qed.

Lemma reprd_app h vs ts F ws us G :
  reprd h vs ts F -> reprd h ws us G -> F ## G ->
  reprd h (vs ++ ws) (ts ++ us) (F ∪ G).
Proof.
  intros Hvs. revert ws us G.
  induction Hvs as [|k v t Fv vs ts Fr Hv Hvs IH Hd];
    intros ws us G Hws Hdisj; simpl.
  - now rewrite union_empty_l_L.
  - rewrite <- union_assoc_L. constructor; auto.
    + apply IH; auto. set_solver.
    + set_solver.
Qed.

Lemma reprd_keys h items titems F :
  reprd h items titems F -> map fst items = map fst titems.
Proof. induction 1; simpl; congruence. Qed.

Lemma reprs_length h vs ts F : reprs h vs ts F -> length vs = length ts.
Proof. induction 1; simpl; congruence. Qed.

Lemma reprd_get_none h items titems F key :
  reprd h items titems F -> dict_get key titems = None ->
  dict_get key items = None.
Proof.
  induction 1 as [|k v t Fv items titems Fr Hv Hd IH Hdisj]; simpl; auto.
  destruct (String.eqb key k); [discriminate | auto].
Qed.

Lemma dict_set_absent {V : Type} key (value : V) (d : dict V) :
  dict_get key d = None -> dict_set key value d = d ++ [(key, value)].
Proof.
  induction d as [|[k v] d IH]; simpl; auto.
  destruct (String.eqb key k); [discriminate|]. intros H. now rewrite IH.
Qed.

(** An entry of a dictionary in the store, and the rest of it. *)
Lemma reprd_get h items titems F key t :
  reprd h items titems F -> dict_get key titems = Some t ->
  exists v Fv Frest,
    dict_get key items = Some v
    /\ repr h v t Fv
    /\ Fv ## Frest
    /\ F = Fv ∪ Frest
    /\ forall h' v' t' F',
         repr h' v' t' F' -> F' ## Frest ->
         (forall l, l ∈ Frest -> h' !! l = h !! l) ->
         reprd h' (dict_set key v' items) (dict_set key t' titems) (F' ∪ Frest).
Proof.
  induction 1 as [|k v0 t0 Fv items titems Fr Hv Hd IH Hdisj]; simpl;
    [discriminate|].
  destruct (String.eqb key k) eqn:E.
  - intros Ht. inversion Ht; subst t0.
    exists v0, Fv, Fr. repeat split; auto.
    intros h' v' t' F' Hv' Hd' Hagree. constructor; auto.
    apply (proj2 (proj2 (repr_frame h)) _ _ _ Hd). auto.
  - intros Ht. destruct (IH Ht) as (v & Fv' & Frest & Hget & Hrv & Hdj & HF & Hupd).
    exists v, Fv', (Fv ∪ Frest). repeat split; auto.
    + set_solver.
    + set_solver.
    + intros h' v' t' F' Hv' Hd' Hagree.
      replace (F' ∪ (Fv ∪ Frest)) with (Fv ∪ (F' ∪ Frest)) by set_solver.
      constructor.
      * apply (proj1 (repr_frame h) _ _ _ Hv). intros; apply Hagree; set_solver.
      * apply Hupd; auto; [set_solver|]. intros; apply Hagree; set_solver.
      * set_solver.
Qed.

Lemma eventually_bind {A B : Type} (c : nat -> Store.M A)
  (k : nat -> A -> Store.M B) h a h1 b h2 :
  eventually (fun n => c n h) a h1 ->
  eventually (fun n => k n a h1) b h2 ->
  eventually (fun n => Store.bindS (c n) (k n) h) b h2.
Proof.
  intros [n1 H1] [n2 H2]. exists (max n1 n2). intros n Hn.
  unfold Store.bindS. rewrite H1 by lia. apply H2. lia.
Qed.

(** *** The steps of the store *)

Lemma load_dict_eq h l items :
  h !! l = Some (Store.ODict items) -> Store.load_dict l h = Store.Done items h.
Proof. unfold Store.load_dict. now intros ->. Qed.

Lemma load_list_eq h l xs :
  h !! l = Some (Store.OList xs) -> Store.load_list l h = Store.Done xs h.
Proof. unfold Store.load_list. now intros ->. Qed.

Lemma setitem_eq h l items key value :
  h !! l = Some (Store.ODict items) ->
  Store.setitem l key value h
  = Store.Done tt (<[l := Store.ODict (dict_set key value items)]> h).
Proof.
  intros H. unfold Store.setitem, Store.bindS. now rewrite (load_dict_eq _ _ _ H).
Qed.

Lemma extend_eq h le lv xs ys :
  h !! le = Some (Store.OList xs) -> h !! lv = Some (Store.OList ys) ->
  Store.extend (Store.VRef le) (Store.VRef lv) h
  = Store.Done tt (<[le := Store.OList (xs ++ ys)]> h).
Proof.
  intros Hx Hy. unfold Store.extend, Store.bindS.
  now rewrite (load_list_eq _ _ _ Hy), (load_list_eq _ _ _ Hx).
Qed.

Lemma frame_insert h l o : frame {[l]} h (<[l := o]> h).
Proof.
  unfold frame. split; [now rewrite length_insert|].
  intros l' _ Hne. apply list_lookup_insert_ne. set_solver.
Qed.

Lemma frame_alloc h o : frame ∅ h (h ++ [o]).
Proof.
  unfold frame. split; [rewrite length_app; lia|].
  intros l Hl _. now apply lookup_app_l.
Qed.

Lemma lookup_alloc h (o : Store.obj) : (h ++ [o]) !! length h = Some o.
Proof. rewrite lookup_app_r by lia. now rewrite Nat.sub_diag. Qed.

Lemma lookup_framed h h' C l (o : Store.obj) :
  h !! l = Some o -> frame C h h' -> l ∉ C -> h' !! l = Some o.
Proof.
  intros Hl [_ Hfr] Hnot. rewrite Hfr; auto. eapply lookup_lt_Some; eauto.
Qed.

Lemma dict_set_same {V : Type} key (v : V) (d : dict V) :
  dict_get key d = Some v -> dict_set key v d = d.
Proof.
  induction d as [|[k w] d IH]; simpl; [discriminate|].
  destruct (String.eqb key k) eqn:E.
  - intros H. inversion H; subst. apply String.eqb_eq in E. now subst.
  - intros H. now rewrite IH.
Qed.

Lemma frame_trans_same C h1 h2 h3 :
  frame C h1 h2 -> frame C h2 h3 -> frame C h1 h3.
Proof.
  intros [Hl1 H1] [Hl2 H2]. split; [lia|].
  intros l Hl Hnot. rewrite H2, H1; auto. lia.
Qed.

Section MergeRefines.

Variable rec_p : list pyval -> result (dict pyval).
Variable rec_s : nat -> Store.loc -> Store.M Store.loc.

Hypothesis rec_refines :
  forall h p ts F tm,
    holds_list h p ts F -> rec_p ts = Ok tm ->
    exists h' r Fm,
      eventually (fun n => rec_s n p h) r h'
      /\ holds_dict h' r tm Fm
      /\ frame F h h'
      /\ within F h ({[r]} ∪ Fm).

Lemma merge_entry_refines h merged tm Fm key value tv Fv tm' :
  holds_dict h merged tm Fm -> repr h value tv Fv ->
  merged ∉ Fv -> Fm ## Fv ->
  merge_entry rec_p tm key tv = Ok tm' ->
  exists h' Fm',
    eventually (fun n => Store.merge_entry (rec_s n) merged key value h) tt h'
    /\ holds_dict h' merged tm' Fm'
    /\ frame ({[merged]} ∪ Fm ∪ Fv) h h'
    /\ within (Fm ∪ Fv) h Fm'.
Proof.
  intros (mitems & Hm & Hd & Hnm) Hv Hnv Hdisj Hp.
  assert (Hmlt : merged < length h) by (eapply lookup_lt_Some; eauto).
  pose proof (proj1 (repr_bounds h) _ _ _ Hv) as Hbv.
  pose proof (proj2 (proj2 (repr_bounds h)) _ _ _ Hd) as Hbm.
  unfold merge_entry in Hp. destruct (dict_get key tm) as [te|] eqn:Hget.
  2: { (* the key is new *)
    inversion Hp; subst tm'.
    pose proof (reprd_get_none _ _ _ _ key Hd Hget) as Hgets.
    exists (<[merged := Store.ODict (dict_set key value mitems)]> h), (Fm ∪ Fv).
    split; [|split; [|split]].
    - exists 0. intros n _. unfold Store.merge_entry, Store.bindS.
      rewrite (load_dict_eq _ _ _ Hm), Hgets. now apply setitem_eq.
    - exists (dict_set key value mitems).
      split; [now apply list_lookup_insert_eq|]. split; [|set_solver].
      rewrite !dict_set_absent by auto.
      replace (Fm ∪ Fv) with (Fm ∪ (Fv ∪ ∅)) by set_solver.
      apply reprd_app; [| |set_solver].
      + eapply reprd_framed; [exact Hd | apply frame_insert | set_solver].
      + constructor; [|constructor|set_solver].
        eapply repr_framed; [exact Hv | apply frame_insert | set_solver].
    - eapply frame_weaken; [apply frame_insert | set_solver].
    - intros l Hl; auto. }
  destruct (reprd_get _ _ _ _ key te Hd Hget)
    as (ve & Fe & Frest & Hgets & Hre & Hdj & HF & Hupd).
  subst Fm.
  pose proof (proj1 (repr_bounds h) _ _ _ Hre) as Hbe.
  assert (Hpre : forall n,
             Store.merge_entry (rec_s n) merged key value h
             = if isinstance_dict te && isinstance_dict tv then
                 Store.bindS (Store.alloc (Store.OList [ve; value]))
                   (fun pair => Store.bindS (rec_s n pair)
                      (fun r => Store.setitem merged key (Store.VRef r))) h
               else if isinstance_list te && isinstance_list tv then
                 Store.extend ve value h
               else if negb (Bool.eqb (isinstance_list te) (isinstance_list tv))
                    then Store.setitem merged key Store.VMixedType h
               else Store.ret tt h).
  { intros n. unfold Store.merge_entry, Store.bindS at 1.
    rewrite (load_dict_eq _ _ _ Hm), Hgets. unfold Store.bindS at 1.
    rewrite (repr_isinstance_dict _ _ _ _ Hre). unfold Store.bindS at 1.
    rewrite (repr_isinstance_dict _ _ _ _ Hv).
    destruct (isinstance_dict te && isinstance_dict tv); [reflexivity|].
    unfold Store.bindS at 1.
    rewrite (repr_isinstance_list _ _ _ _ Hre). unfold Store.bindS at 1.
    rewrite (repr_isinstance_list _ _ _ _ Hv).
    destruct (isinstance_list te && isinstance_list tv); [reflexivity|].
    destruct (negb _); reflexivity. }
  destruct (isinstance_dict te && isinstance_dict tv) eqn:Hdd.
  { (* two dictionaries *)
    apply bind_Ok in Hp. destruct Hp as (m & Hrp & Hp).
    inversion Hp; subst tm'. clear Hp.
    set (h1 := h ++ [Store.OList [ve; value]]).
    assert (Hfr01 : frame ∅ h h1) by apply frame_alloc.
    assert (Hpair : holds_list h1 (length h) [te; tv] (Fe ∪ (Fv ∪ ∅))).
    { exists [ve; value]. split; [apply lookup_alloc|]. split.
      - constructor; [|constructor; [|constructor|set_solver]|set_solver].
        + eapply repr_framed; [exact Hre | exact Hfr01 | set_solver].
        + eapply repr_framed; [exact Hv | exact Hfr01 | set_solver].
      - intros Hin. assert (length h < length h); [|lia].
        apply elem_of_union in Hin. destruct Hin as [Hin|Hin]; auto.
        apply Hbv. set_solver. }
    destruct (rec_refines h1 (length h) _ _ m Hpair Hrp)
      as (h2 & r & Fr & [n0 Hev] & (ritems & Hr & Hrd & Hrn) & Hfr12 & Hw).
    assert (Hlen1 : length h1 = S (length h))
      by (unfold h1; rewrite length_app; simpl; lia).
    assert (Hnew : forall l, l ∈ {[r]} ∪ Fr ->
                             l ∈ Fe ∪ Fv \/ length h <= l).
    { intros l Hl. destruct (Hw l Hl) as [H|H]; [left; set_solver | right; lia]. }
    assert (Hfr02 : frame (Fe ∪ Fv) h h2).
    { apply (frame_trans_same _ h h1 h2).
      - eapply frame_weaken; [exact Hfr01 | set_solver].
      - eapply frame_weaken; [exact Hfr12 | set_solver]. }
    assert (Hm2 : h2 !! merged = Some (Store.ODict mitems)).
    { eapply lookup_framed; [exact Hm | exact Hfr02 | set_solver]. }
    set (h3 := <[merged := Store.ODict (dict_set key (Store.VRef r) mitems)]> h2).
    assert (Hfr23 : frame {[merged]} h2 h3) by apply frame_insert.
    assert (Hfr03 : frame ({[merged]} ∪ (Fe ∪ Fv)) h h3).
    { apply (frame_trans_same _ h h2 h3).
      - eapply frame_weaken; [exact Hfr02 | set_solver].
      - eapply frame_weaken; [exact Hfr23 | set_solver]. }
    assert (Hmr : merged ∉ {[r]} ∪ Fr).
    { intros Hin. destruct (Hnew _ Hin) as [H|H]; [set_solver | lia]. }
    assert (Hrest : ({[r]} ∪ Fr) ## Frest).
    { intros l Hl1 Hl2. destruct (Hnew _ Hl1) as [H|H]; [set_solver|].
      assert (l < length h) by (apply Hbm; set_solver). lia. }
    exists h3, (({[r]} ∪ Fr) ∪ Frest). split; [|split; [|split]].
    - exists n0. intros n Hn. rewrite Hpre. unfold Store.bindS, Store.alloc.
      fold h1. rewrite (Hev n Hn). now apply setitem_eq.
    - exists (dict_set key (Store.VRef r) mitems). split; [|split].
      + apply list_lookup_insert_eq. eapply lookup_lt_Some; eauto.
      + apply Hupd; auto.
        * apply (repr_dict _ _ ritems).
          -- unfold h3. rewrite list_lookup_insert_ne; [assumption | set_solver].
          -- eapply reprd_framed; [exact Hrd | exact Hfr23 | set_solver].
          -- assumption.
        * intros l Hl. destruct Hfr03 as [_ Hfr03]. apply Hfr03.
          -- apply Hbm. set_solver.
          -- set_solver.
      + set_solver.
    - eapply frame_weaken; [exact Hfr03 | set_solver].
    - intros l Hl. apply elem_of_union in Hl. destruct Hl as [Hl|Hl].
      + destruct (Hnew _ Hl); [left; set_solver | right; lia].
      + left. set_solver. }
  destruct (isinstance_list te && isinstance_list tv) eqn:Hll.
  { (* two lists *)
    inversion Hp; subst tm'. clear Hp.
    destruct te as [| | | | |xs_t| |]; try discriminate.
    destruct tv as [| | | | |ys_t| |]; try discriminate.
    inversion Hre as [| | | | | |le xs ? Fx Hle Hxs Hnx|]; subst.
    inversion Hv as [| | | | | |lv ys ? Fy Hlv Hys Hny|]; subst.
    simpl list_extend.
    set (h1 := <[le := Store.OList (xs ++ ys)]> h).
    assert (Hfr : frame {[le]} h h1) by apply frame_insert.
    exists h1, (({[le]} ∪ (Fx ∪ Fy)) ∪ Frest). split; [|split; [|split]].
    - exists 0. intros n _. rewrite Hpre. now apply extend_eq.
    - exists mitems. split; [|split].
      + eapply lookup_framed; [exact Hm | exact Hfr | set_solver].
      + rewrite <- (dict_set_same key (Store.VRef le) mitems Hgets).
        apply Hupd.
        * apply (repr_list _ _ (xs ++ ys)).
          -- apply list_lookup_insert_eq. eapply lookup_lt_Some; eauto.
          -- apply reprs_app.
             ++ eapply reprs_framed; [exact Hxs | exact Hfr | set_solver].
             ++ eapply reprs_framed; [exact Hys | exact Hfr | set_solver].
             ++ set_solver.
          -- set_solver.
        * set_solver.
        * intros l Hl. destruct Hfr as [_ Hfr]. apply Hfr.
          -- apply Hbm. set_solver.
          -- set_solver.
      + set_solver.
    - eapply frame_weaken; [exact Hfr | set_solver].
    - intros l Hl. left. set_solver. }
  destruct (negb (Bool.eqb (isinstance_list te) (isinstance_list tv))) eqn:Hmix.
  { (* a list and a value that is not one *)
    inversion Hp; subst tm'. clear Hp.
    set (h1 := <[merged := Store.ODict (dict_set key Store.VMixedType mitems)]> h).
    assert (Hfr : frame {[merged]} h h1) by apply frame_insert.
    exists h1, (∅ ∪ Frest). split; [|split; [|split]].
    - exists 0. intros n _. rewrite Hpre. now apply setitem_eq.
    - exists (dict_set key Store.VMixedType mitems). split; [|split].
      + now apply list_lookup_insert_eq.
      + apply Hupd; [constructor | set_solver |].
        intros l Hl. destruct Hfr as [_ Hfr]. apply Hfr.
        * apply Hbm. set_solver.
        * set_solver.
      + set_solver.
    - eapply frame_weaken; [exact Hfr | set_solver].
    - intros l Hl. left. set_solver. }
  (* nothing is stored *)
  inversion Hp; subst tm'. clear Hp.
  exists h, (Fe ∪ Frest). split; [|split; [|split]].
  - exists 0. intros n _. now rewrite Hpre.
  - exists mitems. auto.
  - apply frame_refl.
  - intros l Hl. left. set_solver.
Qed.

Lemma merge_items_refines ditems : forall titems Fd h merged tm Fm tm',
  holds_dict h merged tm Fm -> reprd h ditems titems Fd ->
  merged ∉ Fd -> Fm ## Fd ->
  foldM (fun merged kv => merge_entry rec_p merged (fst kv) (snd kv))
    titems tm = Ok tm' ->
  exists h' Fm',
    eventually
      (fun n => Store.foldS
                  (fun _ kv => Store.merge_entry (rec_s n) merged (fst kv) (snd kv))
                  ditems tt h) tt h'
    /\ holds_dict h' merged tm' Fm'
    /\ frame ({[merged]} ∪ Fm ∪ Fd) h h'
    /\ within (Fm ∪ Fd) h Fm'.
Proof.
  induction ditems as [|[k v] ditems IH];
    intros titems Fd h merged tm Fm tm' Hm Hd Hnd Hdisj Hp;
    inversion Hd as [|? ? t Fv ? trest Fr Hv Hrest Hvr]; subst.
  - simpl in Hp. inversion Hp; subst. exists h, Fm. split; [|split; [|split]].
    + exists 0. reflexivity.
    + assumption.
    + apply frame_refl.
    + intros l Hl. left. clear - Hl. set_solver.
  - simpl in Hp. apply bind_Ok in Hp. destruct Hp as (tm1 & H1 & Hp).
    simpl in H1.
    pose proof (proj2 (proj2 (repr_bounds h)) _ _ _ Hrest) as Hbr.
    pose proof Hm as (mi & _ & _ & Hnm).
    assert (Hnv : merged ∉ Fv) by (clear - Hnd; set_solver).
    assert (Hnr : merged ∉ Fr) by (clear - Hnd; set_solver).
    assert (Hdv : Fm ## Fv) by (clear - Hdisj; set_solver).
    assert (Hdr : Fm ## Fr) by (clear - Hdisj; set_solver).
    destruct (merge_entry_refines h merged tm Fm k v t Fv tm1 Hm Hv Hnv Hdv H1)
      as (h1 & Fm1 & Hev1 & Hm1 & Hfr1 & Hw1).
    assert (Hrest1 : reprd h1 ditems trest Fr).
    { eapply reprd_framed; [exact Hrest | exact Hfr1 |].
      clear - Hnr Hdr Hvr. set_solver. }
    assert (Hdisj1 : Fm1 ## Fr).
    { intros l Hl1 Hl2. destruct (Hw1 l Hl1) as [H|H].
      - clear - H Hl2 Hdr Hvr. set_solver.
      - specialize (Hbr l Hl2). lia. }
    destruct (IH trest Fr h1 merged tm1 Fm1 tm' Hm1 Hrest1 Hnr Hdisj1 Hp)
      as (h2 & Fm2 & Hev2 & Hm2 & Hfr2 & Hw2).
    exists h2, Fm2. split; [|split; [|split]].
    + simpl.
      apply (eventually_bind
               (fun n => Store.merge_entry (rec_s n) merged k v)
               (fun n a' => Store.foldS
                  (fun _ kv => Store.merge_entry (rec_s n) merged (fst kv) (snd kv))
                  ditems a') h tt h1 tt h2); assumption.
    + assumption.
    + apply (frame_trans _ h h1 h2 ({[merged]} ∪ Fm1 ∪ Fr)).
      * eapply frame_weaken; [exact Hfr1 | clear; set_solver].
      * assumption.
      * intros l Hl. destruct Hfr1 as [Hlen _].
        apply elem_of_union in Hl. destruct Hl as [Hl|Hl];
          [|left; clear - Hl; set_solver].
        apply elem_of_union in Hl. destruct Hl as [Hl|Hl];
          [left; clear - Hl; set_solver|].
        destruct (Hw1 l Hl) as [H|H]; [left; clear - H; set_solver | right; lia].
    + intros l Hl. destruct Hfr1 as [Hlen _].
      destruct (Hw2 l Hl) as [H|H]; [|right; lia].
      apply elem_of_union in H. destruct H as [H|H];
        [|left; clear - H; set_solver].
      destruct (Hw1 l H) as [H'|H']; [left; clear - H'; set_solver | right; lia].
Qed.

Lemma merge_dict_refines h merged tm Fm d td Fd tm' :
  holds_dict h merged tm Fm -> repr h d td Fd ->
  merged ∉ Fd -> Fm ## Fd ->
  merge_dict rec_p tm td = Ok tm' ->
  exists h' Fm',
    eventually (fun n => Store.merge_dict (rec_s n) merged d h) tt h'
    /\ holds_dict h' merged tm' Fm'
    /\ frame ({[merged]} ∪ Fm ∪ Fd) h h'
    /\ within (Fm ∪ Fd) h Fm'.
Proof.
  intros Hm Hd Hnd Hdisj Hp. unfold merge_dict in Hp.
  destruct td as [| | | | | |titems|]; try discriminate. simpl in Hp.
  inversion Hd as [| | | | | | |ld ditems ? Fi Hld Hitems Hni]; subst.
  assert (Hni' : merged ∉ Fi) by (clear - Hnd; set_solver).
  assert (Hdi : Fm ## Fi) by (clear - Hdisj; set_solver).
  destruct (merge_items_refines ditems titems Fi h merged tm Fm tm'
              Hm Hitems Hni' Hdi Hp)
    as (h' & Fm' & [n0 Hev] & Hm' & Hfr & Hw).
  exists h', Fm'. split; [|split; [|split]].
  - exists n0. intros n Hn. unfold Store.merge_dict, Store.bindS.
    simpl. rewrite Hld. now apply Hev.
  - assumption.
  - eapply frame_weaken; [exact Hfr | clear; set_solver].
  - intros l Hl. destruct (Hw l Hl) as [H|H];
      [left; clear - H; set_solver | right; lia].
Qed.

(** The loop of line 35, from the index [length vs_done] on. *)
Lemma merge_loop_refines ts_rem :
  forall vs_rem Fr h merged tm Fm lst vs_done tm',
  reprs h vs_rem ts_rem Fr ->
  h !! lst = Some (Store.OList (vs_done ++ vs_rem)) ->
  lst ∉ Fm ∪ Fr -> lst <> merged ->
  holds_dict h merged tm Fm -> merged ∉ Fr -> Fm ## Fr ->
  foldM (merge_dict rec_p) ts_rem tm = Ok tm' ->
  exists h' Fm',
    (exists n0, forall n m, n0 <= n -> n0 <= m ->
       Store.for_each n lst (length vs_done)
         (Store.merge_dict (rec_s m) merged) h = Store.Done tt h')
    /\ holds_dict h' merged tm' Fm'
    /\ frame ({[merged]} ∪ Fm ∪ Fr) h h'
    /\ within (Fm ∪ Fr) h Fm'.
Proof.
  induction ts_rem as [|t ts_rem IH];
    intros vs_rem Fr h merged tm Fm lst vs_done tm' Hr Hlst Hnl Hne Hm Hnm
      Hdisj Hp;
    inversion Hr as [|v ? Fv vs ? Frest Hv Hrest Hvr]; subst.
  - simpl in Hp. inversion Hp; subst. exists h, Fm. split; [|split; [|split]].
    + exists 1. intros n m Hn _. destruct n as [|n]; [lia|].
      simpl. unfold Store.bindS. rewrite (load_list_eq _ _ _ Hlst).
      rewrite app_nil_r. rewrite lookup_ge_None_2 by lia. reflexivity.
    + assumption.
    + apply frame_refl.
    + intros l Hl. left. clear - Hl. set_solver.
  - simpl in Hp. apply bind_Ok in Hp. destruct Hp as (tm1 & H1 & Hp).
    pose proof (proj1 (proj2 (repr_bounds h)) _ _ _ Hrest) as Hbr.
    assert (Hllt : lst < length h) by (eapply lookup_lt_Some; eauto).
    pose proof Hm as (mi & _ & _ & Hnmm).
    assert (Hnv : merged ∉ Fv) by (clear - Hnm; set_solver).
    assert (Hnr : merged ∉ Frest) by (clear - Hnm; set_solver).
    assert (Hdv : Fm ## Fv) by (clear - Hdisj; set_solver).
    assert (Hdr : Fm ## Frest) by (clear - Hdisj; set_solver).
    destruct (merge_dict_refines h merged tm Fm v t Fv tm1 Hm Hv Hnv Hdv H1)
      as (h1 & Fm1 & [n1 Hev1] & Hm1 & Hfr1 & Hw1).
    assert (Hrest1 : reprs h1 vs ts_rem Frest).
    { eapply reprs_framed; [exact Hrest | exact Hfr1 |].
      clear - Hnr Hdr Hvr. set_solver. }
    assert (Hdisj1 : Fm1 ## Frest).
    { intros l Hl1 Hl2. destruct (Hw1 l Hl1) as [H|H].
      - clear - H Hl2 Hdr Hvr. set_solver.
      - specialize (Hbr l Hl2). lia. }
    assert (Hlst1 : h1 !! lst = Some (Store.OList ((vs_done ++ [v]) ++ vs))).
    { rewrite <- app_assoc. simpl.
      eapply lookup_framed; [exact Hlst | exact Hfr1 |].
      clear - Hnl Hne. set_solver. }
    assert (Hnl1 : lst ∉ Fm1 ∪ Frest).
    { intros Hin. apply elem_of_union in Hin. destruct Hin as [Hin|Hin].
      - destruct (Hw1 lst Hin) as [H|H]; [clear - H Hnl; set_solver | lia].
      - clear - Hin Hnl. set_solver. }
    destruct (IH vs Frest h1 merged tm1 Fm1 lst (vs_done ++ [v]) tm'
                Hrest1 Hlst1 Hnl1 Hne Hm1 Hnr Hdisj1 Hp)
      as (h2 & Fm2 & [n2 Hev2] & Hm2 & Hfr2 & Hw2).
    rewrite length_app in Hev2. simpl in Hev2.
    exists h2, Fm2. split; [|split; [|split]].
    + exists (S (max n1 n2)). intros n m Hn Hmm.
      destruct n as [|n]; [lia|]. simpl. unfold Store.bindS.
      rewrite (load_list_eq _ _ _ Hlst).
      rewrite lookup_app_r by lia. rewrite Nat.sub_diag. simpl.
      rewrite Hev1 by lia.
      replace (S (length vs_done)) with (length vs_done + 1) by lia.
      apply Hev2; lia.
    + assumption.
    + apply (frame_trans _ h h1 h2 ({[merged]} ∪ Fm1 ∪ Frest)).
      * eapply frame_weaken; [exact Hfr1 | clear; set_solver].
      * assumption.
      * intros l Hl. destruct Hfr1 as [Hlen _].
        apply elem_of_union in Hl. destruct Hl as [Hl|Hl];
          [|left; clear - Hl; set_solver].
        apply elem_of_union in Hl. destruct Hl as [Hl|Hl];
          [left; clear - Hl; set_solver|].
        destruct (Hw1 l Hl) as [H|H]; [left; clear - H; set_solver | right; lia].
    + intros l Hl. destruct Hfr1 as [Hlen _].
      destruct (Hw2 l Hl) as [H|H]; [|right; lia].
      apply elem_of_union in H. destruct H as [H|H];
        [|left; clear - H; set_solver].
      destruct (Hw1 l H) as [H'|H']; [left; clear - H'; set_solver | right; lia].
Qed.

End MergeRefines.

(** [merge_nested_dicts] over the store returns what [merge_nested_dicts]
    over trees returns, in a new dictionary, and writes only to the
    objects it was given. *)
Lemma merge_nested_dicts_refines (f : nat) : forall h lst ts F tm,
  holds_list h lst ts F -> merge_nested_dicts f ts = Ok tm ->
  exists h' r Fm,
    eventually (fun n => Store.merge_nested_dicts n lst h) r h'
    /\ holds_dict h' r tm Fm
    /\ frame F h h'
    /\ within F h ({[r]} ∪ Fm).
Proof.
  induction f as [|f IH]; intros h lst ts F tm Hlst Hp; [discriminate|].
  simpl in Hp. destruct Hlst as (vs & Hl & Hrs & Hnl).
  pose proof (proj1 (proj2 (repr_bounds h)) _ _ _ Hrs) as Hb.
  assert (Hllt : lst < length h) by (eapply lookup_lt_Some; eauto).
  set (h0 := h ++ [Store.ODict []]).
  assert (Hfr0 : frame ∅ h h0) by apply frame_alloc.
  assert (Hrs0 : reprs h0 vs ts F).
  { eapply reprs_framed; [exact Hrs | exact Hfr0 | clear; set_solver]. }
  assert (Hl0 : h0 !! lst = Some (Store.OList ([] ++ vs))).
  { simpl. eapply lookup_framed; [exact Hl | exact Hfr0 | clear; set_solver]. }
  assert (Hm0 : holds_dict h0 (length h) [] ∅).
  { exists []. split; [apply lookup_alloc|]. split; [constructor|].
    clear; set_solver. }
  assert (Hnm : length h ∉ F).
  { intros Hin. specialize (Hb _ Hin). lia. }
  assert (Hnl0 : lst ∉ (∅ : gset nat) ∪ F) by (clear - Hnl; set_solver).
  assert (Hne : lst <> length h) by lia.
  assert (Hd0 : (∅ : gset nat) ## F) by (clear; set_solver).
  destruct (merge_loop_refines (merge_nested_dicts f) Store.merge_nested_dicts
              IH ts vs F h0 (length h) [] ∅ lst [] tm
              Hrs0 Hl0 Hnl0 Hne Hm0 Hnm Hd0 Hp)
    as (h' & Fm' & [n0 Hev] & Hm' & Hfr & Hw).
  assert (Hlen0 : length h0 = S (length h))
    by (unfold h0; rewrite length_app; simpl; lia).
  exists h', (length h), Fm'. split; [|split; [|split]].
  - exists (S n0). intros n Hn. destruct n as [|n]; [lia|].
    simpl. unfold Store.bindS, Store.alloc. fold h0.
    simpl in Hev. rewrite (Hev n n) by lia. reflexivity.
  - assumption.
  - apply (frame_trans _ h h0 h' ({[length h]} ∪ ∅ ∪ F)).
    + eapply frame_weaken; [exact Hfr0 | clear; set_solver].
    + assumption.
    + intros l Hl'.
      destruct (decide (l = length h)) as [->|Hneq]; [right; lia|].
      left. clear - Hl' Hneq. set_solver.
  - intros l Hl'.
    destruct (decide (l = length h)) as [->|Hneq]; [right; lia|].
    assert (Hin : l ∈ Fm') by (clear - Hl' Hneq; set_solver).
    destruct (Hw l Hin) as [H|H]; [left; clear - H; set_solver | right; lia].
Qed.

(** *** The type names and [chain.from_iterable] *)

Lemma type_names_refine h vs ts F :
  reprs h vs ts F -> forall acc,
  Store.foldS (fun acc x => Store.bindS (Store.type_name x)
                              (fun n => Store.ret (acc ++ [n]))) vs acc h
  = Store.Done (acc ++ map type_name ts) h.
Proof.
  induction 1 as [|v t Fv vs ts Fr Hv Hrs IH Hd]; intros acc; simpl.
  - now rewrite app_nil_r.
  - unfold Store.bindS at 1. unfold Store.bindS at 1.
    rewrite (repr_type_name _ _ _ _ Hv). unfold Store.ret at 1.
    rewrite IH. now rewrite <- app_assoc.
Qed.

Lemma extract_unique_types_refines set_iter h l ts F :
  holds_list h l ts F ->
  Store.extract_unique_types set_iter l h
  = Store.Done (extract_unique_types set_iter ts) h.
Proof.
  intros (vs & Hl & Hrs & _). unfold Store.extract_unique_types.
  unfold Store.bindS at 1. rewrite (load_list_eq _ _ _ Hl).
  unfold Store.bindS at 1.
  now rewrite (type_names_refine _ _ _ _ Hrs []).
Qed.

Lemma reprs_strings h (l : list string) :
  reprs h (map Store.VStr l) (map PStr l) ∅.
Proof.
  induction l as [|s l IH]; simpl; [constructor|].
  replace (∅ : gset nat) with ((∅ : gset nat) ∪ ∅) by set_solver.
  constructor; [constructor | assumption | set_solver].
Qed.

Lemma iterate_refines h x t F ts :
  repr h x t F -> iterate t = Ok ts ->
  exists vs F',
    Store.iterate x h = Store.Done vs h /\ reprs h vs ts F' /\ F' ⊆ F.
Proof.
  intros Hr Hp. inversion Hr as [| | | |s| |l vs ? Fx Hl Hrs Hn
                                 |l items titems Fx Hl Hrd Hn];
    subst; simpl in Hp; try discriminate; inversion Hp; subst.
  - eexists _, ∅. split; [reflexivity|]. split; [|set_solver].
    rewrite <- (map_map (fun c => String c EmptyString) Store.VStr).
    rewrite <- (map_map (fun c => String c EmptyString) PStr).
    apply reprs_strings.
  - exists vs, Fx. simpl. rewrite Hl. split; [reflexivity|].
    split; [assumption | set_solver].
  - eexists _, ∅. simpl. rewrite Hl. split; [reflexivity|].
    split; [|set_solver].
    rewrite <- (map_map fst Store.VStr), <- (map_map fst PStr).
    rewrite (reprd_keys _ _ _ _ Hrd). apply reprs_strings.
Qed.

Lemma chain_refines h vs ts F :
  reprs h vs ts F -> forall acc_v acc_t Fa flat_t,
  reprs h acc_v acc_t Fa -> Fa ## F ->
  foldM (fun acc x => xs <- iterate x ;; Ok (acc ++ xs)) ts acc_t = Ok flat_t ->
  exists flat_v F',
    Store.foldS (fun acc x => Store.bindS (Store.iterate x)
                                (fun ys => Store.ret (acc ++ ys))) vs acc_v h
    = Store.Done flat_v h
    /\ reprs h flat_v flat_t F' /\ F' ⊆ Fa ∪ F.
Proof.
  induction 1 as [|v t Fv vs ts Fr Hv Hrs IH Hd];
    intros acc_v acc_t Fa flat_t Hacc Hdisj Hp; simpl in Hp.
  - inversion Hp; subst. exists acc_v, Fa. simpl.
    split; [reflexivity|]. split; [assumption | set_solver].
  - apply bind_Ok in Hp. destruct Hp as (acc1 & H1 & Hp).
    apply bind_Ok in H1. destruct H1 as (xs & Hit & H1).
    inversion H1; subst acc1.
    destruct (iterate_refines _ _ _ _ _ Hv Hit) as (ys & Fy & Hs & Hys & Hsub).
    assert (Hacc1 : reprs h (acc_v ++ ys) (acc_t ++ xs) (Fa ∪ Fy)).
    { apply reprs_app; auto. clear - Hdisj Hsub. set_solver. }
    assert (Hdisj1 : (Fa ∪ Fy) ## Fr) by (clear - Hdisj Hsub Hd; set_solver).
    destruct (IH _ _ _ _ Hacc1 Hdisj1 Hp) as (flat_v & F' & Hf & Hfl & Hsub').
    exists flat_v, F'. split; [|split; [assumption|]].
    + simpl. unfold Store.bindS at 1. unfold Store.bindS at 1.
      rewrite Hs. unfold Store.ret at 1. exact Hf.
    + clear - Hsub Hsub'. set_solver.
Qed.

Lemma chain_from_iterable_refines h l ts F flat_t :
  holds_list h l ts F -> chain_from_iterable ts = Ok flat_t ->
  exists h' F',
    Store.chain_from_iterable l h = Store.Done (length h) h'
    /\ holds_list h' (length h) flat_t F'
    /\ frame ∅ h h' /\ F' ⊆ F.
Proof.
  intros (vs & Hl & Hrs & Hn) Hp. unfold chain_from_iterable in Hp.
  destruct (chain_refines _ _ _ _ Hrs [] [] ∅ flat_t) as (flat_v & F' & Hf & Hfl & Hsub);
    [constructor | clear; set_solver | assumption |].
  pose proof (proj1 (proj2 (repr_bounds h)) _ _ _ Hfl) as Hb.
  exists (h ++ [Store.OList flat_v]), F'. split; [|split; [|split]].
  - unfold Store.chain_from_iterable.
    unfold Store.bindS at 1. rewrite (load_list_eq _ _ _ Hl).
    unfold Store.bindS at 1. rewrite Hf. reflexivity.
  - exists flat_v. split; [apply lookup_alloc|]. split.
    + eapply reprs_framed; [exact Hfl | apply frame_alloc | clear; set_solver].
    + intros Hin. specialize (Hb _ Hin). lia.
  - apply frame_alloc.
  - clear - Hsub. set_solver.
Qed.

(** *** [infer_schema] *)

Section InferRefines.

Variable set_iter : list string -> list string.

Lemma infer_fields_refine (f : nat) :
  value_refines set_iter f ->
  forall items titems F h acc fields,
    reprd h items titems F ->
    foldM (fun acc kv =>
             s <- infer_schema set_iter f (snd kv) ;;
             Ok (dict_set (fst kv) s acc)) titems acc = Ok fields ->
    exists h',
      eventually
        (fun n => Store.foldS
                    (fun acc kv =>
                       Store.bindS (Store.infer_schema set_iter n (snd kv))
                         (fun s => Store.ret (dict_set (fst kv) s acc)))
                    items acc h) fields h'
      /\ frame F h h'.
Proof.
  intros HV. induction items as [|[k v] items IH];
    intros titems F h acc fields Hd Hp;
    inversion Hd as [|? ? t Fv ? trest Fr Hv Hrest Hvr]; subst.
  - simpl in Hp. inversion Hp; subst. exists h. split; [|apply frame_refl].
    exists 0. reflexivity.
  - simpl in Hp. apply bind_Ok in Hp. destruct Hp as (acc1 & H1 & Hp).
    apply bind_Ok in H1. destruct H1 as (s & Hs & H1). simpl in Hs, H1.
    inversion H1; subst acc1.
    destruct (HV h v t Fv s Hv Hs) as (h1 & [n1 Hev1] & Hfr1).
    assert (Hrest1 : reprd h1 items trest Fr).
    { eapply reprd_framed; [exact Hrest | exact Hfr1 | clear - Hvr; set_solver]. }
    destruct (IH trest Fr h1 (dict_set k s acc) fields Hrest1 Hp)
      as (h2 & [n2 Hev2] & Hfr2).
    exists h2. split.
    + exists (max n1 n2). intros n Hn. simpl.
      unfold Store.bindS at 1. unfold Store.bindS at 1.
      rewrite Hev1 by lia. unfold Store.ret at 1. apply Hev2. lia.
    + apply (frame_trans_same _ h h1 h2).
      * eapply frame_weaken; [exact Hfr1 | clear; set_solver].
      * eapply frame_weaken; [exact Hfr2 | clear; set_solver].
Qed.

Lemma dict_refines_step (f : nat) : value_refines set_iter f -> dict_refines set_iter (S f).
Proof.
  intros HV h l data F s (items & Hl & Hd & Hn) Hp. simpl in Hp.
  apply bind_Ok in Hp. destruct Hp as (fields & Hf & Hp). inversion Hp; subst.
  destruct (infer_fields_refine f HV items data F h [] fields Hd Hf)
    as (h' & [n0 Hev] & Hfr).
  exists h'. split; [|assumption].
  exists (S n0). intros n Hge. destruct n as [|n]; [lia|].
  simpl. unfold Store.bindS at 1. rewrite (load_dict_eq _ _ _ Hl).
  unfold Store.bindS at 1. rewrite Hev by lia. reflexivity.
Qed.

Lemma list_refines_step (f : nat) :
  dict_refines set_iter f -> list_refines set_iter f -> list_refines set_iter (S f).
Proof.
  intros HD HL h l ts F s Hlst Hp.
  pose proof Hlst as (vs & Hl & Hrs & Hnl).
  pose proof (reprs_length _ _ _ _ Hrs) as Hlen.
  destruct ts as [|t0 ts0].
  { destruct vs; [|discriminate]. simpl in Hp. inversion Hp; subst.
    exists h. split; [|apply frame_refl].
    exists 1. intros n Hn. destruct n as [|n]; [lia|].
    simpl. unfold Store.bindS at 1. now rewrite (load_list_eq _ _ _ Hl). }
  destruct vs as [|v0 vs0]; [discriminate|].
  remember (t0 :: ts0) as ts eqn:Ets.
  assert (Hpre : forall n,
    Store.infer_list_schema set_iter (S n) l h
    = if (1 <? length (extract_unique_types set_iter ts))%nat
      then Store.Done (SList (map SKind (extract_unique_types set_iter ts))) h
      else
        Store.bindS (Store.index0 (extract_unique_types set_iter ts))
          (fun t0 =>
             if String.eqb t0 "dict" then
               Store.bindS (Store.merge_nested_dicts n l)
                 (fun merged =>
                    Store.bindS (Store.infer_dict_schema set_iter n merged)
                      (fun s => Store.ret (SList [s])))
             else if String.eqb t0 "list" then
               Store.bindS (Store.chain_from_iterable l)
                 (fun flat =>
                    Store.bindS (Store.infer_list_schema set_iter n flat)
                      (fun s => Store.ret (SList [s])))
             else Store.ret (SList [SKind t0])) h).
  { intros n. simpl. unfold Store.bindS at 1. rewrite (load_list_eq _ _ _ Hl).
    unfold Store.bindS at 1.
    rewrite (extract_unique_types_refines set_iter _ _ _ _ Hlst).
    destruct (1 <? _)%nat; reflexivity. }
  assert (Hp' :
    (if (1 <? length (extract_unique_types set_iter ts))%nat
     then Ok (SList (map SKind (extract_unique_types set_iter ts)))
     else
       t0 <- index0 (extract_unique_types set_iter ts) ;;
       if String.eqb t0 "dict" then
         merged <- merge_nested_dicts f ts ;;
         s <- infer_dict_schema set_iter f merged ;;
         Ok (SList [s])
       else if String.eqb t0 "list" then
         flat <- chain_from_iterable ts ;;
         s <- infer_list_schema set_iter f flat ;;
         Ok (SList [s])
       else Ok (SList [SKind t0])) = Ok s).
  { rewrite Ets. rewrite Ets in Hp. exact Hp. }
  clear Hp Ets.
  destruct (1 <? length (extract_unique_types set_iter ts))%nat.
  { inversion Hp'; subst. exists h. split; [|apply frame_refl].
    exists 1. intros n Hn. destruct n as [|n]; [lia|]. now rewrite Hpre. }
  apply bind_Ok in Hp'. destruct Hp' as (name & Hidx & Hp').
  assert (Hidx' : Store.index0 (extract_unique_types set_iter ts) h
                  = Store.Done name h).
  { unfold index0 in Hidx. unfold Store.index0.
    destruct (extract_unique_types set_iter ts); [discriminate|].
    inversion Hidx; subst. reflexivity. }
  destruct (String.eqb name "dict") eqn:Ed.
  { apply bind_Ok in Hp'. destruct Hp' as (tm & Hm & Hp').
    apply bind_Ok in Hp'. destruct Hp' as (s1 & Hs1 & Hp').
    inversion Hp'; subst s.
    destruct (merge_nested_dicts_refines f h l ts F tm Hlst Hm)
      as (h1 & r & Fm & [n1 Hev1] & Hm1 & Hfr1 & Hw1).
    destruct (HD h1 r tm Fm s1 Hm1 Hs1) as (h2 & [n2 Hev2] & Hfr2).
    exists h2. split.
    - exists (S (max n1 n2)). intros n Hn. destruct n as [|n]; [lia|].
      rewrite Hpre. unfold Store.bindS at 1. rewrite Hidx', Ed.
      unfold Store.bindS at 1. rewrite Hev1 by lia.
      unfold Store.bindS at 1. rewrite Hev2 by lia. reflexivity.
    - apply (frame_trans _ h h1 h2 Fm); auto.
      intros x Hx. apply Hw1. clear - Hx. set_solver. }
  destruct (String.eqb name "list") eqn:El.
  { apply bind_Ok in Hp'. destruct Hp' as (flat_t & Hc & Hp').
    apply bind_Ok in Hp'. destruct Hp' as (s1 & Hs1 & Hp').
    inversion Hp'; subst s.
    destruct (chain_from_iterable_refines h l ts F flat_t Hlst Hc)
      as (h1 & F' & Hch & Hflat & Hfr1 & Hsub).
    destruct (HL h1 (length h) flat_t F' s1 Hflat Hs1) as (h2 & [n2 Hev2] & Hfr2).
    exists h2. split.
    - exists (S n2). intros n Hn. destruct n as [|n]; [lia|].
      rewrite Hpre. unfold Store.bindS at 1. rewrite Hidx', Ed, El.
      unfold Store.bindS at 1. rewrite Hch.
      unfold Store.bindS at 1. rewrite Hev2 by lia. reflexivity.
    - apply (frame_trans_same _ h h1 h2).
      + eapply frame_weaken; [exact Hfr1 | clear; set_solver].
      + eapply frame_weaken; [exact Hfr2 | exact Hsub]. }
  inversion Hp'; subst s. exists h. split; [|apply frame_refl].
  exists 1. intros n Hn. destruct n as [|n]; [lia|].
  rewrite Hpre. unfold Store.bindS at 1. now rewrite Hidx', Ed, El.
Qed.

Lemma value_refines_step (f : nat) :
  dict_refines set_iter f -> list_refines set_iter f -> value_refines set_iter (S f).
Proof.
  intros HD HL h v t F s Hr Hp.
  assert (Hpre : forall n,
    Store.infer_schema set_iter (S n) v h
    = match v with
      | Store.VRef l =>
          if isinstance_list t then Store.infer_list_schema set_iter n l h
          else Store.infer_dict_schema set_iter n l h
      | Store.VNone => Store.Done SNone h
      | _ => Store.Done (SKind (type_name t)) h
      end).
  { intros n. simpl. unfold Store.bindS at 1.
    rewrite (repr_isinstance_list _ _ _ _ Hr).
    inversion Hr; subst; simpl; try reflexivity.
    all: unfold Store.bindS; simpl; rewrite H; reflexivity. }
  simpl in Hp.
  inversion Hr as [| | | | | |l vs ts F0 Hl Hrs Hn|l items titems F0 Hl Hd Hn];
    subst; simpl in Hp;
    try (inversion Hp; subst; exists h;
         split; [exists 1; intros n Hn; destruct n as [|n]; [lia|];
                 rewrite Hpre; reflexivity | apply frame_refl]).
  - destruct (HL h l ts F0 s) as (h' & [n0 Hev] & Hfr); auto.
    { exists vs. auto. }
    exists h'. split.
    + exists (S n0). intros n Hge. destruct n as [|n]; [lia|].
      rewrite Hpre. apply Hev. lia.
    + eapply frame_weaken; [exact Hfr | clear; set_solver].
  - destruct (HD h l titems F0 s) as (h' & [n0 Hev] & Hfr); auto.
    { exists items. auto. }
    exists h'. split.
    + exists (S n0). intros n Hge. destruct n as [|n]; [lia|].
      rewrite Hpre. apply Hev. lia.
    + eapply frame_weaken; [exact Hfr | clear; set_solver].
Qed.

Lemma all_refine (f : nat) :
  dict_refines set_iter f /\ list_refines set_iter f /\ value_refines set_iter f.
Proof.
  induction f as [|f (HD & HL & HV)].
  - repeat split; intros h x t F s _ Hp; discriminate.
  - pose proof (dict_refines_step f HV) as HD'.
    pose proof (list_refines_step f HD HL) as HL'.
    pose proof (value_refines_step f HD HL) as HV'.
    auto.
Qed.

End InferRefines.

(** *** Loading a document *)

Lemma pyval_induction (P : pyval -> Prop) :
  P PNone -> (forall b, P (PBool b)) -> (forall z, P (PInt z)) ->
  (forall f, P (PFloat f)) -> (forall s, P (PStr s)) ->
  (forall xs, Forall P xs -> P (PList xs)) ->
  (forall items, Forall (fun kv => P (snd kv)) items -> P (PDict items)) ->
  P PMixedType ->
  forall v, P v.
Proof.
  intros Hnone Hbool Hint Hfloat Hstr Hlist Hdict Hmixed.
  fix IH 1. intros v.
  destruct v as [|b|z|f|s|xs|items|];
    [exact Hnone | apply Hbool | apply Hint | apply Hfloat | apply Hstr
    | | | exact Hmixed].
  - apply Hlist. induction xs as [|x xs IHxs]; constructor.
    + apply IH.
    + exact IHxs.
  - apply Hdict. induction items as [|[k x] items IHitems]; constructor.
    + apply IH.
    + exact IHitems.
Qed.

Lemma frame_empty_trans h1 h2 h3 :
  frame ∅ h1 h2 -> frame ∅ h2 h3 -> frame ∅ h1 h3.
Proof. apply frame_trans_same. Qed.

Lemma alloc_list_loads (ts : list pyval) :
  Forall loads ts ->
  forall h, exists vs h' F,
    Store.mapS Store.alloc_tree ts h = Store.Done vs h'
    /\ reprs h' vs ts F
    /\ frame ∅ h h'
    /\ forall l, l ∈ F -> length h <= l.
Proof.
  induction 1 as [|t ts Ht _ IH]; intros h.
  - exists [], h, ∅. split; [reflexivity|]. split; [constructor|].
    split; [apply frame_refl | clear; set_solver].
  - destruct (Ht h) as (v & h1 & Fv & Hv & Hrv & Hfr1 & Hnew1).
    destruct (IH h1) as (vs & h2 & Fs & Hvs & Hrs & Hfr2 & Hnew2).
    pose proof (proj1 (repr_bounds h1) _ _ _ Hrv) as Hb1.
    exists (v :: vs), h2, (Fv ∪ Fs). split; [|split; [|split]].
    + simpl. unfold Store.bindS at 1. rewrite Hv.
      unfold Store.bindS at 1. fold (Store.mapS Store.alloc_tree).
      rewrite Hvs. reflexivity.
    + constructor; auto.
      * eapply repr_framed; [exact Hrv | exact Hfr2 | clear; set_solver].
      * intros l Hl1 Hl2. specialize (Hb1 l Hl1). specialize (Hnew2 l Hl2). lia.
    + eapply frame_empty_trans; eauto.
    + intros l Hl. destruct Hfr1 as [Hlen1 _].
      apply elem_of_union in Hl. destruct Hl as [Hl|Hl].
      * auto.
      * specialize (Hnew2 l Hl). lia.
Qed.

Lemma alloc_dict_loads (items : dict pyval) :
  Forall (fun kv => loads (snd kv)) items ->
  forall h, exists vs h' F,
    Store.mapS (fun kv => Store.bindS (Store.alloc_tree (snd kv))
                            (fun v => Store.ret (fst kv, v))) items h
    = Store.Done vs h'
    /\ reprd h' vs items F
    /\ frame ∅ h h'
    /\ forall l, l ∈ F -> length h <= l.
Proof.
  induction 1 as [|[k t] items Ht _ IH]; intros h.
  - exists [], h, ∅. split; [reflexivity|]. split; [constructor|].
    split; [apply frame_refl | clear; set_solver].
  - simpl in Ht.
    destruct (Ht h) as (v & h1 & Fv & Hv & Hrv & Hfr1 & Hnew1).
    destruct (IH h1) as (vs & h2 & Fs & Hvs & Hrs & Hfr2 & Hnew2).
    pose proof (proj1 (repr_bounds h1) _ _ _ Hrv) as Hb1.
    exists ((k, v) :: vs), h2, (Fv ∪ Fs). split; [|split; [|split]].
    + simpl. unfold Store.bindS at 1. unfold Store.bindS at 1. rewrite Hv.
      unfold Store.ret at 1. unfold Store.bindS at 1.
      fold (Store.mapS (fun kv : string * pyval =>
                          Store.bindS (Store.alloc_tree (snd kv))
                            (fun v => Store.ret (fst kv, v)))).
      rewrite Hvs. reflexivity.
    + constructor; auto.
      * eapply repr_framed; [exact Hrv | exact Hfr2 | clear; set_solver].
      * intros l Hl1 Hl2. specialize (Hb1 l Hl1). specialize (Hnew2 l Hl2). lia.
    + eapply frame_empty_trans; eauto.
    + intros l Hl. destruct Hfr1 as [Hlen1 _].
      apply elem_of_union in Hl. destruct Hl as [Hl|Hl].
      * auto.
      * specialize (Hnew2 l Hl). lia.
Qed.

Lemma alloc_tree_loads (t : pyval) : loads t.
Proof.
  induction t as [|b|z|f|s|xs IH|items IH|] using pyval_induction.
  1-5, 8: (intros h; eexists _, h, ∅; split; [reflexivity|];
           split; [constructor|]; split; [apply frame_refl | clear; set_solver]).
  - intros h.
    destruct (alloc_list_loads xs IH h) as (vs & h1 & F & Hvs & Hrs & Hfr & Hnew).
    pose proof (proj1 (proj2 (repr_bounds h1)) _ _ _ Hrs) as Hb.
    exists (Store.VRef (length h1)), (h1 ++ [Store.OList vs]), ({[length h1]} ∪ F).
    split; [|split; [|split]].
    + simpl. unfold Store.bindS at 1. rewrite Hvs. reflexivity.
    + apply (repr_list _ _ vs); [apply lookup_alloc| |].
      * eapply reprs_framed; [exact Hrs | apply frame_alloc | clear; set_solver].
      * intros Hin. specialize (Hb _ Hin). lia.
    + eapply frame_empty_trans; [exact Hfr | apply frame_alloc].
    + intros l Hl. destruct Hfr as [Hlen _].
      apply elem_of_union in Hl. destruct Hl as [Hl|Hl]; auto.
      apply elem_of_singleton in Hl. lia.
  - intros h.
    destruct (alloc_dict_loads items IH h) as (vs & h1 & F & Hvs & Hrs & Hfr & Hnew).
    pose proof (proj2 (proj2 (repr_bounds h1)) _ _ _ Hrs) as Hb.
    exists (Store.VRef (length h1)), (h1 ++ [Store.ODict vs]), ({[length h1]} ∪ F).
    split; [|split; [|split]].
    + simpl. unfold Store.bindS at 1. rewrite Hvs. reflexivity.
    + apply (repr_dict _ _ vs); [apply lookup_alloc| |].
      * eapply reprd_framed; [exact Hrs | apply frame_alloc | clear; set_solver].
      * intros Hin. specialize (Hb _ Hin). lia.
    + eapply frame_empty_trans; [exact Hfr | apply frame_alloc].
    + intros l Hl. destruct Hfr as [Hlen _].
      apply elem_of_union in Hl. destruct Hl as [Hl|Hl]; auto.
      apply elem_of_singleton in Hl. lia.
Qed.

(** ** The two models agree *)

(** Whatever [infer_schema] returns on a document as a tree, the
    program returns on the document loaded in the store. *)
Theorem store_refines_tree set_iter fuel document s :
  infer_schema set_iter fuel document = Ok s ->
  exists h, eventually (fun n => Store.infer_document set_iter n document) s h.
Proof.
  intros Hp.
  destruct (alloc_tree_loads document []) as (v & h0 & F & Hv & Hr & _ & _).
  destruct (all_refine set_iter fuel) as (_ & _ & HV).
  destruct (HV h0 v document F s Hr Hp) as (h & [n0 Hev] & _).
  exists h, n0. intros n Hn. unfold Store.infer_document, Store.bindS.
  rewrite Hv. now apply Hev.
Qed.

(** ** The claims about [infer_schema] *)

Section InferenceClaims.

Variable set_iter : list string -> list string.
Hypothesis set_iter_perm :
  forall names, Permutation (set_iter names) (nodup String.string_dec names).

Ltac one_type t :=
  rewrite (infer_list_schema_one set_iter set_iter_perm _ _ t);
  [|discriminate|repeat constructor];
  cbn -[infer_list_schema].

Ltac enter_list :=
  change (infer_schema set_iter (S ?f) (PList ?l))
    with (infer_list_schema set_iter f l).

(** With fuel enough, [infer_schema] returns a schema on every value,
    and the program over the store returns that schema too, when it
    has loaded the document. *)
Lemma tree_and_store_return (v : pyval) :
  exists s,
    (forall fuel, 2 * vsize v <= fuel ->
                  infer_schema set_iter fuel v = Ok s)
    /\ exists h fuel0,
         forall fuel, fuel0 <= fuel ->
                      Store.infer_document set_iter fuel v = Store.Done s h.
Proof.
  destruct (all_return set_iter set_iter_perm (vsize v)) as (_ & _ & HV).
  destruct (HV v) as (s & Hs); [lia|].
  exists s. split; [exact Hs|].
  destruct (store_refines_tree set_iter (2 * vsize v) v s) as (h & n0 & Hn0).
  - apply Hs. lia.
  - exists h, n0. exact Hn0.
Qed.

(** C3: a list against a value that is not a list, either way round,
    puts an instance of [MixedType] under the key; a key that holds
    one holds one to the end of the merge; and
    [infer([{"a": [1]}, {"a": 2}])] is a one-element list with the
    dictionary that has the name of [MixedType] under ["a"]. *)
Theorem mixed_type_is_kept :
  (forall rec merged key existing value,
     dict_get key merged = Some existing ->
     isinstance_list existing <> isinstance_list value ->
     merge_entry rec merged key value = Ok (dict_set key PMixedType merged))
  /\ (forall rec merged key value merged',
        dict_get key merged = Some PMixedType ->
        merge_entry rec merged key value = Ok merged' ->
        dict_get key merged' = Some PMixedType)
  /\ (forall first rest fuel0 m1 key,
        all_dicts (first ++ rest) ->
        merge_nested_dicts fuel0 first = Ok m1 ->
        dict_get key m1 = Some PMixedType ->
        exists m,
          (forall fuel, lsize (first ++ rest) < fuel ->
                        merge_nested_dicts fuel (first ++ rest) = Ok m)
          /\ dict_get key m = Some PMixedType)
  /\ (forall fuel, 4 <= fuel ->
        infer_schema set_iter fuel (PList doc_mixed)
        = Ok (SList [SDict [("a", SKind "MixedType")]])).
Proof.
  split; [exact merge_entry_mismatch|].
  split; [intros; eapply merge_entry_mixed_stays; eauto|].
  split; [exact merge_nested_dicts_mixed_persists|].
  intros fuel Hfuel. do 4 (destruct fuel as [|fuel]; [lia|]).
  unfold doc_mixed. enter_list. one_type "dict". reflexivity.
Qed.

(** C4: the keys of the dictionary inferred for a list of dictionaries
    are the keys of all of them, each once; a key that one dictionary
    alone has is among them.  [infer([{"a": 1}, {"b": "x"}])] is
    [[{"a": "int", "b": "str"}]]. *)
Theorem sibling_keys_are_united :
  (forall lst,
     lst <> [] -> all_dicts lst ->
     exists fields,
       (forall fuel, 2 * lsize lst <= fuel ->
                     infer_list_schema set_iter (S fuel) lst
                     = Ok (SList [SDict fields]))
       /\ NoDup (dict_keys fields)
       /\ forall k, In k (dict_keys fields)
                    <-> exists items, In (PDict items) lst
                                      /\ In k (dict_keys items))
  /\ (forall fuel, 4 <= fuel ->
        infer_schema set_iter fuel (PList doc_siblings)
        = Ok (SList [SDict [("a", SKind "int"); ("b", SKind "str")]])).
Proof.
  split.
  - intros lst Hne Hall.
    destruct (merge_nested_dicts_returns lst Hall) as (m & Hm & Hsize).
    assert (Hlen : 1 <= length lst) by (destruct lst; simpl; [congruence|lia]).
    destruct (all_return set_iter set_iter_perm (S (dsize m))) as (HD & _ & _).
    destruct (HD m) as (s & Hs); [lia|].
    pose proof (Hs (2 * lsize lst) ltac:(lia)) as Hs0.
    destruct (infer_dict_schema_keys _ _ _ _ Hs0) as (fields & -> & Hnd & Hkeys).
    exists fields. split; [|split; [assumption|]].
    + intros fuel Hfuel.
      rewrite (infer_list_schema_one set_iter set_iter_perm _ _ "dict");
        auto using all_dicts_names.
      rewrite String.eqb_refl, Hm by lia. simpl bind.
      rewrite Hs by lia. reflexivity.
    + intros k. rewrite Hkeys.
      apply (merge_nested_dicts_keys (S (lsize lst))). apply Hm. lia.
  - intros fuel Hfuel. do 4 (destruct fuel as [|fuel]; [lia|]).
    unfold doc_siblings. enter_list. one_type "dict". reflexivity.
Qed.

(** C5: a list whose elements have two type names or more gets the
    set of those names, each once, in the order the set gives them;
    one unit of fuel is enough, so no element is looked into.
    [infer([1, "a"])] is the set of ["int"] and ["str"]. *)
Theorem several_types_are_listed :
  (forall lst x y,
     In x lst -> In y lst -> type_name x <> type_name y ->
     exists types,
       Permutation types (nodup String.string_dec (map type_name lst))
       /\ forall fuel,
            infer_list_schema set_iter (S fuel) lst
            = Ok (SList (map SKind types)))
  /\ (exists types,
        Permutation types ["int"; "str"]
        /\ forall fuel,
             infer_schema set_iter (S (S fuel)) (PList doc_heterogeneous)
             = Ok (SList (map SKind types))).
Proof.
  assert (Hgen : forall lst x y,
             In x lst -> In y lst -> type_name x <> type_name y ->
             exists types,
               Permutation types (nodup String.string_dec (map type_name lst))
               /\ forall fuel,
                    infer_list_schema set_iter (S fuel) lst
                    = Ok (SList (map SKind types))).
  { intros lst x y Hx Hy Hne.
    exists (extract_unique_types set_iter lst). split.
    - apply set_iter_perm.
    - intros fuel.
      now apply (infer_list_schema_several set_iter set_iter_perm fuel lst x y). }
  split; [exact Hgen|].
  destruct (Hgen doc_heterogeneous (PInt 1) (PStr "a")
              ltac:(simpl; auto) ltac:(simpl; auto) ltac:(discriminate))
    as (types & Hperm & Htypes).
  exists types. split; [exact Hperm|].
  intros fuel. enter_list. apply Htypes.
Qed.

(** C6: for a list of lists, the inner lists are put end to end, in
    order, the result is inferred as one list, and the schema of that
    is wrapped in a one-element list.  [infer([[1, 2], [3]])] is
    [[["int"]]]. *)
Theorem nested_lists_are_flattened :
  (forall inner,
     inner <> [] ->
     exists s,
       forall fuel, 2 * S (lsize (concat inner)) <= S fuel ->
         infer_list_schema set_iter fuel (concat inner) = Ok s
         /\ infer_list_schema set_iter (S fuel) (map PList inner)
            = Ok (SList [s]))
  /\ (forall fuel, 3 <= fuel ->
        infer_schema set_iter fuel (PList doc_nested)
        = Ok (SList [SList [SKind "int"]])).
Proof.
  split.
  - intros inner Hne.
    destruct (all_return set_iter set_iter_perm (S (lsize (concat inner))))
      as (_ & HL & _).
    destruct (HL (concat inner)) as (s & Hs); [lia|].
    exists s. intros fuel Hfuel. split; [now apply Hs|].
    rewrite (infer_list_schema_one set_iter set_iter_perm _ _ "list").
    + change (String.eqb "list" "dict") with false.
      rewrite String.eqb_refl, chain_from_iterable_concat. simpl bind.
      now rewrite Hs.
    + destruct inner; [congruence | discriminate].
    + apply Forall_map. apply Forall_forall. reflexivity.
  - intros fuel Hfuel. do 3 (destruct fuel as [|fuel]; [lia|]).
    unfold doc_nested. enter_list. one_type "list". one_type "int".
    reflexivity.
Qed.

(** What [infer_list_schema] returns is a list. *)
Lemma infer_list_schema_is_list (fuel : nat) (lst : list pyval) (s : schema) :
  infer_list_schema set_iter fuel lst = Ok s -> exists l, s = SList l.
Proof.
  destruct fuel as [|fuel]; [discriminate|]. simpl.
  destruct lst as [|x lst]; [intros H; inversion H; eauto|].
  destruct (1 <? _)%nat; [intros H; inversion H; eauto|].
  intros H. apply bind_Ok in H. destruct H as (t0 & _ & H).
  destruct (String.eqb t0 "dict").
  { apply bind_Ok in H. destruct H as (m & _ & H).
    apply bind_Ok in H. destruct H as (s1 & _ & H). inversion H; eauto. }
  destruct (String.eqb t0 "list").
  { apply bind_Ok in H. destruct H as (m & _ & H).
    apply bind_Ok in H. destruct H as (s1 & _ & H). inversion H; eauto. }
  inversion H; eauto.
Qed.

(** C7, amended: two lists under one key are put end to end, the
    existing elements first; the schema under the key is inferred from
    that one list.  [infer([{"a": [1]}, {"a": [2, 3]}])] infers ["a"]
    from [[1, 2, 3]] and is the one-element list [[{"a": ["int"]}]]. *)
Theorem list_fields_are_concatenated :
  (forall rec merged key xs ys,
     dict_get key merged = Some (PList xs) ->
     merge_entry rec merged key (PList ys)
     = Ok (dict_set key (PList (xs ++ ys)) merged))
  /\ (forall key xs ys fuel,
        infer_list_schema set_iter (S (S (S fuel)))
          [PDict [(key, PList xs)]; PDict [(key, PList ys)]]
        = (s <- infer_list_schema set_iter fuel (xs ++ ys) ;;
           Ok (SList [SDict [(key, s)]])))
  /\ (forall fuel, 5 <= fuel ->
        infer_schema set_iter fuel (PList doc_list_fields)
        = Ok (SList [SDict [("a", SList [SKind "int"])]])).
Proof.
  split; [exact merge_entry_lists|]. split.
  - intros key xs ys fuel.
    rewrite (infer_list_schema_one set_iter set_iter_perm _ _ "dict");
      [|discriminate|repeat constructor].
    cbn -[infer_list_schema merge_entry].
    rewrite merge_entry_absent by reflexivity.
    cbn -[infer_list_schema merge_entry].
    erewrite merge_entry_lists
      by (simpl; rewrite String.eqb_refl; reflexivity).
    cbn -[infer_list_schema]. rewrite String.eqb_refl.
    cbn -[infer_list_schema].
    destruct (infer_list_schema set_iter fuel (xs ++ ys)); reflexivity.
  - intros fuel Hfuel. do 5 (destruct fuel as [|fuel]; [lia|]).
    unfold doc_list_fields. enter_list. one_type "dict". one_type "int".
    reflexivity.
Qed.

(** C10: in a list, [None] is a type name like the others.  A list of
    [None]s only gets [["NoneType"]]; a list with a [None] and an
    element of another type gets a set of names with ["NoneType"] in
    it; [[1, null]] gets the set of ["int"] and ["NoneType"]. *)
Theorem none_in_a_list_is_a_kind :
  (forall lst fuel,
     lst <> [] -> Forall (eq PNone) lst ->
     infer_schema set_iter (S (S fuel)) (PList lst)
     = Ok (SList [SKind "NoneType"]))
  /\ (forall lst x,
        In PNone lst -> In x lst -> type_name x <> "NoneType" ->
        exists types,
          (forall fuel, infer_schema set_iter (S (S fuel)) (PList lst)
                        = Ok (SList (map SKind types)))
          /\ In "NoneType" types /\ In (type_name x) types)
  /\ (exists types,
        Permutation types ["int"; "NoneType"]
        /\ forall fuel,
             infer_schema set_iter (S (S fuel)) (PList doc_with_null)
             = Ok (SList (map SKind types))).
Proof.
  split; [|split].
  - intros lst fuel Hne Hall. enter_list.
    rewrite (infer_list_schema_one set_iter set_iter_perm _ _ "NoneType");
      auto.
    revert Hall. apply Forall_impl. now intros x <-.
  - intros lst x Hnone Hx Hne.
    exists (extract_unique_types set_iter lst). split; [|split].
    + intros fuel. enter_list.
      apply (infer_list_schema_several set_iter set_iter_perm fuel lst x PNone);
        auto.
    + apply (set_iter_In set_iter set_iter_perm).
      now apply (in_map type_name _ PNone).
    + apply (set_iter_In set_iter set_iter_perm). now apply in_map.
  - exists (extract_unique_types set_iter doc_with_null). split.
    + apply set_iter_perm.
    + intros fuel. enter_list.
      apply (infer_list_schema_several set_iter set_iter_perm fuel
               doc_with_null (PInt 1) PNone); simpl; auto; discriminate.
Qed.

End InferenceClaims.

Lemma mixed_type_is_kept_witness :
  (forall names,
     Permutation (first_seen names) (nodup String.string_dec names))
  /\ merge_entry (merge_nested_dicts 0) [("a", PList [PInt 1])] "a" (PInt 2)
     = Ok [("a", PMixedType)]
  /\ (exists m,
        merge_nested_dicts 9 (doc_mixed ++ [PDict [("a", PList [PInt 7])]]) = Ok m
        /\ dict_get "a" m = Some PMixedType)
  /\ infer_schema first_seen 4 (PList doc_mixed)
     = Ok (SList [SDict [("a", SKind "MixedType")]]).
Proof.
  split; [intros; reflexivity|].
  destruct (mixed_type_is_kept first_seen (fun names => Permutation_refl _))
    as (H1 & _ & H3 & H4).
  split; [|split].
  - refine (H1 (merge_nested_dicts 0) [("a", PList [PInt 1])] "a"
              (PList [PInt 1]) (PInt 2) eq_refl _).
    discriminate.
  - destruct (H3 doc_mixed [PDict [("a", PList [PInt 7])]] 2
                [("a", PMixedType)] "a") as (m & Hm & Hget).
    + repeat constructor.
    + reflexivity.
    + reflexivity.
    + exists m. split; [apply Hm; vm_compute; lia | exact Hget].
  - apply H4. lia.
Defined.

Lemma sibling_keys_are_united_witness :
  (forall names,
     Permutation (first_seen names) (nodup String.string_dec names))
  /\ doc_siblings <> []
  /\ all_dicts doc_siblings
  /\ exists fields,
       infer_list_schema first_seen (S (2 * lsize doc_siblings)) doc_siblings
       = Ok (SList [SDict fields])
       /\ In "b" (dict_keys fields).
Proof.
  split; [intros; reflexivity|].
  split; [discriminate|].
  split; [repeat constructor|].
  destruct (proj1 (sibling_keys_are_united first_seen
                     (fun names => Permutation_refl _)) doc_siblings)
    as (fields & Hf & _ & Hkeys).
  - discriminate.
  - repeat constructor.
  - exists fields. split; [apply Hf; lia|].
    apply Hkeys. exists [("b", PStr "x")]. simpl. auto.
Defined.

Lemma several_types_are_listed_witness :
  (forall names,
     Permutation (first_seen names) (nodup String.string_dec names))
  /\ exists types,
       Permutation types ["dict"; "int"]
       /\ infer_list_schema first_seen 1
            [PDict [("a", PInt 1)]; PDict [("a", PInt 2)]; PInt 3]
          = Ok (SList (map SKind types)).
Proof.
  split; [intros; reflexivity|].
  destruct (proj1 (several_types_are_listed first_seen
                     (fun names => Permutation_refl _))
              [PDict [("a", PInt 1)]; PDict [("a", PInt 2)]; PInt 3]
              (PDict [("a", PInt 1)]) (PInt 3))
    as (types & Hperm & Htypes).
  - simpl; auto.
  - simpl; auto.
  - discriminate.
  - exists types. split; [exact Hperm | apply Htypes].
Defined.

Lemma nested_lists_are_flattened_witness :
  (forall names,
     Permutation (first_seen names) (nodup String.string_dec names))
  /\ exists s,
       infer_list_schema first_seen 7 [PInt 1; PInt 2; PInt 3] = Ok s
       /\ infer_list_schema first_seen 8 doc_nested = Ok (SList [s]).
Proof.
  split; [intros; reflexivity|].
  destruct (proj1 (nested_lists_are_flattened first_seen
                     (fun names => Permutation_refl _))
              [[PInt 1; PInt 2]; [PInt 3]])
    as (s & Hs); [discriminate|].
  exists s. apply (Hs 7). vm_compute. lia.
Defined.

Lemma list_fields_are_concatenated_witness :
  (forall names,
     Permutation (first_seen names) (nodup String.string_dec names))
  /\ merge_entry (merge_nested_dicts 0) [("a", PList [PInt 1])] "a"
       (PList [PInt 2; PInt 3])
     = Ok [("a", PList [PInt 1; PInt 2; PInt 3])]
  /\ infer_schema first_seen 5 (PList doc_list_fields)
     = Ok (SList [SDict [("a", SList [SKind "int"])]]).
Proof.
  split; [intros; reflexivity|].
  destruct (list_fields_are_concatenated first_seen
              (fun names => Permutation_refl _)) as (H1 & _ & H3).
  split.
  - exact (H1 (merge_nested_dicts 0) [("a", PList [PInt 1])] "a"
             [PInt 1] [PInt 2; PInt 3] eq_refl).
  - apply H3. lia.
Defined.

(** C7, as the specification has it, fails in its example: what
    [infer_schema] returns for [[{"a": [1]}, {"a": [2, 3]}]] is never
    the dictionary [{"a": ["int"]}] itself, whatever the order of sets
    and the fuel; it is a list. *)
Lemma list_fields_schema_is_not_a_dictionary :
  ~ (exists set_iter fuel,
       infer_schema set_iter fuel (PList doc_list_fields)
       = Ok (SDict [("a", SList [SKind "int"])])).
Proof.
  intros (set_iter & fuel & H).
  destruct fuel as [|fuel]; [discriminate|]. simpl in H.
  apply infer_list_schema_is_list in H. destruct H as (l & H). discriminate.
Qed.

Lemma none_in_a_list_is_a_kind_witness :
  (forall names,
     Permutation (first_seen names) (nodup String.string_dec names))
  /\ infer_schema first_seen 2 (PList [PNone; PNone])
     = Ok (SList [SKind "NoneType"])
  /\ exists types,
       infer_schema first_seen 2 (PList [PNone; PStr "s"])
       = Ok (SList (map SKind types))
       /\ In "NoneType" types /\ In "str" types.
Proof.
  split; [intros; reflexivity|].
  destruct (none_in_a_list_is_a_kind first_seen
              (fun names => Permutation_refl _)) as (H1 & H2 & _).
  split.
  - apply H1; [discriminate | repeat constructor].
  - destruct (H2 [PNone; PStr "s"] (PStr "s")) as (types & Ht & Hn & Hs).
    + simpl; auto.
    + simpl; auto.
    + discriminate.
    + exists types. split; [apply Ht | split; assumption].
Defined.

(** ** The store: [extend] writes to the document *)

Lemma one_name_first_eq (set_iter : list string -> list string) :
  (forall names,
     Permutation (set_iter names) (nodup String.string_dec names)) ->
  forall names, set_iter names = one_name_first set_iter names.
Proof.
  intros Hperm names. unfold one_name_first.
  destruct names as [|t rest]; [reflexivity|].
  destruct (forallb (String.eqb t) rest) eqn:Hall; [|reflexivity].
  apply set_iter_constant; [assumption | discriminate |].
  constructor; [reflexivity|].
  rewrite forallb_forall in Hall. apply Forall_forall.
  intros x Hx. specialize (Hall x Hx). now apply String.eqb_eq in Hall.
Qed.

Lemma foldS_ext {A B : Type} (f g : A -> B -> Store.M A) (l : list B) :
  (forall a b h, f a b h = g a b h) ->
  forall a h, Store.foldS f l a h = Store.foldS g l a h.
Proof.
  intros Hfg. induction l as [|b l IH]; intros a h; simpl; [reflexivity|].
  unfold Store.bindS. rewrite Hfg. destruct (g a b h); auto.
Qed.

(** [infer_schema] uses [set_iter] through its values only. *)
Lemma store_infer_ext (f g : list string -> list string) :
  (forall names, f names = g names) ->
  forall fuel,
    (forall obj h, Store.infer_schema f fuel obj h = Store.infer_schema g fuel obj h)
    /\ (forall data h, Store.infer_dict_schema f fuel data h
                       = Store.infer_dict_schema g fuel data h)
    /\ (forall lst h, Store.infer_list_schema f fuel lst h
                      = Store.infer_list_schema g fuel lst h).
Proof.
  intros Hfg. induction fuel as [|fuel (IHs & IHd & IHl)];
    [repeat split; reflexivity|].
  split; [|split].
  - intros obj h. simpl. unfold Store.bindS.
    destruct (Store.isinstance_list obj h) as [[|] h1| | |]; auto.
    + destruct obj; auto.
    + destruct (Store.isinstance_dict obj h1) as [[|] h2| | |]; auto.
      destruct obj; auto.
  - intros data h. simpl. unfold Store.bindS.
    destruct (Store.load_dict data h) as [items h1| | |]; auto.
    rewrite (foldS_ext _ (fun acc kv =>
                            Store.bindS (Store.infer_schema g fuel (snd kv))
                              (fun s => Store.ret (dict_set (fst kv) s acc)))).
    + reflexivity.
    + intros a b h2. unfold Store.bindS. now rewrite IHs.
  - intros lst h. simpl. unfold Store.bindS.
    destruct (Store.load_list lst h) as [[|x xs] h1| | |]; auto.
    unfold Store.extract_unique_types, Store.bindS.
    destruct (Store.load_list lst h1) as [ys h2| | |]; auto.
    destruct (Store.foldS _ ys [] h2) as [names h3| | |]; auto.
    unfold Store.ret. rewrite Hfg.
    destruct (1 <? length (g names))%nat; auto.
    destruct (Store.index0 (g names) h3) as [t0 h4| | |]; auto.
    destruct (String.eqb t0 "dict").
    { destruct (Store.merge_nested_dicts fuel lst h4) as [m h5| | |]; auto.
      now rewrite IHd. }
    destruct (String.eqb t0 "list"); auto.
    destruct (Store.chain_from_iterable lst h4) as [flat h5| | |]; auto.
    now rewrite IHl.
Qed.

Lemma store_run_ext (f g : list string -> list string) fuel document :
  (forall names, f names = g names) ->
  Store.run f fuel document = Store.run g fuel document.
Proof.
  intros Hfg. unfold Store.run, Store.bindS.
  destruct (Store.alloc_tree document []) as [v h| | |]; auto.
  destruct (Store.snapshot fuel v h) as [before h1| | |]; auto.
  now rewrite (proj1 (store_infer_ext f g Hfg fuel)).
Qed.

(** C2 fails on [[{"a": [1]}, {"a": [2, 3]}]]: the document is read back
    from the store as it was loaded before [infer_schema] runs, and with
    [[1, 2, 3]] under the ["a"] of its first object after; the list
    that [merged["a"]] refers to is the list of the document. *)
Theorem extend_changes_the_document :
  forall set_iter,
    (forall names,
       Permutation (set_iter names) (nodup String.string_dec names)) ->
    (exists h,
       Store.run set_iter 8 (PList doc_list_fields)
       = Store.Done (SList [SDict [("a", SList [SKind "int"])]],
                     Some (PList doc_list_fields),
                     Some (PList doc_list_fields_after)) h)
    /\ PList doc_list_fields_after <> PList doc_list_fields.
Proof.
  intros set_iter Hperm. split; [|discriminate].
  rewrite (store_run_ext set_iter (one_name_first set_iter));
    [|now apply one_name_first_eq].
  eexists. vm_compute. reflexivity.
Qed.

Lemma extend_changes_the_document_witness :
  (forall names,
     Permutation (first_seen names) (nodup String.string_dec names))
  /\ (exists h,
        Store.run first_seen 8 (PList doc_list_fields)
        = Store.Done (SList [SDict [("a", SList [SKind "int"])]],
                      Some (PList doc_list_fields),
                      Some (PList doc_list_fields_after)) h)
  /\ PList doc_list_fields_after <> PList doc_list_fields.
Proof.
  split; [intros; reflexivity|].
  apply (extend_changes_the_document first_seen). intros; reflexivity.
Defined.

(** The branch for two dictionaries, lines 38 and 39, builds a new
    dictionary and leaves the document as it was. *)
Lemma merged_dictionaries_are_new :
  forall set_iter,
    (forall names,
       Permutation (set_iter names) (nodup String.string_dec names)) ->
    exists h,
      Store.run set_iter 8 (PList doc_dict_fields)
      = Store.Done (SList [SDict [("a", SDict [("x", SKind "int");
                                                ("y", SKind "int")])]],
                    Some (PList doc_dict_fields),
                    Some (PList doc_dict_fields)) h.
Proof.
  intros set_iter Hperm.
  rewrite (store_run_ext set_iter (one_name_first set_iter));
    [|now apply one_name_first_eq].
  eexists. vm_compute. reflexivity.
Qed.

(** * Further properties *)

(** ** Keys are merged one by one *)

Lemma merge_entry_present rec merged key existing value :
  dict_get key merged = Some existing ->
  merge_entry rec merged key value
  = (v <- merge_value rec existing value ;; Ok (dict_set key v merged)).
Proof.
  intros Hget. unfold merge_entry, merge_value. rewrite Hget.
  destruct (isinstance_dict existing && isinstance_dict value).
  { destruct (rec [existing; value]); reflexivity. }
  destruct (isinstance_list existing && isinstance_list value); [reflexivity|].
  destruct (negb _); [reflexivity|].
  simpl. now rewrite dict_set_same.
Qed.

Lemma merge_entry_step rec merged key value merged' k :
  merge_entry rec merged key value = Ok merged' ->
  (if String.eqb k key then merge_step rec (dict_get k merged) value
   else Ok (dict_get k merged))
  = Ok (dict_get k merged').
Proof.
  intros H. destruct (String.eqb_spec k key) as [->|Hne].
  - destruct (dict_get key merged) as [existing|] eqn:Hget; simpl.
    + rewrite (merge_entry_present _ _ _ _ _ Hget) in H.
      apply bind_Ok in H. destruct H as (v & Hv & H). inversion H; subst.
      rewrite Hv. simpl. now rewrite dict_get_set_eq.
    + rewrite merge_entry_absent in H by assumption. inversion H; subst.
      now rewrite dict_get_set_eq.
  - now rewrite (merge_entry_other _ _ _ _ _ k H Hne).
Qed.

Lemma merge_items_steps rec k items : forall merged m,
  foldM (fun merged kv => merge_entry rec merged (fst kv) (snd kv))
    items merged = Ok m ->
  foldM (merge_step rec) (values_at k (PDict items)) (dict_get k merged)
  = Ok (dict_get k m).
Proof.
  induction items as [|[key v] items IH]; intros merged m H; simpl in H.
  - inversion H; subst. reflexivity.
  - apply bind_Ok in H. destruct H as (m1 & H1 & H). simpl in H1.
    pose proof (merge_entry_step _ _ _ _ _ k H1) as Hstep.
    specialize (IH _ _ H). simpl in *.
    destruct (String.eqb k key); simpl.
    + rewrite Hstep. simpl. exact IH.
    + inversion Hstep as [Heq]. rewrite Heq. exact IH.
Qed.

Lemma merge_dicts_steps rec k lst : forall merged m,
  foldM (merge_dict rec) lst merged = Ok m ->
  foldM (merge_step rec) (observed k lst) (dict_get k merged)
  = Ok (dict_get k m).
Proof.
  induction lst as [|d lst IH]; intros merged m H; simpl in H.
  - inversion H; subst. reflexivity.
  - apply bind_Ok in H. destruct H as (m1 & H1 & H).
    unfold merge_dict in H1. destruct d; try discriminate. simpl in H1.
    change (observed k (PDict items :: lst))
      with (values_at k (PDict items) ++ observed k lst).
    rewrite foldM_app, (merge_items_steps _ _ _ _ _ H1). simpl.
    apply (IH _ _ H).
Qed.

Lemma merge_nested_dicts_steps fuel lst m k :
  merge_nested_dicts (S fuel) lst = Ok m ->
  merge_values (merge_nested_dicts fuel) (observed k lst) = Ok (dict_get k m).
Proof. simpl. intros H. apply (merge_dicts_steps _ k _ _ _ H). Qed.

(** X1: the value that [merge_nested_dicts] leaves under a key is the
    result of merging, one after the other, the values that the
    dictionaries of the list hold under that key; what they hold under
    other keys plays no part. *)
Theorem merged_value_depends_on_its_key :
  forall lst, all_dicts lst ->
    exists m,
      (forall fuel, lsize lst < fuel -> merge_nested_dicts fuel lst = Ok m)
      /\ forall k fuel, lsize lst <= fuel ->
           merge_values (merge_nested_dicts fuel) (observed k lst)
           = Ok (dict_get k m).
Proof.
  intros lst Hall.
  destruct (merge_nested_dicts_returns lst Hall) as (m & Hm & _).
  exists m. split; [exact Hm|].
  intros k fuel Hfuel. apply merge_nested_dicts_steps. apply Hm. lia.
Qed.

(** *** Lists under a key *)

Lemma merge_steps_lists rec (ls : list (list pyval)) : forall xs,
  foldM (merge_step rec) (map PList ls) (Some (PList xs))
  = Ok (Some (PList (xs ++ concat ls))).
Proof.
  induction ls as [|ys ls IH]; intros xs; simpl.
  - now rewrite app_nil_r.
  - rewrite IH. now rewrite app_assoc.
Qed.

(** X2: when every dictionary that has the key holds a list under it,
    [merge_nested_dicts] leaves under the key the list of all their
    elements, in the order of the dictionaries. *)
Theorem lists_of_all_siblings_are_concatenated :
  forall lst k l0 ls,
    all_dicts lst ->
    observed k lst = map PList (l0 :: ls) ->
    exists m,
      (forall fuel, lsize lst < fuel -> merge_nested_dicts fuel lst = Ok m)
      /\ dict_get k m = Some (PList (concat (l0 :: ls))).
Proof.
  intros lst k l0 ls Hall Hobs.
  destruct (merge_nested_dicts_returns lst Hall) as (m & Hm & _).
  exists m. split; [exact Hm|].
  pose proof (merge_nested_dicts_steps (lsize lst) lst m k
                (Hm (S (lsize lst)) ltac:(lia))) as Hsteps.
  unfold merge_values in Hsteps. rewrite Hobs in Hsteps.
  simpl in Hsteps. rewrite merge_steps_lists in Hsteps.
  inversion Hsteps as [Heq]. reflexivity.
Qed.

(** *** [MixedType] under a key *)

Lemma merge_steps_some rec obs : forall st r,
  foldM (merge_step rec) obs (Some st) = Ok r -> exists st', r = Some st'.
Proof.
  induction obs as [|v obs IH]; intros st r H; simpl in H.
  - inversion H; eauto.
  - apply bind_Ok in H. destruct H as (st1 & H1 & H).
    apply bind_Ok in H1. destruct H1 as (v1 & _ & H1). inversion H1; subst.
    eauto.
Qed.

Lemma merge_value_shape rec existing value v :
  is_mixed value = false ->
  merge_value rec existing value = Ok v ->
  if is_mixed existing then v = PMixedType
  else if isinstance_list existing then
    (if isinstance_list value then isinstance_list v = true
     else v = PMixedType)
  else
    (if isinstance_list value then v = PMixedType
     else isinstance_list v = false /\ is_mixed v = false).
Proof.
  intros Hv. unfold merge_value.
  destruct existing, value; simpl in *; try discriminate;
    intros H; try (inversion H; subst; auto; fail).
  apply bind_Ok in H. destruct H as (m & _ & H). inversion H; auto.
Qed.

Lemma merge_steps_shape rec obs : forall st st',
  Forall (fun v => is_mixed v = false) obs ->
  foldM (merge_step rec) obs (Some st) = Ok (Some st') ->
  if is_mixed st then st' = PMixedType
  else if isinstance_list st then
    (if existsb (fun v => negb (isinstance_list v)) obs then st' = PMixedType
     else isinstance_list st' = true)
  else
    (if existsb isinstance_list obs then st' = PMixedType
     else isinstance_list st' = false /\ is_mixed st' = false).
Proof.
  induction obs as [|v obs IH]; intros st st' Hall H; simpl in H.
  - inversion H; subst. simpl.
    destruct st'; simpl; auto.
  - inversion Hall as [|? ? Hv Hall']; subst.
    apply bind_Ok in H. destruct H as (st1 & H1 & H).
    apply bind_Ok in H1. destruct H1 as (v1 & Hv1 & H1). inversion H1; subst.
    pose proof (merge_value_shape _ _ _ _ Hv Hv1) as Hshape.
    specialize (IH _ _ Hall' H). simpl.
    destruct (is_mixed st).
    { subst v1. exact IH. }
    destruct (isinstance_list st), (isinstance_list v); simpl.
    + destruct v1; try discriminate. exact IH.
    + subst v1. simpl in IH. exact IH.
    + subst v1. simpl in IH. exact IH.
    + destruct Hshape as [Hl Hm]. rewrite Hm, Hl in IH. exact IH.
Qed.

(** X3: in a list of dictionaries that hold no [MixedType] instance
    under a key, [merge_nested_dicts] leaves one under that key exactly
    when one dictionary holds a list under it and another a value that
    is not a list. *)
Theorem mixed_exactly_when_lists_meet_other_values :
  forall lst k,
    all_dicts lst ->
    Forall (fun v => is_mixed v = false) (observed k lst) ->
    exists m,
      (forall fuel, lsize lst < fuel -> merge_nested_dicts fuel lst = Ok m)
      /\ (dict_get k m = Some PMixedType
          <-> existsb isinstance_list (observed k lst)
              && existsb (fun v => negb (isinstance_list v)) (observed k lst)
              = true).
Proof.
  intros lst k Hall Hclean.
  destruct (merge_nested_dicts_returns lst Hall) as (m & Hm & _).
  exists m. split; [exact Hm|].
  pose proof (merge_nested_dicts_steps (lsize lst) lst m k
                (Hm (S (lsize lst)) ltac:(lia))) as Hsteps.
  unfold merge_values in Hsteps.
  destruct (observed k lst) as [|v0 rest].
  { simpl in Hsteps. inversion Hsteps as [Heq]. simpl.
    split; discriminate. }
  inversion Hclean as [|? ? Hv0 Hrest]; subst.
  simpl in Hsteps.
  destruct (merge_steps_some _ _ _ _ Hsteps) as (st' & Hst').
  rewrite Hst' in Hsteps.
  pose proof (merge_steps_shape _ _ _ _ Hrest Hsteps) as Hshape.
  rewrite Hv0 in Hshape. rewrite Hst'. simpl.
  destruct (isinstance_list v0); simpl.
  - destruct (existsb (fun v => negb (isinstance_list v)) rest).
    + subst st'. split; auto.
    + split; [|discriminate]. intros Heq. inversion Heq; subst. discriminate.
  - destruct (existsb isinstance_list rest).
    + subst st'. split; auto.
    + destruct Hshape as [_ Hm']. split; [|discriminate].
      intros Heq. inversion Heq; subst. discriminate.
Qed.

(** *** One dictionary, and a key that is not one *)

Lemma merge_items_copy rec items : forall acc,
  NoDup (dict_keys acc ++ dict_keys items) ->
  foldM (fun merged kv => merge_entry rec merged (fst kv) (snd kv)) items acc
  = Ok (acc ++ items).
Proof.
  induction items as [|[k v] items IH]; intros acc Hnd; simpl.
  - now rewrite app_nil_r.
  - assert (Hget : dict_get k acc = None).
    { destruct (dict_get k acc) as [x|] eqn:E; [|reflexivity].
      exfalso. apply NoDup_remove_2 in Hnd. apply Hnd.
      apply in_or_app. left. apply dict_get_keys. eauto. }
    rewrite merge_entry_absent by assumption. simpl.
    rewrite dict_set_absent by assumption.
    rewrite IH.
    + now rewrite <- app_assoc.
    + unfold dict_keys in *. rewrite map_app. simpl.
      rewrite <- app_assoc. exact Hnd.
Qed.

Lemma merge_dict_copy rec items :
  NoDup (dict_keys items) -> merge_dict rec [] (PDict items) = Ok items.
Proof. intros Hnd. unfold merge_dict. simpl. now apply merge_items_copy. Qed.

(** X4: [merge_nested_dicts] raises [AttributeError] on a list in which
    a value that is not a dictionary comes after dictionaries only,
    whatever comes after it. *)
Theorem merge_raises_on_a_value_that_is_no_dictionary :
  forall before x after,
    all_dicts before -> isinstance_dict x = false ->
    forall fuel, lsize before < fuel ->
      merge_nested_dicts fuel (before ++ x :: after) = Raise AttributeError.
Proof.
  intros before x after Hall Hx fuel Hfuel.
  destruct (merge_nested_dicts_returns before Hall) as (m & Hm & _).
  specialize (Hm fuel Hfuel).
  destruct fuel as [|fuel]; [lia|]. simpl in *.
  rewrite foldM_app, Hm. simpl.
  unfold merge_dict at 1. destruct x; try discriminate; reflexivity.
Qed.

(** *** Dictionaries under a key *)

Lemma merge_dict_NoDup rec merged d merged' :
  merge_dict rec merged d = Ok merged' ->
  NoDup (dict_keys merged) -> NoDup (dict_keys merged').
Proof.
  unfold merge_dict. destruct (dict_items d) as [items| |]; simpl;
    try discriminate.
  intros H Hnd. revert H.
  apply (foldM_invariant (fun m => NoDup (dict_keys m))); auto.
  intros b kv b' _ Hb Hstep. eapply merge_entry_NoDup; eauto.
Qed.

Lemma merge_value_dicts fuel acc b :
  NoDup (dict_keys acc) ->
  merge_value (merge_nested_dicts (S fuel)) (PDict acc) (PDict b)
  = (m <- merge_dict (merge_nested_dicts fuel) acc (PDict b) ;; Ok (PDict m)).
Proof.
  intros Hnd.
  change (merge_value (merge_nested_dicts (S fuel)) (PDict acc) (PDict b))
    with (m <- (a1 <- merge_dict (merge_nested_dicts fuel) [] (PDict acc) ;;
                a2 <- merge_dict (merge_nested_dicts fuel) a1 (PDict b) ;;
                Ok a2) ;;
          Ok (PDict m)).
  rewrite merge_dict_copy by assumption. simpl.
  destruct (merge_dict (merge_nested_dicts fuel) acc (PDict b)); reflexivity.
Qed.

(** Merging the dictionaries under a key two by two is merging them
    all. *)
Lemma merge_steps_dicts fuel rest : forall acc,
  NoDup (dict_keys acc) -> all_dicts rest ->
  foldM (merge_step (merge_nested_dicts (S fuel))) rest (Some (PDict acc))
  = (m <- foldM (merge_dict (merge_nested_dicts fuel)) rest acc ;;
     Ok (Some (PDict m))).
Proof.
  induction rest as [|d rest IH]; intros acc Hnd Hall; [reflexivity|].
  inversion Hall as [|? ? Hd Hall']; subst.
  destruct d as [| | | | | |b|]; try discriminate.
  cbn [foldM merge_step]. rewrite merge_value_dicts by assumption.
  destruct (merge_dict (merge_nested_dicts fuel) acc (PDict b)) as [acc'| |] eqn:E;
    simpl; try reflexivity.
  apply IH; [|assumption]. eapply merge_dict_NoDup; eauto.
Qed.

(** X5: when every dictionary that has the key holds a dictionary under
    it, [merge_nested_dicts] leaves under the key what
    [merge_nested_dicts] returns for the list of those dictionaries. *)
Theorem dictionaries_under_a_key_are_merged :
  forall lst k d1 rest,
    all_dicts lst ->
    observed k lst = PDict d1 :: rest ->
    all_dicts rest ->
    NoDup (dict_keys d1) ->
    exists m mk,
      (forall fuel, lsize lst < fuel -> merge_nested_dicts fuel lst = Ok m)
      /\ (forall fuel, lsize (observed k lst) < fuel ->
            merge_nested_dicts fuel (observed k lst) = Ok mk)
      /\ dict_get k m = Some (PDict mk).
Proof.
  intros lst k d1 rest Hall Hobs Hrest Hnd.
  destruct (merge_nested_dicts_returns lst Hall) as (m & Hm & _).
  assert (Hallobs : all_dicts (observed k lst)).
  { rewrite Hobs. constructor; [reflexivity | assumption]. }
  destruct (merge_nested_dicts_returns _ Hallobs) as (mk & Hmk & _).
  exists m, mk. split; [exact Hm|]. split; [exact Hmk|].
  remember (lsize lst + lsize (observed k lst)) as f eqn:Ef.
  pose proof (merge_nested_dicts_steps (S f) lst m k
                (Hm (S (S f)) ltac:(lia))) as Hsteps.
  specialize (Hmk (S f) ltac:(lia)).
  unfold merge_values in Hsteps. rewrite Hobs in Hsteps, Hmk.
  cbn [foldM merge_step bind] in Hsteps.
  change (merge_nested_dicts (S f) (PDict d1 :: rest))
    with (a <- merge_dict (merge_nested_dicts f) [] (PDict d1) ;;
          foldM (merge_dict (merge_nested_dicts f)) rest a) in Hmk.
  rewrite merge_dict_copy in Hmk by assumption. cbn [bind] in Hmk.
  rewrite (merge_steps_dicts f rest d1 Hnd Hrest), Hmk in Hsteps.
  cbn [bind] in Hsteps.
  inversion Hsteps as [Hget]. reflexivity.
Qed.

(** *** The order of the keys *)

Lemma dict_keys_set_order {V : Type} key (v : V) (d : dict V) :
  dict_keys (dict_set key v d) = add_key (dict_keys d) key.
Proof.
  unfold add_key, dict_keys. induction d as [|[k w] d IH]; simpl.
  - reflexivity.
  - destruct (String.eqb key k); simpl; [reflexivity|].
    rewrite IH. destruct (existsb (String.eqb key) (map fst d)); reflexivity.
Qed.

Lemma add_key_present {V : Type} key (v : V) (d : dict V) :
  dict_get key d = Some v -> add_key (dict_keys d) key = dict_keys d.
Proof.
  unfold add_key, dict_keys. induction d as [|[k w] d IH]; simpl;
    [discriminate|].
  destruct (String.eqb key k); simpl; [reflexivity|].
  intros H. specialize (IH H).
  destruct (existsb (String.eqb key) (map fst d)); [reflexivity|].
  exfalso. apply (f_equal (@length string)) in IH.
  rewrite length_app in IH. simpl in IH. lia.
Qed.

Lemma merge_entry_keys_order rec merged key value merged' :
  merge_entry rec merged key value = Ok merged' ->
  dict_keys merged' = add_key (dict_keys merged) key.
Proof.
  unfold merge_entry. intros H.
  destruct (dict_get key merged) as [existing|] eqn:Hget.
  - destruct (isinstance_dict existing && isinstance_dict value).
    { apply bind_Ok in H. destruct H as (m & _ & H).
      inversion H; subst. apply dict_keys_set_order. }
    destruct (isinstance_list existing && isinstance_list value).
    { inversion H; subst. apply dict_keys_set_order. }
    destruct (negb _); inversion H; subst.
    + apply dict_keys_set_order.
    + symmetry. eapply add_key_present; eauto.
  - inversion H; subst. apply dict_keys_set_order.
Qed.

Lemma merge_items_keys_order rec items : forall merged m,
  foldM (fun merged kv => merge_entry rec merged (fst kv) (snd kv))
    items merged = Ok m ->
  dict_keys m = fold_left add_key (dict_keys items) (dict_keys merged).
Proof.
  induction items as [|[key v] items IH]; intros merged m H; simpl in H.
  - inversion H; subst. reflexivity.
  - apply bind_Ok in H. destruct H as (m1 & H1 & H). simpl in H1.
    rewrite (IH _ _ H), (merge_entry_keys_order _ _ _ _ _ H1). reflexivity.
Qed.

Lemma merge_dicts_keys_order rec lst : forall merged m,
  foldM (merge_dict rec) lst merged = Ok m ->
  dict_keys m = fold_left add_key (flat_map keys_of lst) (dict_keys merged).
Proof.
  induction lst as [|d lst IH]; intros merged m H; simpl in H.
  - inversion H; subst. reflexivity.
  - apply bind_Ok in H. destruct H as (m1 & H1 & H).
    unfold merge_dict in H1. destruct d; try discriminate. simpl in H1.
    simpl. rewrite fold_left_app.
    rewrite (IH _ _ H), (merge_items_keys_order _ _ _ _ H1). reflexivity.
Qed.

Lemma add_key_absent keys key :
  ~ In key keys -> add_key keys key = keys ++ [key].
Proof.
  intros Hnot. unfold add_key.
  destruct (existsb (String.eqb key) keys) eqn:E; [|reflexivity].
  apply existsb_exists in E. destruct E as (x & Hx & Heq).
  apply String.eqb_eq in Heq. subst. contradiction.
Qed.

Lemma fold_add_key_NoDup keys : forall acc,
  NoDup (acc ++ keys) -> fold_left add_key keys acc = acc ++ keys.
Proof.
  induction keys as [|k keys IH]; intros acc Hnd; simpl.
  - now rewrite app_nil_r.
  - rewrite add_key_absent.
    + rewrite IH; [now rewrite <- app_assoc|].
      rewrite <- app_assoc. exact Hnd.
    + apply NoDup_remove_2 in Hnd. intros Hin. apply Hnd.
      apply in_or_app. now left.
Qed.

Lemma infer_fields_keys_order set_iter fuel data : forall acc fields,
  foldM (fun acc kv =>
           s <- infer_schema set_iter fuel (snd kv) ;;
           Ok (dict_set (fst kv) s acc)) data acc = Ok fields ->
  dict_keys fields = fold_left add_key (dict_keys data) (dict_keys acc).
Proof.
  induction data as [|[key v] data IH]; intros acc fields H; simpl in H.
  - inversion H; subst. reflexivity.
  - apply bind_Ok in H. destruct H as (acc' & H1 & H).
    apply bind_Ok in H1. destruct H1 as (s & _ & H1). simpl in H1.
    inversion H1; subst acc'.
    rewrite (IH _ _ H), dict_keys_set_order. reflexivity.
Qed.

(** ** More about [infer_schema] *)

Lemma dict_get_fields {Q : pyval -> schema -> Prop} (data : dict pyval)
  (fields : dict schema) k v :
  Forall2 (fun kv ks => fst ks = fst kv /\ Q (snd kv) (snd ks)) data fields ->
  dict_get k data = Some v ->
  exists s, dict_get k fields = Some s /\ Q v s.
Proof.
  induction 1 as [|[k1 v1] [k2 s2] data fields [Hk HQ] _ IH]; simpl;
    [discriminate|].
  simpl in Hk. subst k2. destruct (String.eqb k k1).
  - intros H. inversion H; subst. eauto.
  - exact IH.
Qed.

Lemma infer_fields_nodup set_iter fuel data : forall acc fields,
  NoDup (dict_keys acc ++ dict_keys data) ->
  foldM (fun acc kv =>
           s <- infer_schema set_iter fuel (snd kv) ;;
           Ok (dict_set (fst kv) s acc)) data acc = Ok fields ->
  exists new,
    fields = acc ++ new
    /\ Forall2 (fun kv ks => fst ks = fst kv
                             /\ infer_schema set_iter fuel (snd kv) = Ok (snd ks))
         data new.
Proof.
  induction data as [|[k v] data IH]; intros acc fields Hnd H; simpl in H.
  - inversion H; subst. exists []. split; [now rewrite app_nil_r | constructor].
  - apply bind_Ok in H. destruct H as (acc' & H1 & H).
    apply bind_Ok in H1. destruct H1 as (s & Hs & H1). simpl in Hs, H1.
    inversion H1; subst acc'.
    assert (Hget : dict_get k acc = None).
    { destruct (dict_get k acc) as [x|] eqn:E; [|reflexivity].
      exfalso. apply NoDup_remove_2 in Hnd. apply Hnd.
      apply in_or_app. left. apply dict_get_keys. eauto. }
    rewrite dict_set_absent in H by assumption.
    assert (Hnd' : NoDup (dict_keys (acc ++ [(k, s)]) ++ dict_keys data)).
    { unfold dict_keys in *. rewrite map_app. simpl.
      rewrite <- app_assoc. exact Hnd. }
    destruct (IH _ _ Hnd' H) as (new & Hnew & Hall).
    exists ((k, s) :: new). split.
    + rewrite Hnew. now rewrite <- app_assoc.
    + constructor; [split; [reflexivity | exact Hs] | exact Hall].
Qed.

Lemma infer_dict_schema_fields set_iter fuel data s :
  NoDup (dict_keys data) ->
  infer_dict_schema set_iter (S fuel) data = Ok s ->
  exists fields,
    s = SDict fields
    /\ Forall2 (fun kv ks => fst ks = fst kv
                             /\ infer_schema set_iter fuel (snd kv) = Ok (snd ks))
         data fields.
Proof.
  intros Hnd H. simpl in H. apply bind_Ok in H. destruct H as (fields & Hf & H).
  inversion H; subst.
  destruct (infer_fields_nodup set_iter fuel data [] fields Hnd Hf)
    as (new & -> & Hall).
  exists new. auto.
Qed.

Lemma scalar_schema_returned set_iter fuel v s :
  scalar_like v -> infer_schema set_iter fuel v = Ok s -> s = scalar_schema v.
Proof.
  intros [Hd Hl] H. destruct fuel as [|fuel]; [discriminate|].
  destruct v; simpl in *; try discriminate; now inversion H.
Qed.

Lemma Forall_dict_set {V : Type} (P : string * V -> Prop) k v (d : dict V) :
  (forall k', P (k', v)) -> Forall P d -> Forall P (dict_set k v d).
Proof.
  intros Hv. induction 1 as [|[k1 v1] d H1 Hd IH]; simpl.
  - constructor; auto.
  - destruct (String.eqb k k1); constructor; auto.
Qed.

Lemma fsize_set key s (d : dict schema) :
  fsize (dict_set key s d) <= fsize d + ssize s.
Proof.
  unfold fsize. induction d as [|[k v] d IH]; simpl; [lia|].
  destruct (String.eqb key k); simpl; lia.
Qed.

Lemma infer_fields_size set_iter fuel data :
  (forall v s, infer_schema set_iter fuel v = Ok s -> ssize s <= vsize v) ->
  forall acc fields,
    foldM (fun acc kv =>
             s <- infer_schema set_iter fuel (snd kv) ;;
             Ok (dict_set (fst kv) s acc)) data acc = Ok fields ->
    fsize fields <= fsize acc + dsize data.
Proof.
  intros Hv. induction data as [|[k v] data IH]; intros acc fields H;
    simpl in H.
  - inversion H; subst. lia.
  - apply bind_Ok in H. destruct H as (acc' & H1 & H).
    apply bind_Ok in H1. destruct H1 as (s & Hs & H1). simpl in Hs, H1.
    inversion H1; subst acc'. apply IH in H. apply Hv in Hs.
    pose proof (fsize_set k s acc). unfold dsize in *. simpl. lia.
Qed.

Lemma merge_dicts_are_dicts rec lst : forall acc m,
  foldM (merge_dict rec) lst acc = Ok m -> all_dicts lst.
Proof.
  induction lst as [|d lst IH]; intros acc m H; [constructor|].
  simpl in H. apply bind_Ok in H. destruct H as (acc' & H1 & H).
  constructor; [|exact (IH _ _ H)].
  unfold merge_dict in H1. destruct d; simpl in H1; try discriminate.
  reflexivity.
Qed.

Lemma merge_nested_dicts_are_dicts fuel lst m :
  merge_nested_dicts fuel lst = Ok m -> all_dicts lst.
Proof.
  destruct fuel; [discriminate|]. apply merge_dicts_are_dicts.
Qed.

Lemma merge_nested_dicts_size fuel lst m :
  merge_nested_dicts fuel lst = Ok m -> dsize m + length lst <= lsize lst.
Proof.
  intros H. pose proof (merge_nested_dicts_are_dicts _ _ _ H) as Hall.
  destruct (merge_nested_dicts_returns lst Hall) as (m' & Hm' & Hsize).
  specialize (Hm' (fuel + S (lsize lst)) ltac:(lia)).
  rewrite (merge_nested_dicts_mono fuel (fuel + S (lsize lst)) lst m) in Hm'
    by (lia || assumption).
  now inversion Hm'; subst.
Qed.

Lemma length_le_lsize (lst : list pyval) : length lst <= lsize lst.
Proof.
  unfold lsize. induction lst as [|x lst IH]; simpl; [lia|].
  pose proof (vsize_pos x). lia.
Qed.

Section InferenceExtras.

Variable set_iter : list string -> list string.
Hypothesis set_iter_perm :
  forall names, Permutation (set_iter names) (nodup String.string_dec names).

Lemma infer_schema_returns (v : pyval) :
  exists s, forall fuel, 2 * vsize v <= fuel ->
                         infer_schema set_iter fuel v = Ok s.
Proof.
  destruct (all_return set_iter set_iter_perm (vsize v)) as (_ & _ & HV).
  apply HV. lia.
Qed.

(** A list of dictionaries: the merge, and the schema of the merge. *)
Lemma infer_list_of_dicts (lst : list pyval) :
  lst <> [] -> all_dicts lst ->
  exists m fields,
    (forall fuel, lsize lst < fuel -> merge_nested_dicts fuel lst = Ok m)
    /\ (forall fuel, 2 * lsize lst <= S fuel ->
          infer_dict_schema set_iter fuel m = Ok (SDict fields))
    /\ (forall fuel, 2 * lsize lst <= fuel ->
          infer_list_schema set_iter (S fuel) lst = Ok (SList [SDict fields])).
Proof.
  intros Hne Hall.
  destruct (merge_nested_dicts_returns lst Hall) as (m & Hm & Hsize).
  assert (Hlen : 1 <= length lst) by (destruct lst; simpl; [congruence|lia]).
  destruct (all_return set_iter set_iter_perm (S (dsize m))) as (HD & _ & _).
  destruct (HD m) as (s & Hs); [lia|].
  pose proof (Hs (2 * lsize lst) ltac:(lia)) as Hs0.
  destruct (infer_dict_schema_keys _ _ _ _ Hs0) as (fields & -> & _ & _).
  exists m, fields. split; [exact Hm|]. split.
  - intros fuel Hfuel. apply Hs. lia.
  - intros fuel Hfuel.
    rewrite (infer_list_schema_one set_iter set_iter_perm _ _ "dict");
      auto using all_dicts_names.
    rewrite String.eqb_refl, Hm by lia. simpl bind.
    rewrite Hs by lia. reflexivity.
Qed.

(** X6: the dictionary inferred for a list of dictionaries has their
    keys in the order in which they first appear in the list. *)
Theorem schema_keys_are_in_order_of_first_appearance :
  forall lst,
    lst <> [] -> all_dicts lst ->
    exists fields,
      (forall fuel, 2 * lsize lst <= fuel ->
         infer_list_schema set_iter (S fuel) lst = Ok (SList [SDict fields]))
      /\ dict_keys fields = first_appearance (flat_map keys_of lst).
Proof.
  intros lst Hne Hall.
  destruct (infer_list_of_dicts lst Hne Hall) as (m & fields & Hm & Hd & Hl).
  exists fields. split; [exact Hl|].
  specialize (Hm (S (lsize lst)) ltac:(lia)).
  specialize (Hd (2 * lsize lst) ltac:(lia)).
  pose proof (merge_nested_dicts_NoDup _ _ _ Hm) as Hnd.
  assert (Hpos : 1 <= lsize lst).
  { destruct lst as [|x lst]; [congruence|]. unfold lsize. simpl.
    pose proof (vsize_pos x). lia. }
  destruct (2 * lsize lst) as [|fuel] eqn:E; [lia|].
  simpl in Hd. apply bind_Ok in Hd. destruct Hd as (fields' & Hf & Hd).
  inversion Hd; subst fields'.
  rewrite (infer_fields_keys_order _ _ _ _ _ Hf). simpl in Hm.
  change (dict_keys (@nil (string * schema))) with (@nil string).
  rewrite (fold_add_key_NoDup (dict_keys m) []) by exact Hnd.
  simpl app. now rewrite (merge_dicts_keys_order _ _ _ _ Hm).
Qed.

Lemma fields_at_any_fuel n (data : dict pyval) (fields : dict schema) :
  Forall2 (fun kv ks => fst ks = fst kv
                        /\ infer_schema set_iter (2 * n) (snd kv) = Ok (snd ks))
    data fields ->
  (forall kv, In kv data -> vsize (snd kv) <= n) ->
  Forall2 (fun kv ks =>
             fst ks = fst kv
             /\ forall fuel, 2 * vsize (snd kv) <= fuel ->
                  infer_schema set_iter fuel (snd kv) = Ok (snd ks))
    data fields.
Proof.
  induction 1 as [|kv ks data fields [Hk Hv] _ IH]; intros Hbound;
    constructor.
  - split; [exact Hk|]. intros fuel Hfuel.
    destruct (infer_schema_returns (snd kv)) as (s' & Hs').
    specialize (Hbound kv ltac:(simpl; auto)).
    rewrite Hs' in Hv by lia. inversion Hv; subst. now apply Hs'.
  - apply IH. intros kv' Hin. apply Hbound. simpl; auto.
Qed.

(** X7: a dictionary with distinct keys is inferred key by key: the
    schema is a dictionary with the same keys in the same order, and
    under each key the schema of the value under it. *)
Theorem dictionary_is_inferred_key_by_key :
  forall data,
    NoDup (dict_keys data) ->
    exists fields,
      (forall fuel, 2 * vsize (PDict data) <= fuel ->
         infer_schema set_iter fuel (PDict data) = Ok (SDict fields))
      /\ Forall2 (fun kv ks =>
                    fst ks = fst kv
                    /\ forall fuel, 2 * vsize (snd kv) <= fuel ->
                         infer_schema set_iter fuel (snd kv) = Ok (snd ks))
           data fields.
Proof.
  intros data Hnd.
  destruct (infer_schema_returns (PDict data)) as (s & Hs).
  pose proof (Hs (2 * vsize (PDict data)) ltac:(lia)) as H0.
  rewrite vsize_PDict in H0.
  replace (2 * S (dsize data)) with (S (S (2 * dsize data))) in H0 by lia.
  change (infer_schema set_iter (S (S (2 * dsize data))) (PDict data))
    with (infer_dict_schema set_iter (S (2 * dsize data)) data) in H0.
  destruct (infer_dict_schema_fields _ _ _ _ Hnd H0) as (fields & -> & Hall).
  exists fields. split; [exact Hs|].
  assert (Hbound : forall kv, In kv data -> vsize (snd kv) <= dsize data).
  { clear. induction data as [|[k v] data IH]; intros kv Hin;
      [destruct Hin | destruct Hin as [Heq|Hin]].
    - subst. unfold dsize. simpl. lia.
    - specialize (IH kv Hin). unfold dsize in *. simpl. lia. }
  exact (fields_at_any_fuel _ _ _ Hall Hbound).
Qed.

(** X8: under a key for which the first dictionary that has it holds a
    value that is neither a list nor a dictionary, and no later one
    holds a list, the schema has the schema of that first value: the
    types of the later values do not show. *)
Theorem schema_shows_the_first_scalar_only :
  forall lst k v0 rest,
    all_dicts lst ->
    observed k lst = v0 :: rest ->
    scalar_like v0 -> Forall no_list rest ->
    exists fields,
      (forall fuel, 2 * lsize lst <= fuel ->
         infer_list_schema set_iter (S fuel) lst = Ok (SList [SDict fields]))
      /\ dict_get k fields = Some (scalar_schema v0).
Proof.
  intros lst k v0 rest Hall Hobs Hs Hrest.
  assert (Hne : lst <> []) by (intros ->; discriminate).
  destruct (infer_list_of_dicts lst Hne Hall) as (m & fields & Hm & Hd & Hl).
  exists fields. split; [exact Hl|].
  specialize (Hm (S (lsize lst)) ltac:(lia)).
  pose proof (merge_nested_dicts_NoDup _ _ _ Hm) as Hnd.
  assert (Hget : dict_get k m = Some v0).
  { simpl in Hm.
    apply (merge_dicts_first (merge_nested_dicts (lsize lst))
             k v0 rest lst [] m); auto. }
  specialize (Hd (S (2 * lsize lst)) ltac:(lia)).
  destruct (infer_dict_schema_fields _ _ _ _ Hnd Hd) as (fields' & Heq & Hall2).
  inversion Heq; subst fields'.
  destruct (@dict_get_fields
              (fun v s => infer_schema set_iter (2 * lsize lst) v = Ok s)
              m fields k v0 Hall2 Hget) as (s & Hgs & Hinf).
  rewrite Hgs. f_equal. eapply scalar_schema_returned; eauto.
Qed.

(** X9: a list that is not empty and whose elements all have one type,
    that type being neither [dict] nor [list], gets the one-element
    list with the name of the type, however many elements it has. *)
Theorem one_scalar_type_is_named_once :
  forall lst t fuel,
    lst <> [] -> Forall (fun x => type_name x = t) lst ->
    t <> "dict" -> t <> "list" ->
    infer_schema set_iter (S (S fuel)) (PList lst) = Ok (SList [SKind t]).
Proof.
  intros lst t fuel Hne Hall Hd Hl.
  change (infer_schema set_iter (S (S fuel)) (PList lst))
    with (infer_list_schema set_iter (S fuel) lst).
  rewrite (infer_list_schema_one set_iter set_iter_perm _ _ t); auto.
  apply String.eqb_neq in Hd, Hl. now rewrite Hd, Hl.
Qed.

(** X17: a list that holds one dictionary gets the schema of that
    dictionary, in a list; both are returned, and merging the one
    dictionary gives that dictionary back. *)
Theorem list_of_one_dictionary :
  forall items,
    NoDup (dict_keys items) ->
    exists s,
      (forall fuel, 2 * vsize (PDict items) <= fuel ->
         infer_schema set_iter fuel (PDict items) = Ok s)
      /\ (forall fuel, 2 * vsize (PDict items) < fuel ->
            infer_schema set_iter fuel (PList [PDict items])
            = Ok (SList [s]))
      /\ (forall fuel,
            merge_nested_dicts (S fuel) [PDict items] = Ok items).
Proof.
  intros items Hnd.
  assert (Hm : forall fuel,
             merge_nested_dicts (S fuel) [PDict items] = Ok items).
  { intros fuel.
    change (merge_nested_dicts (S fuel) [PDict items])
      with (a <- merge_dict (merge_nested_dicts fuel) [] (PDict items) ;;
            Ok a).
    now rewrite merge_dict_copy. }
  destruct (infer_schema_returns (PDict items)) as (s & Hs).
  exists s. split; [exact Hs|]. split; [|exact Hm].
  intros fuel Hfuel. rewrite vsize_PDict in Hfuel.
  destruct fuel as [|[|[|fuel]]]; try lia.
  change (infer_schema set_iter (S (S (S fuel))) (PList [PDict items]))
    with (infer_list_schema set_iter (S (S fuel)) [PDict items]).
  rewrite (infer_list_schema_one set_iter set_iter_perm _ _ "dict");
    [|discriminate|repeat constructor].
  assert (Hd : infer_dict_schema set_iter (S fuel) items = Ok s).
  { apply (Hs (S (S fuel))). rewrite vsize_PDict. lia. }
  rewrite String.eqb_refl, Hm. cbn [bind]. rewrite Hd. reflexivity.
Qed.

Lemma extract_unique_types_length (lst : list pyval) :
  length (extract_unique_types set_iter lst) <= length lst.
Proof.
  unfold extract_unique_types.
  rewrite (Permutation_length (set_iter_perm _)).
  rewrite <- (length_map type_name lst).
  generalize (map type_name lst) as names. clear.
  induction names as [|a names IH]; simpl; [lia|].
  destruct (in_dec String.string_dec a names); simpl; lia.
Qed.

(** When the set of type names has one name, all elements have it. *)
Lemma one_type_name (lst : list pyval) (t0 : string) :
  (1 <? length (extract_unique_types set_iter lst))%nat = false ->
  index0 (extract_unique_types set_iter lst) = Ok t0 ->
  Forall (fun x => type_name x = t0) lst.
Proof.
  intros Hlen Hidx. apply Nat.ltb_ge in Hlen.
  destruct (extract_unique_types set_iter lst) as [|t [|t' types]] eqn:E;
    simpl in *; try discriminate; try lia.
  inversion Hidx; subst t. apply Forall_forall. intros x Hx.
  assert (Hin : In (type_name x) (extract_unique_types set_iter lst)).
  { unfold extract_unique_types.
    apply (set_iter_In set_iter set_iter_perm). now apply in_map. }
  rewrite E in Hin. destruct Hin as [Heq|[]]. now symmetry.
Qed.

Lemma shaped_all (fuel : nat) :
  (forall v s, infer_schema set_iter fuel v = Ok s -> shaped s)
  /\ (forall data s, infer_dict_schema set_iter fuel data = Ok s -> shaped s)
  /\ (forall lst s, infer_list_schema set_iter fuel lst = Ok s -> shaped s).
Proof.
  induction fuel as [|fuel (IHv & IHd & IHl)];
    [repeat split; intros; discriminate|].
  split; [|split].
  - intros v s H. destruct v; simpl in H;
      try (inversion H; subst; constructor); eauto.
  - intros data s H. simpl in H. apply bind_Ok in H.
    destruct H as (fields & Hf & H). inversion H; subst.
    assert (Hinv : NoDup (dict_keys fields)
                   /\ Forall (fun ks => shaped (snd ks)) fields).
    { revert Hf.
      apply (foldM_invariant
               (fun acc : dict schema =>
                  NoDup (dict_keys acc)
                  /\ Forall (fun ks => shaped (snd ks)) acc)).
      - split; constructor.
      - intros acc kv acc' _ [Hnd Hall] Hstep.
        apply bind_Ok in Hstep. destruct Hstep as (s & Hs & Hstep).
        inversion Hstep; subst. split.
        + now apply dict_set_NoDup.
        + apply Forall_dict_set; [|exact Hall].
          intros k0. simpl. eauto. }
    destruct Hinv. now constructor.
  - intros lst s H. simpl in H. destruct lst as [|x lst].
    { inversion H; subst. constructor. }
    set (types := extract_unique_types set_iter (x :: lst)) in *.
    destruct (1 <? length types)%nat eqn:Elen.
    + inversion H; subst. apply Nat.ltb_lt in Elen. constructor; [lia|].
      unfold types, extract_unique_types.
      eapply Permutation_NoDup; [symmetry; apply set_iter_perm|].
      apply NoDup_nodup.
    + apply bind_Ok in H. destruct H as (t0 & _ & H).
      destruct (String.eqb t0 "dict").
      * apply bind_Ok in H. destruct H as (m & _ & H).
        apply bind_Ok in H. destruct H as (s' & Hs' & H).
        inversion H; subst. constructor. eauto.
      * destruct (String.eqb t0 "list").
        -- apply bind_Ok in H. destruct H as (flat & _ & H).
           apply bind_Ok in H. destruct H as (s' & Hs' & H).
           inversion H; subst. constructor. eauto.
        -- inversion H; subst. constructor. constructor.
Qed.

(** X11: every schema that [infer_schema] returns is [None], a type
    name, a dictionary without repeated keys whose values are such
    schemas, or a list that is empty, holds one such schema, or holds
    two different type names or more. *)
Theorem inferred_schemas_are_shaped :
  forall fuel v s, infer_schema set_iter fuel v = Ok s -> shaped s.
Proof.
  intros fuel. apply (shaped_all fuel).
Qed.

Lemma size_all (fuel : nat) :
  (forall v s, infer_schema set_iter fuel v = Ok s -> ssize s <= vsize v)
  /\ (forall data s, infer_dict_schema set_iter fuel data = Ok s ->
         ssize s <= S (dsize data))
  /\ (forall lst s, infer_list_schema set_iter fuel lst = Ok s ->
         ssize s <= S (lsize lst)).
Proof.
  induction fuel as [|fuel (IHv & IHd & IHl)];
    [repeat split; intros; discriminate|].
  split; [|split].
  - intros v s H. destruct v; simpl in H;
      try (inversion H; subst; simpl; lia).
    + rewrite vsize_PList. eauto.
    + rewrite vsize_PDict. eauto.
  - intros data s H. simpl in H. apply bind_Ok in H.
    destruct H as (fields & Hf & H). inversion H; subst.
    apply (infer_fields_size _ _ _ IHv) in Hf.
    change (ssize (SDict fields)) with (S (fsize fields)).
    unfold fsize in Hf at 2. simpl in Hf. lia.
  - intros lst s H. simpl in H. destruct lst as [|x lst].
    { inversion H; subst. simpl. lia. }
    pose proof (length_le_lsize (x :: lst)) as Hlen.
    set (types := extract_unique_types set_iter (x :: lst)) in *.
    destruct (1 <? length types)%nat eqn:Elen.
    + inversion H; subst.
      pose proof (extract_unique_types_length (x :: lst)) as Hle.
      fold types in Hle.
      change (ssize (SList (map SKind types)))
        with (S (list_sum (map ssize (map SKind types)))).
      assert (Hsum : list_sum (map ssize (map SKind types)) = length types).
      { clear. induction types as [|t types IH]; simpl; [reflexivity|].
        now rewrite IH. }
      rewrite Hsum. lia.
    + apply bind_Ok in H. destruct H as (t0 & Hidx & H).
      pose proof (one_type_name _ _ Elen Hidx) as Hall.
      destruct (String.eqb t0 "dict").
      * apply bind_Ok in H. destruct H as (m & Hm & H).
        apply bind_Ok in H. destruct H as (s' & Hs' & H).
        inversion H; subst. apply IHd in Hs'.
        apply merge_nested_dicts_size in Hm.
        change (ssize (SList [s'])) with (S (ssize s' + 0)).
        simpl length in *. lia.
      * destruct (String.eqb t0 "list") eqn:El.
        -- apply String.eqb_eq in El. subst t0.
           destruct (all_lists_inner _ Hall) as (inner & Hinner).
           rewrite Hinner, chain_from_iterable_concat in H. simpl bind in H.
           apply bind_Ok in H. destruct H as (s' & Hs' & H).
           inversion H; subst. apply IHl in Hs'.
           pose proof (lsize_concat inner) as Hc.
           rewrite Hinner. rewrite Hinner, length_map in Hlen.
           assert (1 <= length inner)
             by (destruct inner; [discriminate | simpl; lia]).
           change (ssize (SList [s'])) with (S (ssize s' + 0)). lia.
        -- inversion H; subst. simpl ssize. simpl length in Hlen. lia.
Qed.

(** X12: a schema has no more nodes than the document it is inferred
    from. *)
Theorem schema_is_no_larger_than_the_document :
  forall fuel v s, infer_schema set_iter fuel v = Ok s -> ssize s <= vsize v.
Proof.
  intros fuel. apply (size_all fuel).
Qed.

End InferenceExtras.

(** ** The store is only appended to *)

Lemma bindS_Done {A B : Type} (c : Store.M A) (k : A -> Store.M B) h b h2 :
  Store.bindS c k h = Store.Done b h2 ->
  exists a h1, c h = Store.Done a h1 /\ k a h1 = Store.Done b h2.
Proof.
  unfold Store.bindS. destruct (c h) as [a h1| | |]; try discriminate. eauto.
Qed.

Lemma kept_refl h l : kept h h l.
Proof.
  unfold kept. destruct (h !! l) as [[xs|items]|]; auto.
  exists []. now rewrite app_nil_r.
Qed.

Lemma kept_trans h1 h2 h3 l : kept h1 h2 l -> kept h2 h3 l -> kept h1 h3 l.
Proof.
  unfold kept. destruct (h1 !! l) as [[xs|items]|]; auto.
  - intros (ys & H2) H3. rewrite H2 in H3. destruct H3 as (zs & H3).
    exists (ys ++ zs). now rewrite app_assoc.
  - intros H2 H3. now rewrite H2 in H3.
Qed.

Lemma appends_below_refl n h : appends_below n h h.
Proof. split; [lia | intros; apply kept_refl]. Qed.

Lemma appends_below_trans n h1 h2 h3 :
  appends_below n h1 h2 -> appends_below n h2 h3 -> appends_below n h1 h3.
Proof.
  intros [L1 K1] [L2 K2]. split; [lia|].
  intros l Hl. eapply kept_trans; eauto.
Qed.

Lemma appends_below_mono n n' h h' :
  n' <= n -> appends_below n h h' -> appends_below n' h h'.
Proof. intros Hle [L K]. split; [exact L | intros l Hl; apply K; lia]. Qed.

Lemma appends_below_alloc n h (o : Store.obj) : appends_below n h (h ++ [o]).
Proof.
  split; [rewrite length_app; simpl; lia|].
  intros l _. unfold kept.
  destruct (h !! l) as [[xs|items]|] eqn:E; auto.
  - exists []. rewrite app_nil_r. now apply lookup_app_l_Some.
  - now apply lookup_app_l_Some.
Qed.

(** Writing at or above [n]. *)
Lemma appends_below_insert n h l (o : Store.obj) :
  n <= l -> appends_below n h (<[l := o]> h).
Proof.
  intros Hle. split; [now rewrite length_insert|].
  intros l' Hl'. unfold kept.
  rewrite list_lookup_insert_ne by lia.
  destruct (h !! l') as [[xs|items]|]; auto.
  exists []. now rewrite app_nil_r.
Qed.

(** Appending to a list, anywhere. *)
Lemma appends_below_extend n h l xs ys :
  h !! l = Some (Store.OList xs) ->
  appends_below n h (<[l := Store.OList (xs ++ ys)]> h).
Proof.
  intros Hl. split; [now rewrite length_insert|].
  intros l' _. unfold kept. destruct (decide (l' = l)) as [->|Hne].
  - rewrite Hl. exists ys. apply list_lookup_insert_eq.
    now apply lookup_lt_Some in Hl.
  - rewrite list_lookup_insert_ne by auto.
    destruct (h !! l') as [[xs'|items]|]; auto.
    exists []. now rewrite app_nil_r.
Qed.

Lemma reads_ret {A : Type} (a : A) : reads (Store.ret a).
Proof. intros h a' h' H. now inversion H. Qed.

Lemma reads_bind {A B : Type} (c : Store.M A) (k : A -> Store.M B) :
  reads c -> (forall a, reads (k a)) -> reads (Store.bindS c k).
Proof.
  intros Hc Hk h b h2 H. apply bindS_Done in H.
  destruct H as (a & h1 & H1 & H2). apply Hc in H1. subst h1.
  now apply Hk in H2.
Qed.

Lemma reads_foldS {A B : Type} (f : A -> B -> Store.M A) (l : list B) :
  (forall a b, reads (f a b)) -> forall a, reads (Store.foldS f l a).
Proof.
  intros Hf. induction l as [|b l IH]; intros a; simpl.
  - apply reads_ret.
  - apply reads_bind; auto.
Qed.

Lemma reads_load_list l : reads (Store.load_list l).
Proof.
  intros h a h' H. unfold Store.load_list in H.
  destruct (h !! l) as [[xs|items]|]; now inversion H.
Qed.

Lemma reads_load_dict l : reads (Store.load_dict l).
Proof.
  intros h a h' H. unfold Store.load_dict in H.
  destruct (h !! l) as [[xs|items]|]; now inversion H.
Qed.

Lemma reads_isinstance_dict x : reads (Store.isinstance_dict x).
Proof.
  intros h a h' H. unfold Store.isinstance_dict in H.
  destruct x; try (now inversion H).
  destruct (h !! l) as [[xs|items]|]; now inversion H.
Qed.

Lemma reads_isinstance_list x : reads (Store.isinstance_list x).
Proof.
  intros h a h' H. unfold Store.isinstance_list in H.
  destruct x; try (now inversion H).
  destruct (h !! l) as [[xs|items]|]; now inversion H.
Qed.

Lemma reads_type_name x : reads (Store.type_name x).
Proof.
  intros h a h' H. unfold Store.type_name in H.
  destruct x; try (now inversion H).
  destruct (h !! l) as [[xs|items]|]; now inversion H.
Qed.

Lemma reads_dict_items d : reads (Store.dict_items d).
Proof.
  intros h a h' H. unfold Store.dict_items, Store.raise in H.
  destruct d; try (now inversion H).
  destruct (h !! l) as [[xs|items]|]; now inversion H.
Qed.

Lemma reads_iterate x : reads (Store.iterate x).
Proof.
  intros h a h' H. unfold Store.iterate, Store.raise, Store.ret in H.
  destruct x; try (now inversion H).
  destruct (h !! l) as [[xs|items]|]; now inversion H.
Qed.

Lemma reads_extract_unique_types set_iter l :
  reads (Store.extract_unique_types set_iter l).
Proof.
  unfold Store.extract_unique_types.
  apply reads_bind; [apply reads_load_list|]. intros xs.
  apply reads_bind; [|intros; apply reads_ret].
  apply reads_foldS. intros acc x.
  apply reads_bind; [apply reads_type_name | intros; apply reads_ret].
Qed.

Lemma reads_index0 types : reads (Store.index0 types).
Proof.
  intros h a h' H. destruct types; now inversion H.
Qed.

Lemma appends_above_reads {A : Type} n (c : Store.M A) :
  reads c -> appends_above n c.
Proof.
  intros Hc h a h' _ H. apply Hc in H. subst. apply appends_below_refl.
Qed.

Lemma appends_above_bind {A B : Type} n (c : Store.M A) (k : A -> Store.M B) :
  appends_above n c -> (forall a, appends_above n (k a)) ->
  appends_above n (Store.bindS c k).
Proof.
  intros Hc Hk h b h2 Hn H. apply bindS_Done in H.
  destruct H as (a & h1 & H1 & H2).
  pose proof (Hc _ _ _ Hn H1) as Hb1.
  eapply appends_below_trans; [exact Hb1|].
  apply (Hk a h1 b h2); [destruct Hb1; lia | exact H2].
Qed.

(** The new object is at [n] or above. *)
Lemma appends_above_alloc {B : Type} n (o : Store.obj)
  (k : Store.loc -> Store.M B) :
  (forall l, n <= l -> appends_above n (k l)) ->
  appends_above n (Store.bindS (Store.alloc o) k).
Proof.
  intros Hk h b h2 Hn H. apply bindS_Done in H.
  destruct H as (a & h1 & H1 & H2). unfold Store.alloc in H1.
  inversion H1; subst a h1.
  eapply appends_below_trans; [apply appends_below_alloc|].
  apply (Hk (length h) Hn _ b h2); [rewrite length_app; lia | exact H2].
Qed.

Lemma appends_above_foldS {A B : Type} n (f : A -> B -> Store.M A)
  (l : list B) :
  (forall a b, appends_above n (f a b)) ->
  forall a, appends_above n (Store.foldS f l a).
Proof.
  intros Hf. induction l as [|b l IH]; intros a; simpl.
  - apply appends_above_reads, reads_ret.
  - apply appends_above_bind; auto.
Qed.

Lemma appends_above_for_each n (body : Store.val -> Store.M unit) l :
  (forall d, appends_above n (body d)) ->
  forall fuel i, appends_above n (Store.for_each fuel l i body).
Proof.
  intros Hbody. induction fuel as [|fuel IH]; intros i; simpl.
  - intros h a h' _ H. discriminate.
  - apply appends_above_bind;
      [apply appends_above_reads, reads_load_list|].
    intros xs. destruct (xs !! i) as [d|].
    + apply appends_above_bind; auto.
    + apply appends_above_reads, reads_ret.
Qed.

Lemma appends_above_setitem n merged key value :
  n <= merged -> appends_above n (Store.setitem merged key value).
Proof.
  intros Hle h a h' _ H. unfold Store.setitem in H.
  apply bindS_Done in H. destruct H as (m & h1 & H1 & H2).
  apply reads_load_dict in H1. subst h1. unfold Store.store in H2.
  inversion H2; subst. now apply appends_below_insert.
Qed.

Lemma appends_above_extend n existing value :
  appends_above n (Store.extend existing value).
Proof.
  intros h a h' _ H. unfold Store.extend in H.
  destruct existing; try discriminate. destruct value; try discriminate.
  apply bindS_Done in H. destruct H as (ys & h1 & H1 & H).
  pose proof (reads_load_list _ _ _ _ H1). subst h1.
  apply bindS_Done in H. destruct H as (xs & h1 & H2 & H).
  pose proof (reads_load_list _ _ _ _ H2). subst h1.
  unfold Store.store in H. inversion H; subst.
  apply appends_below_extend.
  unfold Store.load_list in H2.
  destruct (h !! l) as [[xs'|items]|]; now inversion H2.
Qed.

Lemma appends_above_merge_entry n rec merged key value :
  (forall p, appends_above n (rec p)) -> n <= merged ->
  appends_above n (Store.merge_entry rec merged key value).
Proof.
  intros Hrec Hle. unfold Store.merge_entry.
  apply appends_above_bind; [apply appends_above_reads, reads_load_dict|].
  intros m. destruct (dict_get key m) as [existing|];
    [|now apply appends_above_setitem].
  apply appends_above_bind;
    [apply appends_above_reads, reads_isinstance_dict|]. intros ed.
  apply appends_above_bind;
    [apply appends_above_reads, reads_isinstance_dict|]. intros vd.
  destruct (ed && vd).
  - apply appends_above_alloc. intros pair _.
    apply appends_above_bind; [apply Hrec|]. intros r.
    now apply appends_above_setitem.
  - apply appends_above_bind;
      [apply appends_above_reads, reads_isinstance_list|]. intros el.
    apply appends_above_bind;
      [apply appends_above_reads, reads_isinstance_list|]. intros vl.
    destruct (el && vl); [apply appends_above_extend|].
    destruct (negb (Bool.eqb el vl)).
    + now apply appends_above_setitem.
    + apply appends_above_reads, reads_ret.
Qed.

Lemma appends_above_merge_nested_dicts fuel : forall n dict_list,
  appends_above n (Store.merge_nested_dicts fuel dict_list).
Proof.
  induction fuel as [|fuel IH]; intros n dict_list; simpl.
  - intros h a h' _ H. discriminate.
  - apply appends_above_alloc. intros merged Hle.
    apply appends_above_bind; [|intros; apply appends_above_reads, reads_ret].
    apply appends_above_for_each. intros d. unfold Store.merge_dict.
    apply appends_above_bind; [apply appends_above_reads, reads_dict_items|].
    intros items. apply appends_above_foldS. intros _ kv.
    apply appends_above_merge_entry; auto.
Qed.

Lemma appends_above_chain_from_iterable n lst :
  appends_above n (Store.chain_from_iterable lst).
Proof.
  unfold Store.chain_from_iterable.
  apply appends_above_bind; [apply appends_above_reads, reads_load_list|].
  intros xs. apply appends_above_bind.
  - apply appends_above_reads, reads_foldS. intros acc x.
    apply reads_bind; [apply reads_iterate | intros; apply reads_ret].
  - intros flat h a h' _ H. unfold Store.alloc in H. inversion H; subst.
    apply appends_below_alloc.
Qed.

Lemma appends_above_infer set_iter (fuel : nat) : forall n,
  (forall v, appends_above n (Store.infer_schema set_iter fuel v))
  /\ (forall l, appends_above n (Store.infer_dict_schema set_iter fuel l))
  /\ (forall l, appends_above n (Store.infer_list_schema set_iter fuel l)).
Proof.
  induction fuel as [|fuel IH]; intros n.
  { split; [|split]; intros x h a h' _ H; discriminate. }
  destruct (IH n) as (IHv & IHd & IHl). split; [|split].
  - intros v. simpl.
    apply appends_above_bind;
      [apply appends_above_reads, reads_isinstance_list|]. intros il.
    destruct il.
    + destruct v; auto; intros h a h' _ H; discriminate.
    + apply appends_above_bind;
        [apply appends_above_reads, reads_isinstance_dict|]. intros id.
      destruct id.
      * destruct v; auto; intros h a h' _ H; discriminate.
      * destruct v; try (apply appends_above_reads, reads_ret);
          (apply appends_above_bind;
           [apply appends_above_reads, reads_type_name
           |intros; apply appends_above_reads, reads_ret]).
  - intros l. simpl.
    apply appends_above_bind; [apply appends_above_reads, reads_load_dict|].
    intros items.
    apply appends_above_bind; [|intros; apply appends_above_reads, reads_ret].
    apply appends_above_foldS. intros acc kv.
    apply appends_above_bind; [apply IHv|].
    intros; apply appends_above_reads, reads_ret.
  - intros l. simpl.
    apply appends_above_bind; [apply appends_above_reads, reads_load_list|].
    intros xs. destruct xs as [|x xs];
      [apply appends_above_reads, reads_ret|].
    apply appends_above_bind;
      [apply appends_above_reads, reads_extract_unique_types|].
    intros types. destruct (1 <? length types)%nat;
      [apply appends_above_reads, reads_ret|].
    apply appends_above_bind; [apply appends_above_reads, reads_index0|].
    intros t0. destruct (String.eqb t0 "dict").
    + apply appends_above_bind; [apply appends_above_merge_nested_dicts|].
      intros merged. apply appends_above_bind; [apply IHd|].
      intros; apply appends_above_reads, reads_ret.
    + destruct (String.eqb t0 "list").
      * apply appends_above_bind; [apply appends_above_chain_from_iterable|].
        intros flat. apply appends_above_bind; [apply IHl|].
        intros; apply appends_above_reads, reads_ret.
      * apply appends_above_reads, reads_ret.
Qed.

(** X13: whatever the store, a call of [infer_schema] that returns has
    changed no dictionary that was there, and has taken no element from
    a list that was there nor moved one: it has only appended to lists
    and made new objects. *)
Theorem infer_schema_only_appends :
  forall set_iter fuel v h s h',
    Store.infer_schema set_iter fuel v h = Store.Done s h' ->
    only_appends h h'.
Proof.
  intros set_iter fuel v h s h' H.
  destruct (appends_above_infer set_iter fuel (length h)) as (Hv & _ & _).
  apply (Hv v h s h'); [lia | exact H].
Qed.

(** X14: the dictionary that [merge_nested_dicts] returns is a new
    object, and the call has changed no dictionary that was there and
    has only appended to the lists that were there. *)
Theorem merge_nested_dicts_returns_a_new_dictionary :
  forall fuel dict_list h merged h',
    Store.merge_nested_dicts fuel dict_list h = Store.Done merged h' ->
    merged = length h /\ only_appends h h'.
Proof.
  intros fuel dict_list h merged h' H. split.
  - destruct fuel as [|fuel]; [discriminate|]. simpl in H.
    apply bindS_Done in H. destruct H as (m & h1 & H1 & H).
    unfold Store.alloc in H1. inversion H1; subst m h1.
    apply bindS_Done in H. destruct H as (u & h2 & _ & H).
    now inversion H.
  - apply (appends_above_merge_nested_dicts fuel (length h) dict_list
             h merged h'); [lia | exact H].
Qed.

(** ** The name of the output file *)

Lemma startswith_json_app (a rest : string) :
  a <> EmptyString ->
  startswith ".json" (a ++ ".json" ++ rest) = startswith ".json" a.
Proof.
  intros Hne.
  destruct a as [|c1 [|c2 [|c3 [|c4 [|c5 a]]]]]; [congruence| | | | |];
    simpl;
    repeat match goal with
           | |- context [Ascii.eqb ?x ?y] =>
               is_var y; destruct (Ascii.eqb_spec x y); [subst y|];
               cbn [andb]
           end;
    reflexivity.
Qed.

Lemma str_replace_no_occurrence (s : string) :
  occurs ".json" s = false -> output_file_name s = s.
Proof.
  unfold output_file_name, str_replace.
  induction s as [|c s IH]; [reflexivity|].
  intros H. cbn [occurs] in H. apply orb_false_iff in H. destruct H as [H1 H2].
  cbn [replace_from]. rewrite H1. f_equal. auto.
Qed.

Lemma length_append (a b : string) :
  String.length (a ++ b) = String.length a + String.length b.
Proof. induction a as [|c a IH]; simpl; [reflexivity | now rewrite IH]. Qed.

Lemma replace_from_length old new (s : string) : forall skip,
  1 <= String.length old -> String.length old <= String.length new ->
  String.length s <= String.length (replace_from old new skip s) + skip.
Proof.
  induction s as [|c s IH]; intros skip Hpos Hlen; [simpl; lia|].
  cbn [replace_from]. destruct skip as [|skip].
  - destruct (startswith old (String c s)).
    + rewrite length_append.
      specialize (IH (String.length old - 1) Hpos Hlen).
      cbn [String.length]. lia.
    + cbn [String.length]. specialize (IH 0 Hpos Hlen). lia.
  - specialize (IH skip Hpos Hlen). cbn [String.length]. lia.
Qed.

Lemma str_replace_occurrence (s : string) :
  occurs ".json" s = true ->
  String.length s < String.length (output_file_name s).
Proof.
  unfold output_file_name, str_replace.
  induction s as [|c s IH]; [discriminate|].
  intros H. cbn [occurs] in H. cbn [replace_from].
  destruct (startswith ".json" (String c s)) eqn:E.
  - rewrite length_append.
    pose proof (replace_from_length ".json" ".schema.json" s
                  (String.length ".json" - 1)
                  ltac:(simpl; lia) ltac:(simpl; lia)) as Hl.
    simpl in *. lia.
  - simpl in H. apply IH in H. simpl. lia.
Qed.

(** X15: [input_file.replace(".json", ".schema.json")] gives the name
    of the input file back exactly when that name has no [.json] in it;
    line 91 then opens the input file itself for writing. *)
Theorem output_is_the_input_without_json_in_the_name :
  forall input_file,
    output_file_name input_file = input_file
    <-> occurs ".json" input_file = false.
Proof.
  intros input_file. split.
  - intros Heq. destruct (occurs ".json" input_file) eqn:E; [|reflexivity].
    apply str_replace_occurrence in E. rewrite Heq in E. lia.
  - apply str_replace_no_occurrence.
Qed.

(** X16: the first [.json] of the name becomes [.schema.json], and so
    do the ones after it: not the extension alone is replaced. *)
Theorem every_json_in_the_name_is_replaced :
  forall a b,
    occurs ".json" a = false ->
    output_file_name (a ++ ".json" ++ b)
    = (a ++ ".schema.json" ++ output_file_name b)%string.
Proof.
  intros a b. unfold output_file_name, str_replace.
  induction a as [|c a IH]; intros H.
  - reflexivity.
  - cbn [occurs] in H. apply orb_false_iff in H. destruct H as [H1 H2].
    change ((String c a ++ ".json" ++ b)%string)
      with (String c (a ++ ".json" ++ b)%string).
    cbn [replace_from].
    change (String c (a ++ ".json" ++ b)%string)
      with ((String c a ++ ".json" ++ b)%string) at 1.
    rewrite startswith_json_app, H1 by discriminate.
    rewrite (IH H2). reflexivity.
Qed.

(** ** Instances *)

Lemma merged_value_depends_on_its_key_witness :
  all_dicts doc_dict_fields
  /\ exists m,
       (forall fuel, lsize doc_dict_fields < fuel ->
          merge_nested_dicts fuel doc_dict_fields = Ok m)
       /\ forall k fuel, lsize doc_dict_fields <= fuel ->
            merge_values (merge_nested_dicts fuel)
              (observed k doc_dict_fields)
            = Ok (dict_get k m).
Proof.
  split; [repeat constructor|].
  apply (merged_value_depends_on_its_key doc_dict_fields).
  repeat constructor.
Defined.

Lemma lists_of_all_siblings_are_concatenated_witness :
  all_dicts doc_list_fields
  /\ observed "a" doc_list_fields = map PList [[PInt 1]; [PInt 2; PInt 3]]
  /\ exists m,
       (forall fuel, lsize doc_list_fields < fuel ->
          merge_nested_dicts fuel doc_list_fields = Ok m)
       /\ dict_get "a" m = Some (PList (concat [[PInt 1]; [PInt 2; PInt 3]])).
Proof.
  split; [repeat constructor|]. split; [reflexivity|].
  apply (lists_of_all_siblings_are_concatenated doc_list_fields "a"
           [PInt 1] [[PInt 2; PInt 3]]).
  - repeat constructor.
  - reflexivity.
Defined.

Lemma mixed_exactly_when_lists_meet_other_values_witness :
  all_dicts doc_mixed
  /\ Forall (fun v => is_mixed v = false) (observed "a" doc_mixed)
  /\ exists m,
       (forall fuel, lsize doc_mixed < fuel ->
          merge_nested_dicts fuel doc_mixed = Ok m)
       /\ (dict_get "a" m = Some PMixedType
           <-> existsb isinstance_list (observed "a" doc_mixed)
               && existsb (fun v => negb (isinstance_list v))
                    (observed "a" doc_mixed)
               = true).
Proof.
  split; [repeat constructor|]. split; [repeat constructor|].
  apply (mixed_exactly_when_lists_meet_other_values doc_mixed "a");
    repeat constructor.
Defined.

Lemma merge_raises_on_a_value_that_is_no_dictionary_witness :
  all_dicts [PDict [("a", PInt 1)]]
  /\ isinstance_dict (PInt 2) = false
  /\ lsize [PDict [("a", PInt 1)]] < 3
  /\ merge_nested_dicts 3 ([PDict [("a", PInt 1)]] ++ PInt 2 :: [PDict []])
     = Raise AttributeError.
Proof.
  split; [repeat constructor|]. split; [reflexivity|].
  split; [vm_compute; lia|].
  apply (merge_raises_on_a_value_that_is_no_dictionary
           [PDict [("a", PInt 1)]] (PInt 2) [PDict []]).
  - repeat constructor.
  - reflexivity.
  - vm_compute; lia.
Defined.

Lemma dictionaries_under_a_key_are_merged_witness :
  all_dicts doc_dict_fields
  /\ observed "a" doc_dict_fields
     = PDict [("x", PInt 1)] :: [PDict [("y", PInt 2)]]
  /\ all_dicts [PDict [("y", PInt 2)]]
  /\ NoDup (dict_keys [("x", PInt 1)])
  /\ exists m mk,
       (forall fuel, lsize doc_dict_fields < fuel ->
          merge_nested_dicts fuel doc_dict_fields = Ok m)
       /\ (forall fuel, lsize (observed "a" doc_dict_fields) < fuel ->
             merge_nested_dicts fuel (observed "a" doc_dict_fields) = Ok mk)
       /\ dict_get "a" m = Some (PDict mk).
Proof.
  assert (Hnd : NoDup (dict_keys [("x", PInt 1)])).
  { apply NoDup_cons; [intros [] | apply NoDup_nil]. }
  split; [repeat constructor|]. split; [reflexivity|].
  split; [repeat constructor|]. split; [exact Hnd|].
  apply (dictionaries_under_a_key_are_merged doc_dict_fields "a"
           [("x", PInt 1)] [PDict [("y", PInt 2)]]).
  - repeat constructor.
  - reflexivity.
  - repeat constructor.
  - exact Hnd.
Defined.

Lemma schema_keys_are_in_order_of_first_appearance_witness :
  (forall names,
     Permutation (first_seen names) (nodup String.string_dec names))
  /\ doc_siblings <> []
  /\ all_dicts doc_siblings
  /\ exists fields,
       (forall fuel, 2 * lsize doc_siblings <= fuel ->
          infer_list_schema first_seen (S fuel) doc_siblings
          = Ok (SList [SDict fields]))
       /\ dict_keys fields = first_appearance (flat_map keys_of doc_siblings).
Proof.
  split; [intros; reflexivity|]. split; [discriminate|].
  split; [repeat constructor|].
  apply (schema_keys_are_in_order_of_first_appearance first_seen
           (fun names => Permutation_refl _) doc_siblings).
  - discriminate.
  - repeat constructor.
Defined.

Lemma dictionary_is_inferred_key_by_key_witness :
  (forall names,
     Permutation (first_seen names) (nodup String.string_dec names))
  /\ NoDup (dict_keys [("a", PInt 1); ("b", PList [PNone])])
  /\ exists fields,
       (forall fuel,
          2 * vsize (PDict [("a", PInt 1); ("b", PList [PNone])]) <= fuel ->
          infer_schema first_seen fuel
            (PDict [("a", PInt 1); ("b", PList [PNone])])
          = Ok (SDict fields))
       /\ Forall2 (fun kv ks =>
                     fst ks = fst kv
                     /\ forall fuel, 2 * vsize (snd kv) <= fuel ->
                          infer_schema first_seen fuel (snd kv) = Ok (snd ks))
            [("a", PInt 1); ("b", PList [PNone])] fields.
Proof.
  assert (Hnd : NoDup (dict_keys [("a", PInt 1); ("b", PList [PNone])])).
  { apply NoDup_cons; [simpl; intros [H|[]]; discriminate|].
    apply NoDup_cons; [intros [] | apply NoDup_nil]. }
  split; [intros; reflexivity|]. split; [exact Hnd|].
  apply (dictionary_is_inferred_key_by_key first_seen
           (fun names => Permutation_refl _)
           [("a", PInt 1); ("b", PList [PNone])] Hnd).
Defined.

Lemma schema_shows_the_first_scalar_only_witness :
  (forall names,
     Permutation (first_seen names) (nodup String.string_dec names))
  /\ all_dicts doc_scalar_conflict
  /\ observed "a" doc_scalar_conflict = PInt 1 :: [PStr "x"]
  /\ scalar_like (PInt 1)
  /\ Forall no_list [PStr "x"]
  /\ exists fields,
       (forall fuel, 2 * lsize doc_scalar_conflict <= fuel ->
          infer_list_schema first_seen (S fuel) doc_scalar_conflict
          = Ok (SList [SDict fields]))
       /\ dict_get "a" fields = Some (scalar_schema (PInt 1)).
Proof.
  split; [intros; reflexivity|]. split; [repeat constructor|].
  split; [reflexivity|]. split; [split; reflexivity|].
  split; [repeat constructor|].
  apply (schema_shows_the_first_scalar_only first_seen
           (fun names => Permutation_refl _) doc_scalar_conflict "a"
           (PInt 1) [PStr "x"]).
  - repeat constructor.
  - reflexivity.
  - split; reflexivity.
  - repeat constructor.
Defined.

Lemma one_scalar_type_is_named_once_witness :
  (forall names,
     Permutation (first_seen names) (nodup String.string_dec names))
  /\ [PInt 1; PInt 2; PInt 3] <> []
  /\ Forall (fun x => type_name x = "int") [PInt 1; PInt 2; PInt 3]
  /\ "int" <> "dict" /\ "int" <> "list"
  /\ infer_schema first_seen 2 (PList [PInt 1; PInt 2; PInt 3])
     = Ok (SList [SKind "int"]).
Proof.
  split; [intros; reflexivity|]. split; [discriminate|].
  split; [repeat constructor|]. split; [discriminate|].
  split; [discriminate|].
  apply (one_scalar_type_is_named_once first_seen
           (fun names => Permutation_refl _) [PInt 1; PInt 2; PInt 3] "int" 0).
  - discriminate.
  - repeat constructor.
  - discriminate.
  - discriminate.
Defined.

Lemma inferred_schemas_are_shaped_witness :
  (forall names,
     Permutation (first_seen names) (nodup String.string_dec names))
  /\ infer_schema first_seen 4 (PList doc_mixed)
     = Ok (SList [SDict [("a", SKind "MixedType")]])
  /\ shaped (SList [SDict [("a", SKind "MixedType")]]).
Proof.
  split; [intros; reflexivity|]. split; [reflexivity|].
  apply (inferred_schemas_are_shaped first_seen
           (fun names => Permutation_refl _) 4 (PList doc_mixed)).
  reflexivity.
Defined.

Lemma schema_is_no_larger_than_the_document_witness :
  (forall names,
     Permutation (first_seen names) (nodup String.string_dec names))
  /\ infer_schema first_seen 4 (PList doc_mixed)
     = Ok (SList [SDict [("a", SKind "MixedType")]])
  /\ ssize (SList [SDict [("a", SKind "MixedType")]])
     <= vsize (PList doc_mixed).
Proof.
  split; [intros; reflexivity|]. split; [reflexivity|].
  apply (schema_is_no_larger_than_the_document first_seen
           (fun names => Permutation_refl _) 4 (PList doc_mixed)).
  reflexivity.
Defined.

Lemma list_of_one_dictionary_witness :
  (forall names,
     Permutation (first_seen names) (nodup String.string_dec names))
  /\ NoDup (dict_keys [("a", PInt 1)])
  /\ exists s,
       (forall fuel, 2 * vsize (PDict [("a", PInt 1)]) <= fuel ->
          infer_schema first_seen fuel (PDict [("a", PInt 1)]) = Ok s)
       /\ (forall fuel, 2 * vsize (PDict [("a", PInt 1)]) < fuel ->
             infer_schema first_seen fuel (PList [PDict [("a", PInt 1)]])
             = Ok (SList [s]))
       /\ (forall fuel,
             merge_nested_dicts (S fuel) [PDict [("a", PInt 1)]]
             = Ok [("a", PInt 1)]).
Proof.
  assert (Hnd : NoDup (dict_keys [("a", PInt 1)])).
  { apply NoDup_cons; [intros [] | apply NoDup_nil]. }
  split; [intros; reflexivity|]. split; [exact Hnd|].
  apply (list_of_one_dictionary first_seen
           (fun names => Permutation_refl _) [("a", PInt 1)] Hnd).
Defined.

Lemma infer_schema_only_appends_witness :
  Store.infer_schema first_seen 8 (Store.VRef 4) heap_list_fields
  = Store.Done (SList [SDict [("a", SList [SKind "int"])]])
      heap_list_fields_merged
  /\ only_appends heap_list_fields heap_list_fields_merged.
Proof.
  split; [vm_compute; reflexivity|].
  apply (infer_schema_only_appends first_seen 8 (Store.VRef 4)
           heap_list_fields (SList [SDict [("a", SList [SKind "int"])]])
           heap_list_fields_merged).
  vm_compute. reflexivity.
Defined.

Lemma merge_nested_dicts_returns_a_new_dictionary_witness :
  Store.merge_nested_dicts 8 4 heap_list_fields
  = Store.Done 5 heap_list_fields_merged
  /\ 5 = length heap_list_fields
  /\ only_appends heap_list_fields heap_list_fields_merged.
Proof.
  split; [vm_compute; reflexivity|].
  apply (merge_nested_dicts_returns_a_new_dictionary 8 4 heap_list_fields 5
           heap_list_fields_merged).
  vm_compute. reflexivity.
Defined.

Lemma output_is_the_input_without_json_in_the_name_witness :
  output_file_name "data.txt" = "data.txt"
  <-> occurs ".json" "data.txt" = false.
Proof.
  apply (output_is_the_input_without_json_in_the_name "data.txt").
Defined.

Lemma every_json_in_the_name_is_replaced_witness :
  occurs ".json" "v1/data" = false
  /\ output_file_name ("v1/data" ++ ".json" ++ ".json")
     = ("v1/data" ++ ".schema.json" ++ output_file_name ".json")%string.
Proof.
  split; [reflexivity|].
  apply (every_json_in_the_name_is_replaced "v1/data" ".json"). reflexivity.
Defined.

(** * The recursion limit *)

(** ** Depth *)

Lemma ddepth_le (D : nat) (d : dict pyval) :
  ddepth d <= D <-> Forall (fun kv => vdepth (snd kv) <= D) d.
Proof.
  unfold ddepth. rewrite list_max_le, Forall_map. reflexivity.
Qed.

Lemma ldepth_le (D : nat) (l : list pyval) :
  ldepth l <= D <-> Forall (fun v => vdepth v <= D) l.
Proof.
  unfold ldepth. rewrite list_max_le, Forall_map. reflexivity.
Qed.

Lemma ddepth_set (D : nat) key value (d : dict pyval) :
  ddepth d <= D -> vdepth value <= D -> ddepth (dict_set key value d) <= D.
Proof.
  rewrite !ddepth_le. intros Hd Hv.
  induction Hd as [|[k v] d Hk Hd IH]; simpl.
  - constructor; [exact Hv | constructor].
  - destruct (String.eqb key k); constructor; auto.
Qed.

Lemma dict_get_ddepth (D : nat) key existing (d : dict pyval) :
  dict_get key d = Some existing -> ddepth d <= D -> vdepth existing <= D.
Proof.
  rewrite ddepth_le. induction d as [|[k v] d IH]; simpl; [discriminate|].
  intros H Hall. inversion Hall; subst. destruct (String.eqb key k).
  - now inversion H; subst.
  - auto.
Qed.

Lemma vdepth_PDict (items : dict pyval) : vdepth (PDict items) = S (ddepth items).
Proof. reflexivity. Qed.

Lemma vdepth_PList (xs : list pyval) : vdepth (PList xs) = S (ldepth xs).
Proof. reflexivity. Qed.

Lemma ldepth_app (xs ys : list pyval) :
  ldepth (xs ++ ys) = Nat.max (ldepth xs) (ldepth ys).
Proof. unfold ldepth. now rewrite map_app, list_max_app. Qed.

Lemma ldepth_concat (D : nat) (inner : list (list pyval)) :
  ldepth (map PList inner) <= S D -> ldepth (concat inner) <= D.
Proof.
  induction inner as [|xs inner IH]; simpl; [unfold ldepth; simpl; lia|].
  intros H. change (ldepth (PList xs :: map PList inner))
    with (Nat.max (vdepth (PList xs)) (ldepth (map PList inner))) in H.
  rewrite vdepth_PList in H. rewrite ldepth_app.
  specialize (IH ltac:(lia)). lia.
Qed.

Section MergeDepth.

Variable rec : list pyval -> result (dict pyval).
Variable D : nat.
Hypothesis rec_returns :
  forall existing value,
    isinstance_dict existing = true -> isinstance_dict value = true ->
    vdepth existing <= D -> vdepth value <= D ->
    exists m, rec [existing; value] = Ok m /\ vdepth (PDict m) <= D.

Lemma merge_entry_depth merged key value :
  ddepth merged <= D -> vdepth value <= D ->
  exists merged',
    merge_entry rec merged key value = Ok merged' /\ ddepth merged' <= D.
Proof.
  intros Hm Hv. unfold merge_entry.
  destruct (dict_get key merged) as [existing|] eqn:Hget.
  - pose proof (dict_get_ddepth D _ _ _ Hget Hm) as Hex.
    destruct (isinstance_dict existing && isinstance_dict value) eqn:Hdd.
    { apply andb_prop in Hdd. destruct Hdd as [Hd1 Hd2].
      destruct (rec_returns existing value Hd1 Hd2 Hex Hv) as (m & Hr & Hdm).
      rewrite Hr. simpl. eexists; split; [reflexivity|].
      now apply ddepth_set. }
    destruct (isinstance_list existing && isinstance_list value) eqn:Hll.
    { eexists; split; [reflexivity|]. apply ddepth_set; [exact Hm|].
      destruct existing; try discriminate. destruct value; try discriminate.
      simpl list_extend. rewrite vdepth_PList in *. rewrite ldepth_app. lia. }
    destruct (negb _).
    + eexists; split; [reflexivity|]. apply ddepth_set; [exact Hm|].
      simpl. lia.
    + eexists; split; [reflexivity | exact Hm].
  - eexists; split; [reflexivity|]. now apply ddepth_set.
Qed.

Lemma merge_items_depth items : forall merged,
  ddepth merged <= D -> ddepth items <= D ->
  exists merged',
    foldM (fun merged kv => merge_entry rec merged (fst kv) (snd kv))
      items merged = Ok merged'
    /\ ddepth merged' <= D.
Proof.
  induction items as [|[k v] items IH]; intros merged Hm Hi; simpl.
  - eexists; split; [reflexivity | exact Hm].
  - apply ddepth_le in Hi. inversion Hi as [|? ? Hv Hi']; subst.
    destruct (merge_entry_depth merged k v Hm Hv) as (m1 & Hm1 & Hd1).
    rewrite Hm1. simpl. apply IH; [exact Hd1 | now apply ddepth_le].
Qed.

Lemma merge_dicts_depth lst : forall merged,
  all_dicts lst -> ldepth lst <= S D -> ddepth merged <= D ->
  exists merged',
    foldM (merge_dict rec) lst merged = Ok merged' /\ ddepth merged' <= D.
Proof.
  induction lst as [|d lst IH]; intros merged Hall Hl Hm; simpl.
  - eexists; split; [reflexivity | exact Hm].
  - inversion Hall as [|? ? Hd Hall']; subst.
    apply ldepth_le in Hl. inversion Hl as [|? ? Hdd Hl']; subst.
    destruct d; try discriminate. rewrite vdepth_PDict in Hdd.
    unfold merge_dict at 1. simpl dict_items. simpl bind at 2.
    destruct (merge_items_depth items merged Hm) as (m1 & Hm1 & Hd1); [lia|].
    rewrite Hm1. simpl. apply IH; [exact Hall' | now apply ldepth_le | exact Hd1].
Qed.

End MergeDepth.

(** [merge_nested_dicts] returns on dictionaries nested to the depth
    [D] when it may call itself [D] times, and what it returns is nested
    no more deeply. *)
Lemma merge_nested_dicts_depth (fuel : nat) : forall D lst,
  all_dicts lst -> ldepth lst <= S D -> D < fuel ->
  exists m, merge_nested_dicts fuel lst = Ok m /\ ddepth m <= D.
Proof.
  induction fuel as [|fuel IH]; intros D lst Hall Hl Hn; [lia|].
  simpl.
  apply (merge_dicts_depth (merge_nested_dicts fuel) D); auto.
  - intros existing value Hd1 Hd2 He Hv.
    destruct D as [|D'].
    { destruct existing; try discriminate. rewrite vdepth_PDict in He. lia. }
    destruct (IH D' [existing; value]) as (m & Hm & Hdm).
    + repeat constructor; auto.
    + apply ldepth_le.
      constructor; [exact He | constructor; [exact Hv | constructor]].
    + lia.
    + exists m. split; [exact Hm|]. rewrite vdepth_PDict. lia.
  - unfold ddepth. simpl. lia.
Qed.

(** ** What does not run out of fuel stays *)

Lemma settles_refl {A : Type} (r : result A) : settles r r.
Proof. intros _. reflexivity. Qed.

Lemma settles_trans {A : Type} (r1 r2 r3 : result A) :
  settles r1 r2 -> settles r2 r3 -> settles r1 r3.
Proof.
  intros H12 H23 H. rewrite <- (H12 H). apply H23. now rewrite (H12 H).
Qed.

Lemma settles_bind {A B : Type} (r r' : result A) (k k' : A -> result B) :
  settles r r' -> (forall a, settles (k a) (k' a)) ->
  settles (bind r k) (bind r' k').
Proof.
  intros Hr Hk H. destruct r as [a|e|]; simpl in *.
  - rewrite Hr by discriminate. simpl. now apply Hk.
  - rewrite Hr by discriminate. reflexivity.
  - congruence.
Qed.

Lemma settles_foldM {A B : Type} (f g : A -> B -> result A) (l : list B) :
  (forall a b, settles (f a b) (g a b)) ->
  forall a, settles (foldM f l a) (foldM g l a).
Proof.
  intros Hfg. induction l as [|b l IH]; intros a; simpl.
  - apply settles_refl.
  - apply settles_bind; auto.
Qed.

Lemma settles_merge_entry rec rec' merged key value :
  (forall l, settles (rec l) (rec' l)) ->
  settles (merge_entry rec merged key value)
    (merge_entry rec' merged key value).
Proof.
  intros Hrec. unfold merge_entry.
  destruct (dict_get key merged) as [existing|]; [|apply settles_refl].
  destruct (isinstance_dict existing && isinstance_dict value).
  - apply settles_bind; [apply Hrec | intros; apply settles_refl].
  - apply settles_refl.
Qed.

Lemma settles_merge_nested_dicts (fuel : nat) : forall lst,
  settles (merge_nested_dicts fuel lst) (merge_nested_dicts (S fuel) lst).
Proof.
  induction fuel as [|fuel IH]; intros lst; [intros H; now elim H|].
  change (settles
            (foldM (merge_dict (merge_nested_dicts fuel)) lst [])
            (foldM (merge_dict (merge_nested_dicts (S fuel))) lst [])).
  apply settles_foldM. intros merged d. unfold merge_dict.
  apply settles_bind; [apply settles_refl|]. intros items.
  apply settles_foldM. intros m kv. now apply settles_merge_entry.
Qed.

Lemma settles_infer set_iter (fuel : nat) :
  (forall v, settles (infer_schema set_iter fuel v)
               (infer_schema set_iter (S fuel) v))
  /\ (forall data, settles (infer_dict_schema set_iter fuel data)
                     (infer_dict_schema set_iter (S fuel) data))
  /\ (forall lst, settles (infer_list_schema set_iter fuel lst)
                    (infer_list_schema set_iter (S fuel) lst)).
Proof.
  induction fuel as [|fuel (IHv & IHd & IHl)].
  { split; [|split]; intros x H; now elim H. }
  split; [|split].
  - intros v. destruct v; try apply settles_refl.
    + apply IHl.
    + apply IHd.
  - intros data.
    change (settles
              (fields <- foldM (fun acc kv =>
                                  s <- infer_schema set_iter fuel (snd kv) ;;
                                  Ok (dict_set (fst kv) s acc)) data [] ;;
               Ok (SDict fields))
              (fields <- foldM (fun acc kv =>
                                  s <- infer_schema set_iter (S fuel) (snd kv) ;;
                                  Ok (dict_set (fst kv) s acc)) data [] ;;
               Ok (SDict fields))).
    apply settles_bind; [|intros; apply settles_refl].
    apply settles_foldM. intros acc kv.
    apply settles_bind; [apply IHv | intros; apply settles_refl].
  - intros lst. destruct lst as [|x lst]; [apply settles_refl|].
    cbn [infer_list_schema].
    destruct (1 <? length (extract_unique_types set_iter (x :: lst)))%nat;
      [apply settles_refl|].
    apply settles_bind; [apply settles_refl|]. intros t0.
    destruct (String.eqb t0 "dict").
    + apply settles_bind; [apply settles_merge_nested_dicts|]. intros m.
      apply settles_bind; [apply IHd | intros; apply settles_refl].
    + destruct (String.eqb t0 "list"); [|apply settles_refl].
      apply settles_bind; [apply settles_refl|]. intros flat.
      apply settles_bind; [apply IHl | intros; apply settles_refl].
Qed.

Lemma settles_infer_schema set_iter v (fuel fuel' : nat) :
  fuel <= fuel' ->
  settles (infer_schema set_iter fuel v) (infer_schema set_iter fuel' v).
Proof.
  induction 1 as [|fuel' _ IH]; [apply settles_refl|].
  eapply settles_trans; [exact IH|]. apply (settles_infer set_iter fuel').
Qed.

(** ** As many objects, as many pairs of calls *)

Lemma nested_objects_depth (n : nat) : vdepth (nested_objects n) = n.
Proof.
  induction n as [|n IH]; [reflexivity|]. simpl. rewrite IH. lia.
Qed.

Lemma nested_objects_run_out set_iter (n : nat) : forall limit,
  limit <= 2 * n ->
  infer_schema set_iter limit (nested_objects n) = OutOfFuel.
Proof.
  induction n as [|n IH]; intros limit Hl.
  - replace limit with 0 by lia. reflexivity.
  - destruct limit as [|[|limit]]; [reflexivity | reflexivity |].
    change (infer_schema set_iter (S (S limit)) (nested_objects (S n)))
      with (fields <- (acc <- (s <- infer_schema set_iter limit
                                      (nested_objects n) ;;
                               Ok (dict_set "a" s [])) ;;
                       Ok acc) ;;
            Ok (SDict fields)).
    rewrite IH by lia. reflexivity.
Qed.

Section DepthReturns.

Variable set_iter : list string -> list string.
Hypothesis set_iter_perm :
  forall names, Permutation (set_iter names) (nodup String.string_dec names).

Lemma infer_fields_depth (D : nat) :
  (forall v, vdepth v <= D ->
             exists s, forall fuel, 2 * D + 1 <= fuel ->
                                    infer_schema set_iter fuel v = Ok s) ->
  forall data acc, ddepth data <= D ->
    exists fields, forall fuel, 2 * D + 1 <= fuel ->
      foldM (fun acc kv =>
               s <- infer_schema set_iter fuel (snd kv) ;;
               Ok (dict_set (fst kv) s acc)) data acc = Ok fields.
Proof.
  intros HV. induction data as [|[k v] data IH]; intros acc Hd.
  - exists acc. reflexivity.
  - apply ddepth_le in Hd. inversion Hd as [|? ? Hv Hd']; subst.
    destruct (HV v Hv) as (s & Hs).
    destruct (IH (dict_set k s acc)) as (fields & Hf); [now apply ddepth_le|].
    exists fields. intros fuel Hfuel. simpl.
    rewrite (Hs fuel Hfuel). simpl. now apply Hf.
Qed.

Lemma value_returns_to_depth (D : nat) :
  (forall D', D = S D' -> returns_to_depth set_iter D') ->
  forall v, vdepth v <= D ->
    exists s, forall fuel, 2 * D + 1 <= fuel ->
                           infer_schema set_iter fuel v = Ok s.
Proof.
  intros Hbelow v Hv. destruct v.
  1-5, 8: (eexists; intros fuel Hfuel;
           destruct fuel as [|fuel]; [lia | reflexivity]).
  - rewrite vdepth_PList in Hv. destruct D as [|D']; [lia|].
    destruct (Hbelow D' eq_refl) as (_ & _ & HL).
    destruct (HL xs) as (s & Hs); [lia|].
    exists s. intros fuel Hfuel. destruct fuel as [|fuel]; [lia|].
    simpl. apply Hs. lia.
  - rewrite vdepth_PDict in Hv. destruct D as [|D']; [lia|].
    destruct (Hbelow D' eq_refl) as (_ & HD & _).
    destruct (HD items) as (s & Hs); [lia|].
    exists s. intros fuel Hfuel. destruct fuel as [|fuel]; [lia|].
    simpl. apply Hs. lia.
Qed.

Lemma dict_returns_to_depth (D : nat) :
  (forall v, vdepth v <= D ->
     exists s, forall fuel, 2 * D + 1 <= fuel ->
                            infer_schema set_iter fuel v = Ok s) ->
  forall data, ddepth data <= D ->
    exists s, forall fuel, 2 * D + 2 <= fuel ->
                           infer_dict_schema set_iter fuel data = Ok s.
Proof.
  intros HV data Hd.
  destruct (infer_fields_depth D HV data [] Hd) as (fields & Hf).
  exists (SDict fields). intros fuel Hfuel.
  destruct fuel as [|fuel]; [lia|]. simpl.
  rewrite Hf; [reflexivity | lia].
Qed.

Lemma list_returns_to_depth (D : nat) :
  (forall D', D = S D' -> returns_to_depth set_iter D') ->
  forall lst, ldepth lst <= D ->
    exists s, forall fuel, 2 * D + 2 <= fuel ->
                           infer_list_schema set_iter fuel lst = Ok s.
Proof.
  intros Hbelow lst Hl.
  destruct lst as [|z lst'] eqn:Hlst.
  { exists (SList []). intros fuel Hfuel.
    destruct fuel as [|fuel]; [lia | reflexivity]. }
  rewrite <- Hlst in *.
  assert (Hne : lst <> []) by (subst; discriminate).
  assert (Hz : vdepth z <= D).
  { apply ldepth_le in Hl. rewrite Hlst in Hl. now inversion Hl. }
  destruct (type_names_dec (type_name z) lst) as [Hall|(x & Hx & Hxz)].
  - destruct (String.eqb (type_name z) "dict") eqn:Edict.
    { apply String.eqb_eq in Edict. rewrite Edict in Hall.
      pose proof (all_dicts_type_name lst Hall) as Hdicts.
      destruct D as [|D'].
      { destruct z; try discriminate. rewrite vdepth_PDict in Hz. lia. }
      destruct (Hbelow D' eq_refl) as (_ & HD & _).
      destruct (merge_nested_dicts_depth (S D') D' lst Hdicts Hl)
        as (m & Hm & Hdm); [lia|].
      destruct (HD m Hdm) as (s & Hs).
      exists (SList [s]). intros fuel Hfuel.
      destruct fuel as [|fuel]; [lia|].
      assert (Hm' : merge_nested_dicts fuel lst = Ok m)
        by (apply (merge_nested_dicts_mono (S D')); [lia | exact Hm]).
      rewrite (infer_list_schema_one set_iter set_iter_perm fuel lst "dict");
        auto.
      rewrite String.eqb_refl, Hm'. simpl bind.
      rewrite Hs; [reflexivity | lia]. }
    destruct (String.eqb (type_name z) "list") eqn:Elist.
    { apply String.eqb_eq in Elist. rewrite Elist in Hall.
      destruct (all_lists_inner lst Hall) as (inner & Hinner).
      destruct D as [|D'].
      { destruct z; try discriminate. rewrite vdepth_PList in Hz. lia. }
      destruct (Hbelow D' eq_refl) as (_ & _ & HL).
      destruct (HL (concat inner)) as (s & Hs).
      { apply ldepth_concat. now rewrite <- Hinner. }
      exists (SList [s]). intros fuel Hfuel.
      destruct fuel as [|fuel]; [lia|].
      rewrite (infer_list_schema_one set_iter set_iter_perm fuel lst "list");
        auto.
      change (String.eqb "list" "dict") with false.
      rewrite String.eqb_refl, Hinner, chain_from_iterable_concat.
      simpl bind. rewrite Hs; [reflexivity | lia]. }
    exists (SList [SKind (type_name z)]). intros fuel Hfuel.
    destruct fuel as [|fuel]; [lia|].
    rewrite (infer_list_schema_one set_iter set_iter_perm fuel lst
               (type_name z)); auto.
    now rewrite Edict, Elist.
  - exists (SList (map SKind (extract_unique_types set_iter lst))).
    intros fuel Hfuel. destruct fuel as [|fuel]; [lia|].
    apply (infer_list_schema_several set_iter set_iter_perm fuel lst x z);
      auto.
    subst lst. simpl; auto.
Qed.

Lemma all_return_to_depth (D : nat) : returns_to_depth set_iter D.
Proof.
  induction D as [D IH] using lt_wf_ind.
  assert (Hbelow : forall D', D = S D' -> returns_to_depth set_iter D').
  { intros D' ->. apply IH. lia. }
  pose proof (value_returns_to_depth D Hbelow) as HV.
  split; [exact HV|]. split.
  - now apply dict_returns_to_depth.
  - now apply list_returns_to_depth.
Qed.


End DepthReturns.


